(** * Read-side cache and join layer of the CRM back end

    A shallow embedding of the readers ([data/*-reader.js]) and of
    [services/company-service.js], together with the properties the
    specification states about them.

    JavaScript strings are sequences of UTF-16 code units; a sheet cell is a
    string (the readers call [values.get] without a render option, so cells
    arrive formatted); a parsed record is an object whose fields hold
    primitive values. *)

From Stdlib Require Import ZArith NArith Ascii String DecimalString.
From stdpp Require Import gmap strings list fin_maps sorting.

Local Open Scope Z_scope.

(* ===================================================================== *)
(** * JavaScript values *)
(* ===================================================================== *)

(** A string: its UTF-16 code units. *)
Abbreviation jsstring := (list N).

(** An ASCII literal as a JavaScript string. *)
Definition js (s : string) : jsstring :=
  map N_of_ascii (list_ascii_of_string s).

(** The code units the normaliser's regular expressions name. *)
Definition cu_lparen : N := 40.
Definition cu_rparen : N := 41.
Definition cu_bar : N := 124.
Definition cu_gu : N := 32929.      (* U+80A1 股 *)
Definition cu_fen : N := 20221.     (* U+4EFD 份 *)
Definition cu_you : N := 26377.     (* U+6709 有 *)
Definition cu_xian : N := 38480.    (* U+9650 限 *)
Definition cu_gong : N := 20844.    (* U+516C 公 *)
Definition cu_si : N := 21496.      (* U+53F8 司 *)

(** Primitive values: what a field of a parsed record can hold. A number is
    an integer here (row indexes, orders, millisecond time values). *)
Inductive Prim :=
| PUndefined
| PNull
| PBool (b : bool)
| PNum (n : Z)
| PStr (s : jsstring).

#[export] Instance Prim_eq_dec : EqDecision Prim.
Proof. solve_decision. Defined.

Definition Prim_encode (p : Prim) : unit + (unit + (bool + (Z + list N))) :=
  match p with
  | PUndefined => inl tt
  | PNull => inr (inl tt)
  | PBool b => inr (inr (inl b))
  | PNum n => inr (inr (inr (inl n)))
  | PStr s => inr (inr (inr (inr s)))
  end.

Definition Prim_decode (x : unit + (unit + (bool + (Z + list N)))) : Prim :=
  match x with
  | inl _ => PUndefined
  | inr (inl _) => PNull
  | inr (inr (inl b)) => PBool b
  | inr (inr (inr (inl n))) => PNum n
  | inr (inr (inr (inr s))) => PStr s
  end.

#[export] Instance Prim_countable : Countable Prim.
Proof.
  apply (inj_countable' Prim_encode Prim_decode).
  intros []; reflexivity.
Defined.

(** The result of an arithmetic expression: a number or NaN. *)
Inductive JsNum :=
| NaN
| Num (n : Z).

(** [ToBoolean]. *)
Definition truthy (p : Prim) : bool :=
  match p with
  | PUndefined | PNull => false
  | PBool b => b
  | PNum n => negb (n =? 0)
  | PStr s => match s with [] => false | _ => true end
  end.

(** [a || b]. *)
Definition por (a b : Prim) : Prim := if truthy a then a else b.

(** [a && b]. *)
Definition pand (a b : Prim) : Prim := if truthy a then b else a.

(** [a === b] on primitives. *)
Definition strictEq (a b : Prim) : bool := bool_decide (a = b).

(** An object with primitive fields, in insertion order; a later write to an
    existing field replaces its value in place. *)
Abbreviation Obj := (list (string * Prim)).

Fixpoint getField (o : Obj) (k : string) : Prim :=
  match o with
  | [] => PUndefined
  | (k', v) :: o' => if String.eqb k' k then v else getField o' k
  end.

Fixpoint setField (o : Obj) (k : string) (v : Prim) : Obj :=
  match o with
  | [] => [(k, v)]
  | (k', v') :: o' =>
      if String.eqb k' k then (k', v) :: o' else (k', v') :: setField o' k v
  end.

(** A raw row of the sheet, and [row[i]]: [undefined] past the end. *)
Abbreviation Row := (list jsstring).

Definition cell (row : Row) (i : nat) : Prim :=
  match row !! i with
  | Some s => PStr s
  | None => PUndefined
  end.

(* ===================================================================== *)
(** * Built-ins of the engine *)
(* ===================================================================== *)

(** A surrogate code unit: one half of the pair that encodes a code point
    outside the Basic Multilingual Plane. *)
Definition isSurrogate (c : N) : bool := ((55296 <=? c) && (c <=? 57343))%N.

(** The built-ins the model leaves open: [String.prototype.toLowerCase] on
    whole strings, [Date.parse], [parseInt] and
    [Date.prototype.toISOString]. [None] is NaN. The laws are facts of every
    engine. Lower-casing a lower-cased string changes nothing. Only the
    empty string lower-cases to the empty string. The mapping works on code
    points, and the only one whose image depends on its neighbours is the
    capital sigma, which is never left as it is: so a string that holds no
    surrogate code unit, and only units of a string that lower-casing
    leaves alone, is left alone too. (With surrogates this fails: two
    halves that come to stand side by side form a code point that may have
    a lower case of its own.) And the empty string is no date. *)
Class Engine := {
  String_toLowerCase : jsstring -> jsstring;
  Date_parse : jsstring -> option Z;
  parseInt : jsstring -> option Z;
  toISOString : Z -> jsstring;
  toLowerCase_twice :
    forall s, String_toLowerCase (String_toLowerCase s) = String_toLowerCase s;
  toLowerCase_empty : forall s, String_toLowerCase s = [] <-> s = [];
  toLowerCase_units :
    forall x y,
      String_toLowerCase x = x ->
      Forall (fun c => c ∈ x /\ isSurrogate c = false) y ->
      String_toLowerCase y = y;
  Date_parse_empty : Date_parse [] = None
}.

(** [String.prototype.toLowerCase]. *)
Definition toLowerCase `{Engine} (s : jsstring) : jsstring := String_toLowerCase s.

(** Line terminators: LF, CR, LS, PS. *)
Definition isLineTerminator (c : N) : bool :=
  ((c =? 10) || (c =? 13) || (c =? 8232) || (c =? 8233))%N.

(** White space as [trim] sees it: the WhiteSpace production and the line
    terminators. *)
Definition isWhiteSpace (c : N) : bool :=
  ((c =? 9) || (c =? 11) || (c =? 12) || (c =? 32) || (c =? 160)
   || (c =? 5760) || ((8192 <=? c) && (c <=? 8202)) || (c =? 8239)
   || (c =? 8287) || (c =? 12288) || (c =? 65279))%N
  || isLineTerminator c.

Fixpoint trimStart (s : jsstring) : jsstring :=
  match s with
  | [] => []
  | c :: t => if isWhiteSpace c then trimStart t else s
  end.

Fixpoint trimEnd (s : jsstring) : jsstring :=
  match s with
  | [] => []
  | c :: t =>
      match trimEnd t with
      | [] => if isWhiteSpace c then [] else [c]
      | t' => c :: t'
      end
  end.

(** [String.prototype.trim]. *)
Definition trim (s : jsstring) : jsstring := trimEnd (trimStart s).

(** [s.startsWith(p)], used to match a literal at the current position. *)
Fixpoint startsWith (p s : jsstring) : bool :=
  match p, s with
  | [], _ => true
  | _ :: _, [] => false
  | a :: p', b :: s' => (a =? b)%N && startsWith p' s'
  end.

(** [s.replace(re, '')] for a global regular expression [re]: [matchAt s]
    is the length of the match of [re] that starts at the head of [s], if
    there is one. The scan goes left to right; a match is dropped and the
    scan resumes behind it; [skip] counts the units of the current match
    still to drop. Both expressions of this program match two units or
    more. *)
Fixpoint removeMatches (matchAt : jsstring -> option nat) (skip : nat)
    (s : jsstring) : jsstring :=
  match s with
  | [] => []
  | c :: t =>
      match skip with
      | S k => removeMatches matchAt k t
      | O =>
          match matchAt s with
          | Some (S k) => removeMatches matchAt k t
          | _ => c :: removeMatches matchAt 0 t
          end
      end
  end.

(** Does [re] match anywhere in [s]? *)
Fixpoint occurs (matchAt : jsstring -> option nat) (s : jsstring) : bool :=
  match s with
  | [] => false
  | _ :: t =>
      match matchAt s with
      | Some (S _) => true
      | _ => occurs matchAt t
      end
  end.

(** [new Date(x).getTime()] for a field value: a string goes through
    [Date.parse]; [undefined] is no date; [null] and booleans convert to
    numbers first. *)
Definition dateValue `{Engine} (p : Prim) : JsNum :=
  match p with
  | PStr s => match Date_parse s with Some t => Num t | None => NaN end
  | PNum n => if Z.abs n <=? 8640000000000000 then Num n else NaN
  | PBool b => Num (if b then 1 else 0)
  | PNull => Num 0
  | PUndefined => NaN
  end.

(** [isNaN(x)]. *)
Definition isNaN (x : JsNum) : bool :=
  match x with
  | NaN => true
  | Num _ => false
  end.

(** [String(x)]; the default parameter of [_normalizeKey] turns [undefined]
    into the empty string before this conversion. *)
Definition toStringOr (dflt : jsstring) (p : Prim) : jsstring :=
  match p with
  | PUndefined => dflt
  | PNull => js "null"
  | PBool b => js (if b then "true" else "false")
  | PNum n => js (NilZero.string_of_int (Z.to_int n))
  | PStr s => s
  end.

(** [s.includes(q)]. *)
Fixpoint includes (s q : jsstring) : bool :=
  startsWith q s ||
  match s with
  | [] => false
  | _ :: t => includes t q
  end.

(** [new Map(entries)]: a later entry with the same key replaces the
    earlier one. *)
Definition newMap (entries : list (Prim * Prim)) : gmap Prim Prim :=
  foldl (fun m kv => <[fst kv := snd kv]> m) ∅ entries.

(** [map.get(k)]: [undefined] when the key is absent. *)
Definition mapGet {K} `{Countable K} (m : gmap K Prim) (k : K) : Prim :=
  default PUndefined (m !! k).

(** [a - b] on the results of two conversions. *)
Definition numSub (a b : JsNum) : JsNum :=
  match a, b with
  | Num x, Num y => Num (x - y)
  | _, _ => NaN
  end.

(** [Array.prototype.sort(comparefn)]: a stable sort; a comparator result
    of NaN counts as [+0]. An element moves behind another only when the
    comparator puts it strictly after. For a consistent comparator every
    stable sort gives this order. *)
Definition placedAfter {A} (comparefn : A -> A -> JsNum) (a b : A) : bool :=
  match comparefn a b with
  | Num v => 0 <? v
  | NaN => false
  end.

Fixpoint insertSorted {A} (comparefn : A -> A -> JsNum) (x : A) (l : list A)
    : list A :=
  match l with
  | [] => [x]
  | y :: t =>
      if placedAfter comparefn x y then y :: insertSorted comparefn x t
      else x :: l
  end.

Definition sortBy {A} (comparefn : A -> A -> JsNum) (l : list A) : list A :=
  foldr (insertSorted comparefn) [] l.

(** [arr.slice(0, end)] for an integer [end]: a negative [end] counts from
    the back. *)
Definition slice0 {A} (l : list A) (e : Z) : list A :=
  if e <? 0 then take (Z.to_nat (Z.of_nat (length l) + e)) l
  else take (Z.to_nat e) l.

(* ===================================================================== *)
(** * The table source, the cache and the reader base *)
(* ===================================================================== *)

(** A request to [sheets.spreadsheets.values.get]. *)
Record Request := { spreadsheetId : string; range : string }.

(** What the promise settles to: rejected, or resolved with
    [response.data.values], which the API leaves out for an empty range. *)
Inductive Response :=
| Reject
| Resolve (values : option (list Row)).

(** [response.data.values || []]. *)
Definition valuesOrEmpty (values : option (list Row)) : list Row :=
  default [] values.

(** The settings object: one array of items per type, keys in insertion
    order. *)
Abbreviation Settings := (list (jsstring * list Obj)).

(** What a cache entry's [data] holds. *)
Inductive Data :=
| DNull
| DRows (rows : list Obj)
| DSettings (settings : Settings).

Definition dataTruthy (d : Data) : bool :=
  match d with
  | DNull => false
  | _ => true
  end.

(** [{ data, timestamp }]. *)
Record CacheEntry := { data : Data; timestamp : Z }.

(** The state the readers share: the cache object of base-reader.js, and the
    number of [values.get] calls made so far. *)
Record World := { cache : gmap string CacheEntry; calls : nat }.

Definition setCache (w : World) (key : string) (e : CacheEntry) : World :=
  {| cache := <[key := e]> (cache w); calls := calls w |}.

Record ContactFields := {
  CF_TIME : nat; CF_NAME : nat; CF_COMPANY : nat; CF_POSITION : nat;
  CF_DEPARTMENT : nat; CF_PHONE : nat; CF_MOBILE : nat; CF_EMAIL : nat;
  CF_WEBSITE : nat; CF_ADDRESS : nat; CF_CONFIDENCE : nat; CF_STATUS : nat;
  CF_DRIVE_LINK : nat; CF_LINE_USER_ID : nat; CF_USER_NICKNAME : nat
}.

Record AnnouncementFields := {
  AF_ID : nat; AF_TITLE : nat; AF_CONTENT : nat; AF_CREATOR : nat;
  AF_CREATE_TIME : nat; AF_LAST_UPDATE_TIME : nat; AF_STATUS : nat;
  AF_IS_PINNED : nat
}.

Record OppContactLinkFields := {
  LF_LINK_ID : nat; LF_OPPORTUNITY_ID : nat; LF_CONTACT_ID : nat;
  LF_CREATE_TIME : nat; LF_STATUS : nat; LF_CREATOR : nat
}.

(** The part of [config] the readers use; config.js is not among the
    sources, so its values are parameters. The ranges are the sheet names
    with their column span. *)
Record Config := {
  RANGE_SYSTEM_CONFIG : string;
  RANGE_CONTACTS : string;
  RANGE_CONTACT_LIST : string;
  RANGE_OPPORTUNITY_CONTACT_LINK : string;
  RANGE_ANNOUNCEMENTS : string;
  RANGE_WEEKLY_BUSINESS_SUMMARY : string;
  IDS_AUTH : option string;
  DEFAULT_SETTINGS : option Settings;
  CONTACT_FIELDS : ContactFields;
  ANNOUNCEMENT_FIELDS : AnnouncementFields;
  OPP_CONTACT_LINK_FIELDS : OppContactLinkFields
}.

(** What the BaseReader constructor stores in [this]: the sheets client (the
    n-th call's outcome for a request), the target spreadsheet, the
    configuration and the freshness window. *)
Class Reader := {
  sheets : Request -> nat -> Response;
  targetSpreadsheetId : string;
  config : Config;
  CACHE_DURATION : Z
}.

(** [await this.sheets.spreadsheets.values.get(req)]. *)
Definition values_get `{Reader} (req : Request) (w : World) : Response * World :=
  (sheets req (calls w), {| cache := cache w; calls := S (calls w) |}).

(** [this.cache[key] && this.cache[key].data &&
     (now - this.cache[key].timestamp < this.CACHE_DURATION)], with the
    data when the test passes. *)
Definition freshData `{Reader} (w : World) (cacheKey : string) (now : Z)
    : option Data :=
  match cache w !! cacheKey with
  | Some e =>
      if dataTruthy (data e) && (now - timestamp e <? CACHE_DURATION)
      then Some (data e) else None
  | None => None
  end.

(** Section 3 of the spec: the entry for [key] is fresh at [now]. *)
Definition fresh `{Reader} (w : World) (key : string) (now : Z) : bool :=
  match cache w !! key with
  | Some e => dataTruthy (data e) && (now - timestamp e <? CACHE_DURATION)
  | None => false
  end.

(** Two calls of a read, at [t1] and then at [t2]: the second returns what
    the first returned, the two together read the table source at most
    once, and the second reads nothing. *)
Definition servedFromCache (read : Z -> World -> Data * World) (w : World)
    (t1 t2 : Z) : Prop :=
  let first := read t1 w in
  let second := read t2 first.2 in
  second.1 = first.1
  /\ (calls second.2 <= S (calls w))%nat
  /\ calls second.2 = calls first.2.

Module BaseReader.

(** Modelled from the spec: data/base-reader.js is not among the sources.
    Section 4.2: a present and fresh entry is returned unchanged with no
    I/O; otherwise the table source is read, every raw row is parsed with
    its index, the records are sorted when a sorter is supplied, the result
    is stored under the key with the current timestamp and returned; a
    failed read caches nothing and returns the empty sequence. *)
Definition _fetchAndCache `{Reader} (cacheKey : string) (rng : string)
    (rowParser : Row -> nat -> Obj) (sorter : option (Obj -> Obj -> JsNum))
    (now : Z) (w : World) : Data * World :=
  let hit :=
    match cache w !! cacheKey with
    | Some e => if now - timestamp e <? CACHE_DURATION then Some (data e) else None
    | None => None
    end in
  match hit with
  | Some d => (d, w)
  | None =>
      match values_get {| spreadsheetId := targetSpreadsheetId; range := rng |} w with
      | (Reject, w') => (DRows [], w')
      | (Resolve values, w') =>
          let records := imap (fun i row => rowParser row i) (valuesOrEmpty values) in
          let sorted := match sorter with
                        | Some f => sortBy f records
                        | None => records
                        end in
          (DRows sorted,
           setCache w' cacheKey {| data := DRows sorted; timestamp := now |})
      end
  end.

(** Modelled from the spec: data/base-reader.js is not among the sources.
    Section 4.1: [invalidate(key | null)] removes the entry for [key]; the
    wildcard [null] removes all entries; an unknown key is a no-op. *)
Definition invalidateCache (key : option string) (w : World) : World :=
  match key with
  | Some k => {| cache := delete k (cache w); calls := calls w |}
  | None => {| cache := ∅; calls := calls w |}
  end.

End BaseReader.

(* ===================================================================== *)
(** * data/system-reader.js *)
(* ===================================================================== *)

Module SystemReader.

Definition key_eventTypes : jsstring := [20107; 20214; 39006; 22411]%N.
Definition key_calendarRules : jsstring :=
  [26085; 26310; 31721; 36984; 35215; 21063]%N.
Definition category_other : jsstring := [20854; 20182]%N.

Definition defaultEventTypes : list Obj :=
  [ [("value", PStr (js "general")); ("note", PStr [19968; 33324]%N);
     ("order", PNum 1); ("color", PStr (js "#6c757d"))];
    [("value", PStr (js "iot")); ("note", PStr (js "IOT"));
     ("order", PNum 2); ("color", PStr (js "#007bff"))];
    [("value", PStr (js "dt")); ("note", PStr (js "DT"));
     ("order", PNum 3); ("color", PStr (js "#28a745"))];
    [("value", PStr (js "dx")); ("note", PStr (js "DX"));
     ("order", PNum 4); ("color", PStr (js "#ffc107"))];
    [("value", PStr (js "legacy")); ("note", PStr [33290; 20107; 20214]%N);
     ("order", PNum 5); ("color", PStr (js "#dc3545"))] ].

(** The names [settings[type]] finds on [Object.prototype] when [settings]
    has no own property of that name. What it finds there is truthy and has
    no [find] method. *)
Definition objectPrototypeKeys : list jsstring :=
  map js [ "constructor"; "toString"; "toLocaleString"; "valueOf";
           "hasOwnProperty"; "isPrototypeOf"; "propertyIsEnumerable";
           "__proto__"; "__defineGetter__"; "__defineSetter__";
           "__lookupGetter__"; "__lookupSetter__" ]%string.

Fixpoint ownItems (settings : Settings) (type : jsstring) : option (list Obj) :=
  match settings with
  | [] => None
  | (k, items) :: rest =>
      if bool_decide (k = type) then Some items else ownItems rest type
  end.

Fixpoint setItems (settings : Settings) (type : jsstring) (items : list Obj)
    : Settings :=
  match settings with
  | [] => [(type, items)]
  | (k, old) :: rest =>
      if bool_decide (k = type) then (k, items) :: rest
      else (k, old) :: setItems rest type items
  end.

(** [parseInt(order) || 99]. *)
Definition orderOf `{Engine} (order : Prim) : Prim :=
  match order with
  | PStr s =>
      match parseInt s with
      | Some n => if n =? 0 then PNum 99 else PNum n
      | None => PNum 99
      end
  | _ => PNum 99
  end.

(** [exists = items.find(i => i.value === item)] and the two assignments to
    [exists]; [None] when no item has that value. *)
Fixpoint updateExisting (item note' order' : Prim) (items : list Obj)
    : option (list Obj) :=
  match items with
  | [] => None
  | o :: rest =>
      if strictEq (getField o "value") item
      then Some (setField (setField o "note" note') "order" order' :: rest)
      else (fun rest' => o :: rest') <$> updateExisting item note' order' rest
  end.

(** The body of the [forEach] over the data rows; [None] is the TypeError
    of calling [find] on an inherited property. *)
Definition applyConfigRow `{Engine} (settings : Settings) (row : Row)
    : option Settings :=
  let type := cell row 0 in
  let item := cell row 1 in
  let order := cell row 2 in
  let enabled := cell row 3 in
  let note := cell row 4 in
  let color := cell row 5 in
  let value2 := cell row 6 in
  let value3 := cell row 7 in
  let category := cell row 8 in
  match type with
  | PStr ty =>
      if strictEq enabled (PStr (js "TRUE")) && truthy type && truthy item then
        let existing :=
          match ownItems settings ty with
          | Some items => Some items
          | None =>
              if bool_decide (ty ∈ objectPrototypeKeys) then None else Some []
          end in
        match existing with
        | None => None
        | Some items =>
            match updateExisting item (por note item) (orderOf order) items with
            | Some items' => Some (setItems settings ty items')
            | None =>
                Some (setItems settings ty
                        (items ++
                         [ [("value", item); ("note", por note item);
                            ("order", orderOf order);
                            ("color", por color PNull);
                            ("value2", por value2 PNull);
                            ("value3", por value3 PNull);
                            ("category", por category (PStr category_other))] ]))
            end
        end
      else Some settings
  | _ => Some settings
  end.

Fixpoint forEachRow `{Engine} (settings : Settings) (rows : list Row)
    : option Settings :=
  match rows with
  | [] => Some settings
  | row :: rest =>
      match applyConfigRow settings row with
      | Some settings' => forEachRow settings' rest
      | None => None
      end
  end.

(** [a.order - b.order]; [order] is always a number here. *)
Definition byOrder (a b : Obj) : JsNum :=
  match getField a "order", getField b "order" with
  | PNum x, PNum y => Num (x - y)
  | _, _ => NaN
  end.

(** From [const settings = {}] to the sort of every array. *)
Definition buildSettings `{Engine} (rows : list Row) : option Settings :=
  let settings := [(key_eventTypes, defaultEventTypes); (key_calendarRules, [])] in
  let filled :=
    if (1 <? length rows)%nat then forEachRow settings (drop 1 rows)
    else Some settings in
  (fun st => map (fun kv => (fst kv, sortBy byOrder (snd kv))) st) <$> filled.

(** [this.config.DEFAULT_SETTINGS || {}]. *)
Definition settingsFallback `{Reader} : Data :=
  DSettings (default [] (DEFAULT_SETTINGS config)).

(** [getSystemConfig()], called at time [now]. *)
Definition getSystemConfig `{Engine} `{Reader} (now : Z) (w : World)
    : Data * World :=
  let cacheKey := "systemConfig"%string in
  match freshData w cacheKey now with
  | Some d => (d, w)
  | None =>
      match values_get {| spreadsheetId := targetSpreadsheetId;
                          range := RANGE_SYSTEM_CONFIG config |} w with
      | (Reject, w') => (settingsFallback, w')
      | (Resolve values, w') =>
          match buildSettings (valuesOrEmpty values) with
          | Some settings =>
              (DSettings settings,
               setCache w' cacheKey {| data := DSettings settings; timestamp := now |})
          | None => (settingsFallback, w')
          end
      end
  end.

(** [row[i] ? row[i].trim() : dflt]. *)
Definition trimmedCell (row : Row) (i : nat) (dflt : jsstring) : jsstring :=
  match cell row i with
  | PStr (c :: s) => trim (c :: s)
  | _ => dflt
  end.

Definition userOfRow `{Engine} (row : Row) (index : nat) : Obj :=
  [ ("rowIndex", PNum (Z.of_nat index + 1));
    ("username", PStr (trimmedCell row 0 []));
    ("passwordHash", PStr (trimmedCell row 1 []));
    ("displayName", PStr (trimmedCell row 2 []));
    ("role", PStr (match cell row 3 with
                   | PStr (c :: s) => toLowerCase (trim (c :: s))
                   | _ => js "sales"
                   end)) ].

(** [getUsers()], called at time [now]. *)
Definition getUsers `{Engine} `{Reader} (now : Z) (w : World) : Data * World :=
  let cacheKey := "users"%string in
  let rng := "使用者名冊!A:D"%string in
  let targetSheetId := default targetSpreadsheetId (IDS_AUTH config) in
  match freshData w cacheKey now with
  | Some d => (d, w)
  | None =>
      match values_get {| spreadsheetId := targetSheetId; range := rng |} w with
      | (Reject, w') => (DRows [], w')
      | (Resolve values, w') =>
          let rows := valuesOrEmpty values in
          let allUsers :=
            filter (fun user => truthy (pand (getField user "username")
                                             (getField user "passwordHash")) = true)
                   (imap (fun index row => userOfRow row index) rows) in
          (DRows allUsers,
           setCache w' cacheKey {| data := DRows allUsers; timestamp := now |})
      end
  end.

End SystemReader.

(* ===================================================================== *)
(** * data/weekly-business-reader.js *)
(* ===================================================================== *)

Module WeeklyBusinessReader.

(** [getWeeklySummary()]: reads the sheet on every call and keeps nothing. *)
Definition getWeeklySummary `{Reader} (w : World) : Data * World :=
  match values_get {| spreadsheetId := targetSpreadsheetId;
                      range := RANGE_WEEKLY_BUSINESS_SUMMARY config |} w with
  | (Reject, w') => (DRows [], w')
  | (Resolve values, w') =>
      let rows := valuesOrEmpty values in
      if (length rows <=? 1)%nat then (DRows [], w')
      else
        (DRows (map (fun row => [("weekId", cell row 0);
                                 ("summaryContent", cell row 4)])
                    (drop 1 rows)), w')
  end.

(** [invalidateCache()]: the override takes no key. *)
Definition invalidateCache (w : World) : World :=
  BaseReader.invalidateCache (Some "weeklyBusiness"%string) w.

End WeeklyBusinessReader.

(* ===================================================================== *)
(** * controllers/system.controller.js *)
(* ===================================================================== *)

Module SystemController.

(** [invalidateCache]: [this.systemReader.invalidateCache(null)]. *)
Definition invalidateCache (w : World) : World :=
  BaseReader.invalidateCache None w.

End SystemController.

(* ===================================================================== *)
(** * data/announcement-reader.js *)
(* ===================================================================== *)

Module AnnouncementReader.

Definition rowParser `{Reader} (row : Row) (index : nat) : Obj :=
  let F := ANNOUNCEMENT_FIELDS config in
  [ ("rowIndex", PNum (Z.of_nat index + 2));
    ("id", por (cell row (AF_ID F)) (PStr []));
    ("title", por (cell row (AF_TITLE F)) (PStr []));
    ("content", por (cell row (AF_CONTENT F)) (PStr []));
    ("creator", por (cell row (AF_CREATOR F)) (PStr []));
    ("createTime", por (cell row (AF_CREATE_TIME F)) (PStr []));
    ("lastUpdateTime", por (cell row (AF_LAST_UPDATE_TIME F)) (PStr []));
    ("status", por (cell row (AF_STATUS F)) (PStr []));
    ("isPinned", PBool (strictEq (cell row (AF_IS_PINNED F)) (PStr (js "TRUE")))) ].

Definition sorter `{Engine} (a b : Obj) : JsNum :=
  if truthy (getField a "isPinned") && negb (truthy (getField b "isPinned"))
  then Num (-1)
  else if negb (truthy (getField a "isPinned")) && truthy (getField b "isPinned")
  then Num 1
  else numSub (dateValue (getField b "lastUpdateTime"))
              (dateValue (getField a "lastUpdateTime")).

Definition getAnnouncements `{Engine} `{Reader} (now : Z) (w : World)
    : Data * World :=
  BaseReader._fetchAndCache "announcements" (RANGE_ANNOUNCEMENTS config)
    rowParser (Some sorter) now w.

End AnnouncementReader.

(* ===================================================================== *)
(** * data/contact-reader.js *)
(* ===================================================================== *)

Module ContactReader.

(** [_normalizeKey(str = '')]. *)
Definition _normalizeKey `{Engine} (str : Prim) : jsstring :=
  trim (toLowerCase (toStringOr [] str)).

(** The row parser of [getContacts]. *)
Definition rowParser `{Reader} (row : Row) (index : nat) : Obj :=
  let F := CONTACT_FIELDS config in
  let driveLink := por (cell row (CF_DRIVE_LINK F)) (PStr []) in
  [ ("rowIndex", PNum (Z.of_nat index + 2));
    ("createdTime", por (cell row (CF_TIME F)) (PStr []));
    ("name", por (cell row (CF_NAME F)) (PStr []));
    ("company", por (cell row (CF_COMPANY F)) (PStr []));
    ("position", por (cell row (CF_POSITION F)) (PStr []));
    ("department", por (cell row (CF_DEPARTMENT F)) (PStr []));
    ("phone", por (cell row (CF_PHONE F)) (PStr []));
    ("mobile", por (cell row (CF_MOBILE F)) (PStr []));
    ("email", por (cell row (CF_EMAIL F)) (PStr []));
    ("website", por (cell row (CF_WEBSITE F)) (PStr []));
    ("address", por (cell row (CF_ADDRESS F)) (PStr []));
    ("confidence", por (cell row (CF_CONFIDENCE F)) (PStr []));
    ("status", por (cell row (CF_STATUS F)) (PStr []));
    ("driveLink", driveLink);
    ("cardImage", driveLink);
    ("lineUserId", por (cell row (CF_LINE_USER_ID F)) (PStr []));
    ("userNickname", por (cell row (CF_USER_NICKNAME F)) (PStr [])) ].

(** The sorter of [getContacts]. *)
Definition sorter `{Engine} (a b : Obj) : JsNum :=
  let dateA := dateValue (getField a "createdTime") in
  let dateB := dateValue (getField b "createdTime") in
  if isNaN dateB then Num (-1)
  else if isNaN dateA then Num 1
  else numSub dateB dateA.

(** [getContacts(limit)]; [None] is the TypeError of [slice] on a cached
    value that is no array. *)
Definition getContacts `{Engine} `{Reader} (limit : Z) (now : Z) (w : World)
    : option (list Obj) * World :=
  let cacheKey := "contacts"%string in
  let '(allData, w') :=
    BaseReader._fetchAndCache cacheKey (RANGE_CONTACTS config)
      rowParser (Some sorter) now w in
  (match allData with
   | DRows rows => Some (slice0 rows limit)
   | _ => None
   end, w').

(** The row parser of [getContactList]. *)
Definition contactListParser (row : Row) (index : nat) : Obj :=
  [ ("contactId", por (cell row 0) (PStr []));
    ("sourceId", por (cell row 1) (PStr []));
    ("name", por (cell row 2) (PStr []));
    ("companyId", por (cell row 3) (PStr []));
    ("department", por (cell row 4) (PStr []));
    ("position", por (cell row 5) (PStr []));
    ("mobile", por (cell row 6) (PStr []));
    ("phone", por (cell row 7) (PStr []));
    ("email", por (cell row 8) (PStr []));
    ("createdTime", por (cell row 9) (PStr []));
    ("lastUpdateTime", por (cell row 10) (PStr []));
    ("creator", por (cell row 11) (PStr []));
    ("lastModifier", por (cell row 12) (PStr [])) ].

Definition getContactList `{Reader} (now : Z) (w : World) : Data * World :=
  BaseReader._fetchAndCache "contactList" (RANGE_CONTACT_LIST config)
    contactListParser None now w.

(** The row parser of [getAllOppContactLinks]. *)
Definition linkParser `{Reader} (row : Row) (index : nat) : Obj :=
  let F := OPP_CONTACT_LINK_FIELDS config in
  [ ("linkId", por (cell row (LF_LINK_ID F)) (PStr []));
    ("opportunityId", por (cell row (LF_OPPORTUNITY_ID F)) (PStr []));
    ("contactId", por (cell row (LF_CONTACT_ID F)) (PStr []));
    ("createTime", por (cell row (LF_CREATE_TIME F)) (PStr []));
    ("status", por (cell row (LF_STATUS F)) (PStr []));
    ("creator", por (cell row (LF_CREATOR F)) (PStr [])) ].

Definition getAllOppContactLinks `{Reader} (now : Z) (w : World) : Data * World :=
  BaseReader._fetchAndCache "oppContactLinks"
    (RANGE_OPPORTUNITY_CONTACT_LINK config) linkParser None now w.

(** [new Map(allCompanies.map(c => [c.companyId, c.companyName]))], the
    expression both [getLinkedContacts] and [searchContactList] build. *)
Definition companyNameMap (allCompanies : list Obj) : gmap Prim Prim :=
  newMap (map (fun c => (getField c "companyId", getField c "companyName"))
              allCompanies).

(** [name + '|' + company], both normalised. *)
Definition cardKey `{Engine} (name company : Prim) : jsstring :=
  _normalizeKey name ++ [cu_bar] ++ _normalizeKey company.

(** [pc.name && pc.company && pc.driveLink]. *)
Definition hasCard (pc : Obj) : bool :=
  truthy (pand (pand (getField pc "name") (getField pc "company"))
               (getField pc "driveLink")).

(** The [forEach] that fills [potentialCardMap]. *)
Definition addCard `{Engine} (m : gmap jsstring Prim) (pc : Obj)
    : gmap jsstring Prim :=
  if hasCard pc
  then
    let key := cardKey (getField pc "name") (getField pc "company") in
    match m !! key with
    | Some _ => m
    | None => <[key := getField pc "driveLink"]> m
    end
  else m.

Definition potentialCardMap `{Engine} (allPotentialContacts : list Obj)
    : gmap jsstring Prim :=
  foldl addCard ∅ allPotentialContacts.

(** The loop that fills [linkedContactIds]. *)
Definition linkedContactIds (opportunityId : Prim) (allLinks : list Obj)
    : gset Prim :=
  foldl (fun ids link =>
           if strictEq (getField link "opportunityId") opportunityId
              && strictEq (getField link "status") (PStr (js "active"))
           then {[ getField link "contactId" ]} ∪ ids
           else ids)
        ∅ allLinks.

(** The callback of the final [map]. *)
Definition enrich `{Engine} (companies : gmap Prim Prim)
    (cards : gmap jsstring Prim) (contact : Obj) : Obj :=
  let companyName := por (mapGet companies (getField contact "companyId")) (PStr []) in
  let driveLink :=
    if truthy (pand (getField contact "name") companyName)
    then por (mapGet cards (cardKey (getField contact "name") companyName)) (PStr [])
    else PStr [] in
  [ ("contactId", getField contact "contactId");
    ("sourceId", getField contact "sourceId");
    ("name", getField contact "name");
    ("companyId", getField contact "companyId");
    ("department", getField contact "department");
    ("position", getField contact "position");
    ("mobile", getField contact "mobile");
    ("phone", getField contact "phone");
    ("email", getField contact "email");
    ("companyName", companyName);
    ("driveLink", driveLink) ].

(** [getLinkedContacts(opportunityId)] behind its [await]: the four lists
    are what the reads of the [Promise.all] resolved to (the company list
    comes through data/company-reader.js, which is not among the
    sources). *)
Definition getLinkedContacts `{Engine} (opportunityId : Prim)
    (allLinks allContacts allCompanies allPotentialContacts : list Obj)
    : list Obj :=
  let ids := linkedContactIds opportunityId allLinks in
  if bool_decide (size ids = 0%nat) then []
  else
    let companies := companyNameMap allCompanies in
    let cards := potentialCardMap allPotentialContacts in
    map (enrich companies cards)
        (filter (fun contact => getField contact "contactId" ∈ ids) allContacts).

(** [searchContactList]: the joined [contacts] array, before the keyword
    filter and the paging. *)
Definition searchContactList_joined (allContacts allCompanies : list Obj)
    : list Obj :=
  let companies := companyNameMap allCompanies in
  map (fun contact =>
         setField contact "companyName"
           (por (mapGet companies (getField contact "companyId"))
                (getField contact "companyId")))
      allContacts.

End ContactReader.

(* ===================================================================== *)
(** * services/company-service.js *)
(* ===================================================================== *)

Module CompanyService.

(** The alternatives of [/股份有限公司|有限公司|公司/], tried in this order. *)
Definition suffixTokens : list jsstring :=
  [ [cu_gu; cu_fen; cu_you; cu_xian; cu_gong; cu_si];
    [cu_you; cu_xian; cu_gong; cu_si];
    [cu_gong; cu_si] ].

Definition matchSuffixToken (s : jsstring) : option nat :=
  length <$> List.find (fun tok => startsWith tok s) suffixTokens.

(** [/\(.*\)/]: behind the opening parenthesis the greedy [.*] runs to the
    end of the line and backs up to the last closing parenthesis on it.
    [closeLen t] is the number of units of [t] up to and including that
    parenthesis. *)
Fixpoint closeLen (t : jsstring) : option nat :=
  match t with
  | [] => None
  | c :: r =>
      if isLineTerminator c then None
      else match closeLen r with
           | Some k => Some (S k)
           | None => if (c =? cu_rparen)%N then Some 1%nat else None
           end
  end.

Definition matchParenthetical (s : jsstring) : option nat :=
  match s with
  | c :: t => if (c =? cu_lparen)%N then S <$> closeLen t else None
  | [] => None
  end.

(** [_normalizeCompanyName(name)]. *)
Definition _normalizeCompanyName `{Engine} (name : jsstring) : jsstring :=
  match name with
  | [] => []
  | _ =>
      trim
        (removeMatches matchParenthetical 0
           (removeMatches matchSuffixToken 0
              (trim (toLowerCase name))))
  end.

(** Step 1 of [getCompanyListWithActivity]. A method call on a value
    that is no string throws; [None] is that exception. *)
Record Filters := { q : Prim; type : Prim; stage : Prim; rating : Prim }.

(** [(x || '')] as the receiver of a string method. *)
Definition textOf (x : Prim) : option jsstring :=
  match por x (PStr []) with
  | PStr s => Some s
  | _ => None
  end.

(** [a || b] where evaluating either side may throw. *)
Definition orThrowing (a b : option bool) : option bool :=
  match a with
  | Some true => Some true
  | Some false => b
  | None => None
  end.

Definition matchesText `{Engine} (needle : jsstring) (c : Obj) : option bool :=
  orThrowing ((fun s => includes (toLowerCase s) needle) <$> textOf (getField c "companyName"))
    (orThrowing ((fun s => includes s needle) <$> textOf (getField c "phone"))
       (orThrowing ((fun s => includes (toLowerCase s) needle) <$> textOf (getField c "address"))
          (orThrowing ((fun s => includes (toLowerCase s) needle) <$> textOf (getField c "county"))
             ((fun s => includes (toLowerCase s) needle) <$> textOf (getField c "introduction"))))).

Fixpoint filterThrowing {A} (f : A -> option bool) (l : list A) : option (list A) :=
  match l with
  | [] => Some []
  | x :: t =>
      match f x with
      | None => None
      | Some keep =>
          (fun t' => if keep then x :: t' else t') <$> filterThrowing f t
      end
  end.

(** One of the three drop-down filters. *)
Definition selectBy (field : string) (v : Prim) (companies : list Obj) : list Obj :=
  if truthy v && negb (strictEq v (PStr (js "all")))
  then filter (fun c => getField c field = v) companies
  else companies.

Definition memoryFilter `{Engine} (filters : Filters) (companiesRaw : list Obj)
    : option (list Obj) :=
  let searched :=
    if truthy (q filters) then
      match q filters with
      | PStr s => filterThrowing (matchesText (trim (toLowerCase s))) companiesRaw
      | _ => None
      end
    else Some companiesRaw in
  (fun companies =>
     selectBy "engagementRating" (rating filters)
       (selectBy "customerStage" (stage filters)
          (selectBy "companyType" (type filters) companies))) <$> searched.

(** [updateActivity(companyId, dateStr)] on [lastActivityMap]. *)
Definition updateActivity `{Engine} (lastActivityMap : gmap Prim Z)
    (companyId dateStr : Prim) : gmap Prim Z :=
  if negb (truthy companyId) || negb (truthy dateStr) then lastActivityMap
  else
    match dateValue dateStr with
    | NaN => lastActivityMap
    | Num ts =>
        let current := default 0 (lastActivityMap !! companyId) in
        if current <? ts then <[companyId := ts]> lastActivityMap
        else lastActivityMap
    end.

(** The two [forEach] loops of step 2. *)
Definition activityMap `{Engine} (interactions eventLogs : list Obj)
    : gmap Prim Z :=
  let afterInteractions :=
    foldl (fun m item =>
             updateActivity m (getField item "companyId")
               (por (getField item "interactionTime") (getField item "date")))
          ∅ interactions in
  foldl (fun m item =>
           updateActivity m (getField item "companyId")
             (getField item "createdTime"))
        afterInteractions eventLogs.

(** [lastTs] in the callback of step 3, behind the fallback; [None] is
    [undefined]. *)
Definition lastTsOf `{Engine} (lastActivityMap : gmap Prim Z) (comp : Obj)
    : option Z :=
  let lastTs := lastActivityMap !! getField comp "companyId" in
  let falsy := match lastTs with Some t => t =? 0 | None => true end in
  if falsy && truthy (getField comp "createdTime") then
    match dateValue (getField comp "createdTime") with
    | Num createdTs => Some createdTs
    | NaN => lastTs
    end
  else lastTs.

(** [lastTs ? new Date(lastTs).toISOString() : null]. *)
Definition lastActivityOf `{Engine} (lastTs : option Z) : Prim :=
  match lastTs with
  | Some t => if t =? 0 then PNull else PStr (toISOString t)
  | None => PNull
  end.

(** [{ ...comp, lastActivity, _sortTs }]. *)
Definition withActivity `{Engine} (lastActivityMap : gmap Prim Z) (comp : Obj)
    : Obj :=
  let lastTs := lastTsOf lastActivityMap comp in
  setField (setField comp "lastActivity" (lastActivityOf lastTs))
           "_sortTs" (PNum (default 0 lastTs)).

(** [b._sortTs - a._sortTs]; [_sortTs] is always a number. *)
Definition bySortTsDesc (a b : Obj) : JsNum :=
  match getField b "_sortTs", getField a "_sortTs" with
  | PNum x, PNum y => Num (x - y)
  | _, _ => NaN
  end.

(** [({ _sortTs, ...rest }) => rest]. *)
Definition dropSortTs (o : Obj) : Obj :=
  filter (fun kv => fst kv <> "_sortTs"%string) o.

(** The [(companyId, dateStr)] pairs the two loops hand to
    [updateActivity], in call order. *)
Definition activityEvents (interactions eventLogs : list Obj)
    : list (Prim * Prim) :=
  map (fun item => (getField item "companyId",
                    por (getField item "interactionTime") (getField item "date")))
      interactions
  ++ map (fun item => (getField item "companyId", getField item "createdTime"))
         eventLogs.

(** [filters = {}], the default argument. *)
Definition noFilters : Filters :=
  {| q := PUndefined; type := PUndefined; stage := PUndefined;
     rating := PUndefined |}.

(** [getCompanyListWithActivity(filters)] behind its reads: [companiesRaw],
    [interactions] and [eventLogs] are what the three readers returned. An
    exception in step 1 lands in the [catch], which returns the raw list. *)
Definition getCompanyListWithActivity `{Engine} (filters : Filters)
    (companiesRaw interactions eventLogs : list Obj) : list Obj :=
  match memoryFilter filters companiesRaw with
  | None => companiesRaw
  | Some companies =>
      let lastActivityMap := activityMap interactions eventLogs in
      let result := map (withActivity lastActivityMap) companies in
      map dropSortTs (sortBy bySortTsDesc result)
  end.

End CompanyService.

(* ===================================================================== *)
(** * More built-ins *)
(* ===================================================================== *)

(** The relative index [slice] computes from an integer argument: a
    negative one counts from the back, and both ends are clamped. *)
Definition relIndex (len : nat) (k : Z) : nat :=
  if k <? 0 then Z.to_nat (Z.max (Z.of_nat len + k) 0)
  else Z.to_nat (Z.min k (Z.of_nat len)).

(** [arr.slice(start, end)] for integer arguments. *)
Definition slice {A} (l : list A) (s e : Z) : list A :=
  let from := relIndex (length l) s in
  let to := relIndex (length l) e in
  take (to - from) (drop from l).

(** The value of [Math.ceil(n / d)] for an array length [n] and an integer
    [d]: dividing by zero gives NaN or Infinity. *)
Inductive Quot :=
| QNaN
| QInfinity
| QNum (n : Z).

Definition ceilDiv (n : nat) (d : Z) : Quot :=
  if d =? 0 then (if (n =? 0)%nat then QNaN else QInfinity)
  else QNum (- ((- Z.of_nat n) / d)).

(** [s.split(',')]: the pieces between the commas, at least one. *)
Fixpoint splitComma (s : jsstring) : list jsstring :=
  match s with
  | [] => [[]]
  | c :: t =>
      if (c =? 44)%N then [] :: splitComma t
      else match splitComma t with
           | piece :: rest => (c :: piece) :: rest
           | [] => [[c]]
           end
  end.

(** [x && x.toLowerCase().includes(term)] as a condition: a falsy [x] is
    no match, and [None] is the TypeError of the method call on a truthy
    value that is no string. *)
Definition lowerIncludes `{Engine} (x : Prim) (term : jsstring) : option bool :=
  if truthy x then
    match x with
    | PStr s => Some (includes (toLowerCase s) term)
    | _ => None
    end
  else Some false.

(** [query.toLowerCase()] for a truthy [query]. *)
Definition lowerOf `{Engine} (query : Prim) : option jsstring :=
  match query with
  | PStr s => Some (toLowerCase s)
  | _ => None
  end.

(** The object a paged search returns. *)
Module Paging.

Record Pagination := {
  current : Z;
  total : Quot;
  totalItems : nat;
  hasNext : bool;
  hasPrev : bool
}.

Record Paged := { data : list Obj; pagination : Pagination }.

(** The paging block that closes [searchContactList] and
    [searchAllInteractions], the same text in both. *)
Definition paginate (items : list Obj) (pageSize page : Z) : Paged :=
  let startIndex := (page - 1) * pageSize in
  let paginated := slice items startIndex (startIndex + pageSize) in
  {| data := paginated;
     pagination :=
       {| current := page;
          total := ceilDiv (length items) pageSize;
          totalItems := length items;
          hasNext := startIndex + pageSize <? Z.of_nat (length items);
          hasPrev := 1 <? page |} |}.

End Paging.

(* ===================================================================== *)
(** * data/interaction-reader.js *)
(* ===================================================================== *)

Module InteractionReader.

Definition rowParser (row : Row) (index : nat) : Obj :=
  [ ("rowIndex", PNum (Z.of_nat index + 2));
    ("interactionId", por (cell row 0) (PStr []));
    ("opportunityId", por (cell row 1) (PStr []));
    ("interactionTime", por (cell row 2) (PStr []));
    ("eventType", por (cell row 3) (PStr []));
    ("eventTitle", por (cell row 4) (PStr []));
    ("contentSummary", por (cell row 5) (PStr []));
    ("participants", por (cell row 6) (PStr []));
    ("nextAction", por (cell row 7) (PStr []));
    ("attachmentLink", por (cell row 8) (PStr []));
    ("calendarEventId", por (cell row 9) (PStr []));
    ("recorder", por (cell row 10) (PStr []));
    ("createdTime", por (cell row 11) (PStr []));
    ("companyId", por (cell row 12) (PStr [])) ].

Definition sorter `{Engine} (a b : Obj) : JsNum :=
  let dateA := dateValue (getField a "interactionTime") in
  let dateB := dateValue (getField b "interactionTime") in
  if isNaN dateB then Num (-1)
  else if isNaN dateA then Num 1
  else numSub dateB dateA.

(** [getInteractions()]; the range is a parameter, as the sheet names of
    [config] are. *)
Definition getInteractions `{Engine} `{Reader} (rng : string) (now : Z) (w : World)
    : Data * World :=
  BaseReader._fetchAndCache "interactions" rng rowParser (Some sorter) now w.

(** [getRecentInteractions({ limit = 10 })] behind its read. *)
Definition getRecentInteractions (allInteractions : list Obj) (limit : option Z)
    : list Obj :=
  slice0 allInteractions (default 10 limit).

Definition unspecified : jsstring := [26410; 25351; 23450]%N.
Definition unknownOpportunity : jsstring := [26410; 30693; 27231; 26371]%N.
Definition unknownCompany : jsstring := [26410; 30693; 20844; 21496]%N.

(** The callback of the first [map] of [searchAllInteractions]. *)
Definition withContextName (opportunityNameMap companyNameMap : gmap Prim Prim)
    (interaction : Obj) : Obj :=
  let opportunityId := getField interaction "opportunityId" in
  let companyId := getField interaction "companyId" in
  let contextName :=
    if truthy opportunityId && bool_decide (is_Some (opportunityNameMap !! opportunityId))
    then mapGet opportunityNameMap opportunityId
    else if truthy companyId && bool_decide (is_Some (companyNameMap !! companyId))
    then mapGet companyNameMap companyId
    else if truthy opportunityId then PStr unknownOpportunity
    else if truthy companyId then PStr unknownCompany
    else PStr unspecified in
  setField interaction "opportunityName" contextName.

(** The keyword test of [searchAllInteractions]. *)
Definition matchesKeyword `{Engine} (searchTerm : jsstring) (i : Obj) : option bool :=
  CompanyService.orThrowing (lowerIncludes (getField i "contentSummary") searchTerm)
    (CompanyService.orThrowing (lowerIncludes (getField i "eventTitle") searchTerm)
       (CompanyService.orThrowing (lowerIncludes (getField i "opportunityName") searchTerm)
          (lowerIncludes (getField i "recorder") searchTerm))).

(** [searchAllInteractions(query, page, fetchAll)] behind its reads; [None]
    is an exception. [pageSize] is [config.PAGINATION.INTERACTIONS_PER_PAGE]. *)
Definition searchAllInteractions `{Engine} (pageSize : Z)
    (allInteractions allOpportunities allCompanies : list Obj)
    (query : Prim) (page : Z) (fetchAll : bool) : option Paging.Paged :=
  let opportunityNameMap :=
    newMap (map (fun opp => (getField opp "opportunityId",
                             getField opp "opportunityName")) allOpportunities) in
  let companyNameMap :=
    newMap (map (fun comp => (getField comp "companyId",
                              getField comp "companyName")) allCompanies) in
  let joined := map (withContextName opportunityNameMap companyNameMap)
                    allInteractions in
  let filtered :=
    if truthy query then
      match lowerOf query with
      | Some searchTerm =>
          CompanyService.filterThrowing (matchesKeyword searchTerm) joined
      | None => None
      end
    else Some joined in
  (fun interactions =>
     if fetchAll then
       {| Paging.data := interactions;
          Paging.pagination :=
            {| Paging.current := 1;
               Paging.total := QNum 1;
               Paging.totalItems := length interactions;
               Paging.hasNext := false;
               Paging.hasPrev := false |} |}
     else Paging.paginate interactions pageSize page) <$> filtered.

End InteractionReader.

(* ===================================================================== *)
(** * data/contact-reader.js: the searches *)
(* ===================================================================== *)

Module ContactSearch.

(** The keyword test of [searchContacts]. *)
Definition matchesContact `{Engine} (searchTerm : jsstring) (c : Obj) : option bool :=
  CompanyService.orThrowing (lowerIncludes (getField c "name") searchTerm)
    (lowerIncludes (getField c "company") searchTerm).

(** [searchContacts(query)] behind its read: [contacts] is what
    [getContacts()] returned; the result is the [data] array. *)
Definition searchContacts `{Engine} (contacts : list Obj) (query : Prim)
    : option (list Obj) :=
  let named :=
    filter (fun contact =>
              truthy (por (getField contact "name") (getField contact "company")) = true)
           contacts in
  if truthy query then
    match lowerOf query with
    | Some searchTerm => CompanyService.filterThrowing (matchesContact searchTerm) named
    | None => None
    end
  else Some named.

(** The keyword test of [searchContactList]. *)
Definition matchesListed `{Engine} (searchTerm : jsstring) (c : Obj) : option bool :=
  CompanyService.orThrowing (lowerIncludes (getField c "name") searchTerm)
    (lowerIncludes (getField c "companyName") searchTerm).

(** [searchContactList(query, page)] behind its reads. [pageSize] is
    [config.PAGINATION.CONTACTS_PER_PAGE]. *)
Definition searchContactList `{Engine} (pageSize : Z)
    (allContacts allCompanies : list Obj) (query : Prim) (page : Z)
    : option Paging.Paged :=
  let contacts := ContactReader.searchContactList_joined allContacts allCompanies in
  let filtered :=
    if truthy query then
      match lowerOf query with
      | Some searchTerm => CompanyService.filterThrowing (matchesListed searchTerm) contacts
      | None => None
      end
    else Some contacts in
  (fun contacts => Paging.paginate contacts pageSize page) <$> filtered.

End ContactSearch.

(* ===================================================================== *)
(** * services/contact-service.js *)
(* ===================================================================== *)

Module ContactService.

Record Stats := { total : nat; pending : nat; processed : nat; dropped : nat }.

(** [getDashboardStats()] behind its read: [contacts] is what
    [getContacts(3000)] returned, [None] when it threw. *)
Definition getDashboardStats (contacts : option (list Obj)) : Stats :=
  match contacts with
  | Some contacts =>
      {| total := length contacts;
         pending :=
           length (filter (fun c =>
                     negb (truthy (getField c "status"))
                     || strictEq (getField c "status") (PStr (js "Pending")) = true)
                   contacts);
         processed :=
           length (filter (fun c => getField c "status" = PStr (js "Processed")) contacts);
         dropped :=
           length (filter (fun c => getField c "status" = PStr (js "Dropped")) contacts) |}
  | None => {| total := 0; pending := 0; processed := 0; dropped := 0 |}
  end.

(** [getPotentialContacts(limit)] behind its read: [contacts] is what
    [getContacts(limit)] returned. *)
Definition getPotentialContacts (contacts : list Obj) : list Obj :=
  filter (fun c => truthy (por (getField c "name") (getField c "company")) = true)
         contacts.

(** [getContactById(contactId)] behind the reads of [searchContactList];
    [None] is [null]. *)
Definition getContactById `{Engine} (pageSize : Z)
    (allContacts allCompanies : list Obj) (contactId : Prim) : option Obj :=
  match ContactSearch.searchContactList pageSize allContacts allCompanies contactId 1 with
  | Some result =>
      List.find (fun c => strictEq (getField c "contactId") contactId)
                (Paging.data result)
  | None => None
  end.

End ContactService.

(* ===================================================================== *)
(** * services/interaction-service.js *)
(* ===================================================================== *)

Module InteractionService.

(** [getInteractionsByOpportunity(opportunityId)] behind the reads of
    [searchAllInteractions]. *)
Definition getInteractionsByOpportunity `{Engine} (pageSize : Z)
    (allInteractions allOpportunities allCompanies : list Obj)
    (opportunityId : Prim) : list Obj :=
  match InteractionReader.searchAllInteractions pageSize allInteractions
          allOpportunities allCompanies (PStr []) 1 true with
  | Some result =>
      filter (fun log => getField log "opportunityId" = opportunityId)
             (Paging.data result)
  | None => []
  end.

(** [getInteractionsByCompany(companyId)], likewise. *)
Definition getInteractionsByCompany `{Engine} (pageSize : Z)
    (allInteractions allOpportunities allCompanies : list Obj)
    (companyId : Prim) : list Obj :=
  match InteractionReader.searchAllInteractions pageSize allInteractions
          allOpportunities allCompanies (PStr []) 1 true with
  | Some result =>
      filter (fun log => getField log "companyId" = companyId)
             (Paging.data result)
  | None => []
  end.

End InteractionService.

(* ===================================================================== *)
(** * services/announcement-service.js *)
(* ===================================================================== *)

Module AnnouncementService.

Definition published : jsstring := [24050; 30332; 24067]%N.

(** [getAnnouncements()] behind its read: [data] is what the reader
    returned. *)
Definition getAnnouncements (data : list Obj) : list Obj :=
  filter (fun item => getField item "status" = PStr published) data.

(** The row index [updateAnnouncement] and [deleteAnnouncement] hand to the
    writer; [None] is the "not found" error. *)
Definition targetRowIndex (allAnnouncements : list Obj) (id : Prim) : option Prim :=
  (fun target => getField target "rowIndex")
    <$> List.find (fun a => strictEq (getField a "id") id) allAnnouncements.

End AnnouncementService.

(* ===================================================================== *)
(** * data/system-writer.js: the user rows *)
(* ===================================================================== *)

Module SystemWriter.

(** The cell [updateUserPassword] writes: the range is
    [sheetName!B<row>] of [spreadsheet]. *)
Record CellUpdate := {
  cu_spreadsheetId : string;
  cu_sheetName : string;
  cu_column : string;
  cu_row : Prim;
  cu_values : list (list Prim)
}.

(** The [deleteDimension] request of [deleteUser]. *)
Record RowDeletion := {
  rd_spreadsheetId : string;
  rd_sheetId : Prim;
  rd_startIndex : JsNum;
  rd_endIndex : Prim
}.

Section Writer.
Context `{Reader}.
(** [this.targetSpreadsheetId] of the writer, and [Number(s)] on strings. *)
Variable writerSpreadsheetId : string.
Variable StringToNumber : jsstring -> JsNum.

Definition _getAuthTargetId : string :=
  match IDS_AUTH config with
  | Some auth =>
      if bool_decide (auth <> writerSpreadsheetId) then auth
      else writerSpreadsheetId
  | None => writerSpreadsheetId
  end.

(** [updateUserPassword(username, newPasswordHash)] up to its write:
    [users] is what [getUsers()] returned, [None] is the "user not found"
    error. *)
Definition updateUserPassword (users : list Obj) (username newPasswordHash : Prim)
    : option CellUpdate :=
  let targetId := _getAuthTargetId in
  let sheetName := "使用者名冊"%string in
  match list_find (fun u => getField u "username" = username) users with
  | None => None
  | Some (userIndex, _) =>
      let targetRowIndex :=
        match users !! userIndex with
        | Some user => getField user "rowIndex"
        | None => PUndefined
        end in
      Some {| cu_spreadsheetId := targetId;
              cu_sheetName := sheetName;
              cu_column := "B";
              cu_row := targetRowIndex;
              cu_values := [[newPasswordHash]] |}
  end.

(** [x - 1]. *)
Definition minusOne (x : Prim) : JsNum :=
  match x with
  | PNum n => Num (n - 1)
  | PBool true => Num 0
  | PBool false | PNull => Num (-1)
  | PUndefined => NaN
  | PStr s => match StringToNumber s with Num n => Num (n - 1) | NaN => NaN end
  end.

(** [deleteUser(username)] up to its [batchUpdate]: [sheetId] is what
    [_getSheetIdByValues] returned. *)
Definition deleteUser (users : list Obj) (sheetId : Prim) (username : Prim)
    : option RowDeletion :=
  let targetId := _getAuthTargetId in
  match List.find (fun u => strictEq (getField u "username") username) users with
  | None => None
  | Some user =>
      let spreadsheetIdToUse :=
        if bool_decide (targetId <> writerSpreadsheetId) then targetId
        else writerSpreadsheetId in
      Some {| rd_spreadsheetId := spreadsheetIdToUse;
              rd_sheetId := sheetId;
              rd_startIndex := minusOne (getField user "rowIndex");
              rd_endIndex := getField user "rowIndex" |}
  end.

End Writer.

End SystemWriter.

(* ===================================================================== *)
(** * services/company-service.js: the look-ups by name *)
(* ===================================================================== *)

Module CompanyLookup.

(** [_normalizeCompanyName(name)] on any value: a falsy one gives the
    empty string, and [None] is the TypeError of [toLowerCase] on a truthy
    value that is no string. *)
Definition normalizeName `{Engine} (name : Prim) : option jsstring :=
  if truthy name then
    match name with
    | PStr s => Some (CompanyService._normalizeCompanyName s)
    | _ => None
    end
  else Some [].

(** [arr.find(f)] where [f] may throw: the outer [None] is the exception,
    the inner one is [undefined]. *)
Fixpoint findThrowing {A} (f : A -> option bool) (l : list A) : option (option A) :=
  match l with
  | [] => Some None
  | x :: t =>
      match f x with
      | None => None
      | Some true => Some (Some x)
      | Some false => findThrowing f t
      end
  end.

(** [this._normalizeCompanyName(x) === normalizedTarget]. *)
Definition sameName `{Engine} (normalizedTarget : jsstring) (x : Prim) : option bool :=
  (fun n => bool_decide (n = normalizedTarget)) <$> normalizeName x.

(** How [_findCompanyRowIndex] ends. *)
Inductive Lookup :=
| RowIndex (rowIndex : Prim)
| NotFound
| RowIndexMissing
| Thrown.

(** [_findCompanyRowIndex(companyName)] behind its read. *)
Definition _findCompanyRowIndex `{Engine} (companies : list Obj) (companyName : Prim)
    : Lookup :=
  match normalizeName companyName with
  | None => Thrown
  | Some normalizedTarget =>
      match findThrowing
              (fun c =>
                 if strictEq (getField c "companyName") companyName then Some true
                 else sameName normalizedTarget (getField c "companyName"))
              companies with
      | None => Thrown
      | Some None => NotFound
      | Some (Some target) =>
          if truthy (getField target "rowIndex")
          then RowIndex (getField target "rowIndex")
          else RowIndexMissing
      end
  end.

(** What [getCompanyDetails] returns; [companyInfo] is [None] for [null]. *)
Record Details := {
  companyInfo : option Obj;
  relatedContacts : list Obj;
  relatedOpportunities : list Obj;
  interactions : list Obj;
  eventLogs : list Obj
}.

(** [new Date(b[field] || 0) - new Date(a[field] || 0)]. *)
Definition byDateDesc `{Engine} (field : string) (a b : Obj) : JsNum :=
  numSub (dateValue (por (getField b field) (PNum 0)))
         (dateValue (por (getField a field) (PNum 0))).

(** The test of the two last filters of [getCompanyDetails]. *)
Definition belongsTo (companyId : Prim) (relatedOppIds : gset Prim) (x : Obj) : Prop :=
  getField x "companyId" = companyId
  \/ (truthy (getField x "opportunityId") = true
      /\ getField x "opportunityId" ∈ relatedOppIds).

#[global] Instance belongsTo_dec companyId relatedOppIds x :
  Decision (belongsTo companyId relatedOppIds x).
Proof. unfold belongsTo. apply _. Defined.

(** [getCompanyDetails(companyName)] behind its reads; [None] is an
    exception, which the [catch] throws again. *)
Definition getCompanyDetails `{Engine}
    (allCompanies allContacts allOpportunities allInteractions allEventLogs : list Obj)
    (companyName : Prim) : option Details :=
  match normalizeName companyName with
  | None => None
  | Some normalizedTarget =>
      match findThrowing
              (fun c => sameName normalizedTarget (getField c "companyName"))
              allCompanies with
      | None => None
      | Some None =>
          Some {| companyInfo := None; relatedContacts := [];
                  relatedOpportunities := []; interactions := [];
                  eventLogs := [] |}
      | Some (Some info) =>
          let companyId := getField info "companyId" in
          let contacts :=
            filter (fun c => getField c "companyId" = companyId) allContacts in
          match CompanyService.filterThrowing
                  (fun o => sameName normalizedTarget (getField o "customerCompany"))
                  allOpportunities with
          | None => None
          | Some opportunities =>
              let relatedOppIds : gset Prim :=
                list_to_set (map (fun o => getField o "opportunityId") opportunities) in
              Some {| companyInfo := Some info;
                      relatedContacts := contacts;
                      relatedOpportunities := opportunities;
                      interactions :=
                        sortBy (byDateDesc "interactionTime")
                          (filter (belongsTo companyId relatedOppIds) allInteractions);
                      eventLogs :=
                        sortBy (byDateDesc "createdTime")
                          (filter (belongsTo companyId relatedOppIds) allEventLogs) |}
          end
      end
  end.

End CompanyLookup.

(* ===================================================================== *)
(** * data/contact-writer.js: the update of a potential contact *)
(* ===================================================================== *)

Module ContactWriter.

(** The [data] argument of [updatePotentialContact]; a field that is not
    given is [PUndefined]. *)
Record Update := {
  name : Prim; company : Prim; position : Prim;
  mobile : Prim; email : Prim; notes : Prim
}.

(** How [updatePotentialContact] ends: with one of its two errors, with
    the TypeError of reading the first row of an empty [values] array, or
    with the row handed to [values.update]. *)
Inductive Outcome :=
| InvalidRowIndex
| RowNotFound
| NoFirstRow
| Written (row : list Prim).

(** [while (currentRow.length <= maxIndex) currentRow.push('')]. *)
Definition padTo (maxIndex : nat) (currentRow : list Prim) : list Prim :=
  currentRow ++ replicate (S maxIndex - length currentRow) (PStr []).

(** [if (v !== undefined) currentRow[i] = v]. *)
Definition setCell (i : nat) (v : Prim) (currentRow : list Prim) : list Prim :=
  match v with
  | PUndefined => currentRow
  | _ => <[i := v]> currentRow
  end.

(** The block that appends to the notes cell. [NOTES] is
    [config.CONTACT_FIELDS.NOTES], [None] when the configuration does not
    define it; [today] is the text of [new Date().toLocaleDateString()]. *)
Definition appendNote (NOTES : option nat) (today : jsstring) (modifier : Prim)
    (data : Update) (currentRow : list Prim) : list Prim :=
  match NOTES with
  | Some n =>
      match notes data with
      | PUndefined => currentRow
      | _ =>
          let padded := padTo n currentRow in
          let oldNotes := por (default PUndefined (padded !! n)) (PStr []) in
          let newNoteEntry :=
            js "[" ++ toStringOr (js "undefined") modifier ++ js " " ++ today
            ++ js "] " ++ toStringOr (js "undefined") (notes data) in
          <[n := if truthy oldNotes
                 then PStr (toStringOr (js "undefined") oldNotes ++ [10%N]
                            ++ newNoteEntry)
                 else PStr newNoteEntry]> padded
      end
  | None => currentRow
  end.

(** [updatePotentialContact(rowIndex, data, modifier)] for an integer
    [rowIndex], up to its write: [values] is [response.data.values] of the
    read of the row. *)
Definition updatePotentialContact `{Reader} (NOTES : option nat) (today : jsstring)
    (rowIndex : Z) (values : option (list Row)) (data : Update) (modifier : Prim)
    : Outcome :=
  if rowIndex <=? 1 then InvalidRowIndex
  else
    match values with
    | Some [] => NoFirstRow
    | None | Some ([] :: _) => RowNotFound
    | Some (first :: _) =>
        let currentRow := map PStr first in
        let F := CONTACT_FIELDS config in
        let maxIndex :=
          Nat.max (CF_NAME F)
            (Nat.max (CF_COMPANY F)
               (Nat.max (CF_POSITION F) (Nat.max (CF_MOBILE F) (CF_EMAIL F)))) in
        let currentRow := padTo maxIndex currentRow in
        let currentRow := setCell (CF_NAME F) (name data) currentRow in
        let currentRow := setCell (CF_COMPANY F) (company data) currentRow in
        let currentRow := setCell (CF_POSITION F) (position data) currentRow in
        let currentRow := setCell (CF_MOBILE F) (mobile data) currentRow in
        let currentRow := setCell (CF_EMAIL F) (email data) currentRow in
        Written (appendNote NOTES today modifier data currentRow)
    end.

End ContactWriter.

(* ===================================================================== *)
(** * services/weekly-business-service.js: the calendar keywords *)
(* ===================================================================== *)

Module WeeklyBusinessService.

Definition dxBlockKey : jsstring :=
  [68; 88; 95; 23631; 34109; 38364; 37749; 23383]%N.
Definition atTransferKey : jsstring :=
  [65; 84; 95; 36681; 31227; 38364; 37749; 23383]%N.

(** [(rule ? rule.note : '').split(',').map(s => s.trim()).filter(Boolean)]
    for the rule with the given [value]; [None] is the TypeError of
    [split] on a note that is no string. *)
Definition keywordsOf (rules : list Obj) (value : jsstring) : option (list jsstring) :=
  let note :=
    match List.find (fun r => strictEq (getField r "value") (PStr value)) rules with
    | Some rule => getField rule "note"
    | None => PStr []
    end in
  match note with
  | PStr s => Some (filter (fun kw => kw <> []) (map trim (splitComma s)))
  | _ => None
  end.

(** [keywords.some(kw => summary.includes(kw))] with
    [summary = evt.summary || '']; [None] is the TypeError of [includes]
    on a summary that is no string, which needs a keyword to be called. *)
Definition mentions (keywords : list jsstring) (evt : Obj) : option bool :=
  match keywords with
  | [] => Some false
  | _ =>
      match por (getField evt "summary") (PStr []) with
      | PStr summary => Some (existsb (includes summary) keywords)
      | _ => None
      end
  end.

(** Step 3 of [getWeeklyDetails]: [finalDxList] and [finalAtList] from the
    rules of the settings and the events of the two calendars. *)
Definition classifyEvents (rules rawDxEvents rawAtEvents : list Obj)
    : option (list Obj * list Obj) :=
  match keywordsOf rules dxBlockKey, keywordsOf rules atTransferKey with
  | Some dxBlockKeywords, Some atTransferKeywords =>
      match CompanyService.filterThrowing
              (fun evt => negb <$> mentions dxBlockKeywords evt) rawDxEvents,
            CompanyService.filterThrowing (mentions atTransferKeywords) rawAtEvents,
            CompanyService.filterThrowing
              (fun evt => negb <$> mentions atTransferKeywords evt) rawAtEvents with
      | Some kept, Some moved, Some stay => Some (kept ++ moved, stay)
      | _, _, _ => None
      end
  | _, _ => None
  end.

End WeeklyBusinessService.

(* ===================================================================== *)
(** * data/weekly-business-reader.js and data/weekly-business-writer.js:
      the entries *)
(* ===================================================================== *)

(** [s.split(sep)] for a separator of one unit: the pieces between the
    separators, at least one. *)
Fixpoint splitOn (sep : N) (s : jsstring) : list jsstring :=
  match s with
  | [] => [[]]
  | c :: t =>
      if (c =? sep)%N then [] :: splitOn sep t
      else match splitOn sep t with
           | piece :: rest => (c :: piece) :: rest
           | [] => [[c]]
           end
  end.

(** [\d]. *)
Definition isDigit (c : N) : bool := ((48 <=? c) && (c <=? 57))%N.

(** [Number(s)] for a string of decimal digits. *)
Definition digits (s : jsstring) : Z :=
  foldl (fun acc c => 10 * acc + Z.of_N (c - 48)) 0 s.

(** The day number of 1 January of year [y], and whether [y] is a leap
    year, as the language defines them. *)
Definition DayFromYear (y : Z) : Z :=
  365 * (y - 1970) + (y - 1969) / 4 - (y - 1901) / 100 + (y - 1601) / 400.

Definition InLeapYear (y : Z) : bool :=
  (y mod 4 =? 0) && (negb (y mod 100 =? 0) || (y mod 400 =? 0)).

(** The days of the year before month [mn], counted from 0. *)
Definition daysBeforeMonth (leap : bool) (mn : Z) : Z :=
  nth (Z.to_nat mn) [0; 31; 59; 90; 120; 151; 181; 212; 243; 273; 304; 334] 0
  + (if leap && (2 <=? mn) then 1 else 0).

(** [MakeDay(year, month, date)] for integers. *)
Definition MakeDay (year month date : Z) : Z :=
  let ym := year + month / 12 in
  let mn := month mod 12 in
  DayFromYear ym + daysBeforeMonth (InLeapYear ym) mn + date - 1.

(** [Date.UTC(year, month, date)] for integers: a year from 0 to 99 is
    taken in the twentieth century, and the result is clipped. *)
Definition Date_UTC (year month date : Z) : JsNum :=
  let yr := if (0 <=? year) && (year <=? 99) then 1900 + year else year in
  let tv := MakeDay yr month date * 86400000 in
  if Z.abs tv <=? 8640000000000000 then Num tv else NaN.

(** [getUTCDay()] of a time value. *)
Definition getUTCDay (t : Z) : Z := (t / 86400000 + 4) mod 7.

Module WeeklyEntries.

Definition key_date : string := "日期".
Definition key_theme : string := "主題".
Definition key_participants : string := "參與人員".
Definition key_summary : string := "重點摘要".
Definition key_todo : string := "待辦事項".
Definition key_creator : string := "建立者".

Definition fieldKeys : list string :=
  [ key_date; "weekId"; "category"; key_theme; key_participants;
    key_summary; key_todo; "createdTime"; "lastUpdateTime";
    key_creator; "recordId" ]%string.

(** [/^\d{4}-\d{2}-\d{2}$/.test(dateString)]. *)
Definition isDateText (dateString : jsstring) : bool :=
  match dateString with
  | [y1; y2; y3; y4; h1; m1; m2; h2; d1; d2] =>
      forallb isDigit [y1; y2; y3; y4; m1; m2; d1; d2]
      && (h1 =? 45)%N && (h2 =? 45)%N
  | _ => false
  end.

(** The value the row parser gives [entry.day]. *)
Definition dayOf (dateString : jsstring) : Z :=
  if isDateText dateString then
    match map digits (splitOn 45 dateString) with
    | year :: month :: day :: _ =>
        match Date_UTC year (month - 1) day with
        | Num t => getUTCDay t
        | NaN => -1
        end
    | _ => -1
    end
  else -1.

(** The row parser of [_getAllWeeklyBusinessEntriesWithCache]. *)
Definition rowParser (row : Row) (index : nat) : Obj :=
  let entry :=
    foldl (fun entry ik => setField entry (snd ik) (por (cell row (fst ik)) (PStr [])))
          [("rowIndex", PNum (Z.of_nat index + 2))]
          (imap (fun i key => (i, key)) fieldKeys) in
  let day :=
    match getField entry key_date with
    | PStr dateString => dayOf dateString
    | _ => -1
    end in
  setField entry "day" (PNum day).

Definition sorter `{Engine} (a b : Obj) : JsNum :=
  numSub (dateValue (getField b key_date)) (dateValue (getField a key_date)).

(** [findEntryByRecordId(recordId)] behind its read; [None] is [null]. *)
Definition findEntryByRecordId (allEntries : list Obj) (recordId : Prim)
    : option Obj :=
  if negb (truthy recordId) then None
  else List.find (fun e => strictEq (getField e "recordId") recordId) allEntries.

(** The [data] argument of [createEntry]. *)
Record EntryData := {
  date : Prim; weekId : Prim; category : Prim; theme : Prim;
  participants : Prim; summary : Prim; todo : Prim
}.

Definition general : jsstring := [19968; 33324]%N.

(** The record identifier and the row [createEntry] appends; [nowIso] is
    [new Date().toISOString()] and [nowMs] is [Date.now()]. *)
Definition createEntry (nowIso : jsstring) (nowMs : Z) (data : EntryData)
    (creator : Prim) : jsstring * list Prim :=
  let now := nowIso in
  let recordId := js "WK" ++ toStringOr [] (PNum nowMs) in
  (recordId,
   [ por (date data) (PStr (default [] (head (splitOn 84 now))));
     por (weekId data) (PStr []);
     por (category data) (PStr general);
     por (theme data) (PStr []);
     por (participants data) (PStr []);
     por (summary data) (PStr []);
     por (todo data) (PStr []);
     PStr now;
     PStr now;
     creator;
     PStr recordId ]).

End WeeklyEntries.

(* ===================================================================== *)
(** * controllers/external.controller.js: the file identifier *)
(* ===================================================================== *)

Module ExternalController.

(** [[a-zA-Z0-9_-]]. *)
Definition isIdChar (c : N) : bool :=
  (((97 <=? c) && (c <=? 122)) || ((65 <=? c) && (c <=? 90))
   || ((48 <=? c) && (c <=? 57)) || (c =? 95) || (c =? 45))%N.

(** The longest run of identifier characters at the head of [s]. *)
Fixpoint idRun (s : jsstring) : jsstring :=
  match s with
  | c :: t => if isIdChar c then c :: idRun t else []
  | [] => []
  end.

(** The capture of [link.match(/<marker>([a-zA-Z0-9_-]{25,})/)], for a
    marker of plain characters: the first place where the marker is
    followed by 25 identifier characters or more, all of which are
    taken. *)
Fixpoint matchId (marker : jsstring) (link : jsstring) : option jsstring :=
  match link with
  | [] => None
  | _ :: rest =>
      if startsWith marker link
         && (25 <=? length (idRun (drop (length marker) link)))%nat
      then Some (idRun (drop (length marker) link))
      else matchId marker rest
  end.

(** The identifier [getDriveThumbnail] asks the drive for, from the two
    query parameters; [None] is the answer 400. *)
Definition targetFileId (fileId link : Prim) : option Prim :=
  let targetFileId :=
    if negb (truthy fileId) && truthy link then
      match link with
      | PStr l =>
          match matchId (js "/d/") l with
          | Some id => PStr id
          | None =>
              match matchId (js "id=") l with
              | Some id => PStr id
              | None => fileId
              end
          end
      | _ => fileId
      end
    else fileId in
  if truthy targetFileId then Some targetFileId else None.

End ExternalController.

(* ===================================================================== *)
(** * data/weekly-business-writer.js: the update of an entry *)
(* ===================================================================== *)

Module WeeklyBusinessWriter.

(** [currentRow[i] = v]: past the end the array grows, and the places in
    between are holes, which read as [undefined]. *)
Definition assign (i : nat) (v : Prim) (currentRow : list Prim) : list Prim :=
  if decide (i < length currentRow)%nat then <[i := v]> currentRow
  else currentRow ++ replicate (i - length currentRow) PUndefined ++ [v].

(** [if (v !== undefined) currentRow[i] = v]. *)
Definition assignGiven (i : nat) (v : Prim) (currentRow : list Prim) : list Prim :=
  match v with
  | PUndefined => currentRow
  | _ => assign i v currentRow
  end.

(** How [updateEntry] ends: with one of its two errors, with the TypeError
    of reading the first row of an empty [values] array, or with the row
    number and the row handed to [values.update]. *)
Inductive Outcome :=
| EntryNotFound
| ReadFailed
| NoFirstRow
| Updated (rowIndex : Prim) (row : list Prim).

(** [updateEntry(recordId, data, modifier)] up to its write: [allEntries]
    is what the reader holds, [values] is [response.data.values] of the
    read of the row, [nowIso] is [new Date().toISOString()]. *)
Definition updateEntry (allEntries : list Obj) (values : option (list Row))
    (nowIso : jsstring) (recordId : Prim) (data : WeeklyEntries.EntryData)
    : Outcome :=
  match WeeklyEntries.findEntryByRecordId allEntries recordId with
  | None => EntryNotFound
  | Some entry =>
      let rowIndex := getField entry "rowIndex" in
      match values with
      | Some [] => NoFirstRow
      | None | Some ([] :: _) => ReadFailed
      | Some (first :: _) =>
          let currentRow := map PStr first in
          let currentRow := assignGiven 0 (WeeklyEntries.date data) currentRow in
          let currentRow := assignGiven 1 (WeeklyEntries.weekId data) currentRow in
          let currentRow := assignGiven 2 (WeeklyEntries.category data) currentRow in
          let currentRow := assignGiven 3 (WeeklyEntries.theme data) currentRow in
          let currentRow := assignGiven 4 (WeeklyEntries.participants data) currentRow in
          let currentRow := assignGiven 5 (WeeklyEntries.summary data) currentRow in
          let currentRow := assignGiven 6 (WeeklyEntries.todo data) currentRow in
          Updated rowIndex (assign 8 (PStr nowIso) currentRow)
      end
  end.

End WeeklyBusinessWriter.

(* ===================================================================== *)
(** * An engine for the worked examples *)
(* ===================================================================== *)

(** Basic Latin case mapping; other code units are left as they are. *)
Definition basicLatinLower (c : N) : N :=
  if ((65 <=? c) && (c <=? 90))%N then (c + 32)%N else c.

Lemma basicLatinLower_idem c : basicLatinLower (basicLatinLower c) = basicLatinLower c.
Proof.
  unfold basicLatinLower.
  destruct ((65 <=? c) && (c <=? 90))%N eqn:E; [|rewrite E; reflexivity].
  apply andb_true_iff in E as [E1 E2].
  apply N.leb_le in E1, E2.
  destruct ((65 <=? c + 32) && (c + 32 <=? 90))%N eqn:E'; [|reflexivity].
  apply andb_true_iff in E' as [_ E4]. apply N.leb_le in E4. lia.
Qed.

(** Decimal digits, for the [order] column of the examples. *)
Fixpoint digitsValue (acc : Z) (s : jsstring) : option Z :=
  match s with
  | [] => Some acc
  | c :: t =>
      if ((48 <=? c) && (c <=? 57))%N
      then digitsValue (10 * acc + Z.of_N (c - 48)) t
      else None
  end.

Definition tableDate (dates : list (jsstring * Z)) (s : jsstring) : option Z :=
  match s with
  | [] => None
  | _ => snd <$> List.find (fun p => bool_decide (fst p = s)) dates
  end.

Lemma basicLatinLower_twice (s : jsstring) :
  map basicLatinLower (map basicLatinLower s) = map basicLatinLower s.
Proof.
  induction s as [|c t IH]; simpl; [done|]. by rewrite basicLatinLower_idem, IH.
Qed.

Lemma basicLatinLower_empty (s : jsstring) : map basicLatinLower s = [] <-> s = [].
Proof. by destruct s. Qed.

Lemma basicLatinLower_units (x y : jsstring) :
  map basicLatinLower x = x ->
  Forall (fun c => c ∈ x /\ isSurrogate c = false) y ->
  map basicLatinLower y = y.
Proof.
  intros Hx Hy.
  assert (forall c, c ∈ x -> basicLatinLower c = c) as Hfixed.
  { clear Hy. induction x as [|a x IH]; intros c Hc; [by apply elem_of_nil in Hc|].
    injection Hx as Ha Hx. apply elem_of_cons in Hc as [->|Hc]; auto. }
  induction Hy as [|c y [Hc _] _ IH]; simpl; [done|]. by rewrite (Hfixed c Hc), IH.
Qed.

(** An engine that knows the time values of the listed date strings and the
    Basic Latin case mapping: it agrees with the built-ins on the inputs of
    the examples in this file. *)
Definition tableEngine (dates : list (jsstring * Z)) : Engine :=
  {| String_toLowerCase := map basicLatinLower;
     Date_parse := tableDate dates;
     parseInt := fun s => match s with [] => None | _ => digitsValue 0 s end;
     toISOString := fun t =>
       match List.find (fun p => (snd p =? t)) dates with
       | Some p => fst p
       | None => []
       end;
     toLowerCase_twice := basicLatinLower_twice;
     toLowerCase_empty := basicLatinLower_empty;
     toLowerCase_units := basicLatinLower_units;
     Date_parse_empty := eq_refl |}.

(** The Deseret capitals U+10400 to U+10427 are the surrogate pairs
    0xD801 0xDC00 to 0xD801 0xDC27; the lower case of each lies forty code
    points up. *)
Definition isDeseretCapital (c d : N) : bool :=
  ((c =? 55297) && (56320 <=? d) && (d <=? 56359))%N.

(** Case mapping by code point, for Basic Latin and Deseret: a pair of
    units that encodes a Deseret capital is mapped as one letter. *)
Fixpoint codePointLower (s : jsstring) : jsstring :=
  match s with
  | [] => []
  | c :: t =>
      match t with
      | d :: t' =>
          if isDeseretCapital c d
          then c :: (d + 40)%N :: codePointLower t'
          else basicLatinLower c :: codePointLower t
      | [] => [basicLatinLower c]
      end
  end.

Lemma basicLatinLower_surrogate (c : N) :
  (55296 <=? c)%N = true -> basicLatinLower c = c.
Proof.
  intros Hc. apply N.leb_le in Hc. unfold basicLatinLower.
  destruct ((65 <=? c) && (c <=? 90))%N eqn:E; [|done].
  apply andb_true_iff in E as [_ E]. apply N.leb_le in E. lia.
Qed.

Lemma isDeseretCapital_inv (c d : N) :
  isDeseretCapital c d = true -> c = 55297%N /\ (56320 <= d <= 56359)%N.
Proof.
  unfold isDeseretCapital. intros E.
  apply andb_true_iff in E as [E E3]. apply andb_true_iff in E as [E1 E2].
  apply N.eqb_eq in E1. apply N.leb_le in E2, E3. done.
Qed.

Lemma isDeseretCapital_lowered (c d : N) :
  isDeseretCapital (basicLatinLower c) (basicLatinLower d) = isDeseretCapital c d.
Proof.
  unfold isDeseretCapital, basicLatinLower.
  destruct (N.leb_spec 65 c), (N.leb_spec c 90), (N.leb_spec 65 d),
    (N.leb_spec d 90); simpl;
    repeat match goal with
    | |- context [N.eqb ?a ?b] => destruct (N.eqb_spec a b)
    | |- context [N.leb ?a ?b] => destruct (N.leb_spec a b)
    end; simpl; try reflexivity; lia.
Qed.

Lemma codePointLower_cons (c : N) (t : jsstring) :
  exists rest, codePointLower (c :: t) = basicLatinLower c :: rest.
Proof.
  destruct t as [|d t']; simpl; [by eexists|].
  destruct (isDeseretCapital c d) eqn:E; [|by eexists].
  apply isDeseretCapital_inv in E as [-> _]. by eexists.
Qed.

Lemma codePointLower_twice (s : jsstring) :
  codePointLower (codePointLower s) = codePointLower s.
Proof.
  remember (length s) as n eqn:Hn. revert s Hn.
  induction n as [n IH] using lt_wf_ind. intros s Hn.
  destruct s as [|c [|d t']]; [done| |].
  - simpl. by rewrite basicLatinLower_idem.
  - change (codePointLower (c :: d :: t'))
      with (if isDeseretCapital c d
            then c :: (d + 40)%N :: codePointLower t'
            else basicLatinLower c :: codePointLower (d :: t')).
    destruct (isDeseretCapital c d) eqn:E.
    + apply isDeseretCapital_inv in E as [-> Hd].
      assert (codePointLower ((d + 40)%N :: codePointLower t')
              = (d + 40)%N :: codePointLower t') as Htail.
      { destruct (codePointLower t') as [|e r] eqn:Et.
        - simpl. rewrite basicLatinLower_surrogate; [done|]. apply N.leb_le. lia.
        - change (codePointLower ((d + 40)%N :: e :: r))
            with (if isDeseretCapital (d + 40) e
                  then (d + 40)%N :: (e + 40)%N :: codePointLower r
                  else basicLatinLower (d + 40) :: codePointLower (e :: r)).
          assert (isDeseretCapital (d + 40) e = false) as ->.
          { unfold isDeseretCapital.
            destruct (N.eqb_spec (d + 40) 55297); [lia|done]. }
          rewrite basicLatinLower_surrogate by (apply N.leb_le; lia).
          rewrite <- Et. f_equal. apply (IH (length t')); [simpl in Hn; lia|done]. }
      change (codePointLower (55297%N :: (d + 40)%N :: codePointLower t'))
        with (if isDeseretCapital 55297 (d + 40)
              then 55297%N :: (d + 40 + 40)%N :: codePointLower (codePointLower t')
              else basicLatinLower 55297
                   :: codePointLower ((d + 40)%N :: codePointLower t')).
      assert (isDeseretCapital 55297 (d + 40) = false) as ->.
      { unfold isDeseretCapital. simpl.
        destruct (N.leb_spec (d + 40) 56359); [lia|]. apply andb_false_r. }
      by rewrite Htail.
    + destruct (codePointLower_cons d t') as [rest Hrest].
      pose proof (IH (length (d :: t')) ltac:(simpl in *; lia) (d :: t') eq_refl)
        as Htwice.
      rewrite Hrest in *.
      change (codePointLower (basicLatinLower c :: basicLatinLower d :: rest))
        with (if isDeseretCapital (basicLatinLower c) (basicLatinLower d)
              then basicLatinLower c :: (basicLatinLower d + 40)%N :: codePointLower rest
              else basicLatinLower (basicLatinLower c)
                   :: codePointLower (basicLatinLower d :: rest)).
      by rewrite isDeseretCapital_lowered, E, basicLatinLower_idem, Htwice.
Qed.

Lemma codePointLower_empty (s : jsstring) : codePointLower s = [] <-> s = [].
Proof.
  split; [|by intros ->].
  destruct s as [|c [|d t']]; [done|done|]. simpl.
  by destruct (isDeseretCapital c d).
Qed.

Lemma codePointLower_fixed (x : jsstring) :
  codePointLower x = x -> forall c, c ∈ x -> basicLatinLower c = c.
Proof.
  remember (length x) as n eqn:Hn. revert x Hn.
  induction n as [n IH] using lt_wf_ind. intros x Hn Hx c Hc.
  destruct x as [|a [|d t']]; [by apply elem_of_nil in Hc| |].
  - apply list_elem_of_singleton in Hc as ->. simpl in Hx. congruence.
  - change (codePointLower (a :: d :: t'))
      with (if isDeseretCapital a d
            then a :: (d + 40)%N :: codePointLower t'
            else basicLatinLower a :: codePointLower (d :: t')) in Hx.
    destruct (isDeseretCapital a d).
    + injection Hx as Hd _. lia.
    + injection Hx as Ha Ht. apply elem_of_cons in Hc as [->|Hc]; [done|].
      apply (IH (length (d :: t')) ltac:(simpl in *; lia) (d :: t') eq_refl Ht c Hc).
Qed.

Lemma codePointLower_bmp (y : jsstring) :
  Forall (fun c => isSurrogate c = false) y ->
  codePointLower y = map basicLatinLower y.
Proof.
  induction 1 as [|c y Hc Hy IH]; [done|].
  destruct y as [|d t']; [done|].
  change (codePointLower (c :: d :: t'))
    with (if isDeseretCapital c d
          then c :: (d + 40)%N :: codePointLower t'
          else basicLatinLower c :: codePointLower (d :: t')).
  destruct (isDeseretCapital c d) eqn:E.
  - apply isDeseretCapital_inv in E as [-> _]. done.
  - by rewrite IH.
Qed.

Lemma codePointLower_units (x y : jsstring) :
  codePointLower x = x ->
  Forall (fun c => c ∈ x /\ isSurrogate c = false) y ->
  codePointLower y = y.
Proof.
  intros Hx Hy. rewrite codePointLower_bmp.
  - induction Hy as [|c y [Hc _] _ IH]; simpl; [done|].
    by rewrite (codePointLower_fixed x Hx c Hc), IH.
  - eapply Forall_impl; [exact Hy|]. by intros c [_ Hc].
Qed.

(** An engine whose [toLowerCase] works on code points, as the built-in
    does, on Basic Latin and Deseret. *)
Definition codePointEngine : Engine :=
  {| String_toLowerCase := codePointLower;
     Date_parse := fun _ => None;
     parseInt := fun _ => None;
     toISOString := fun _ => [];
     toLowerCase_twice := codePointLower_twice;
     toLowerCase_empty := codePointLower_empty;
     toLowerCase_units := codePointLower_units;
     Date_parse_empty := eq_refl |}.

Definition sampleConfig : Config :=
  {| RANGE_SYSTEM_CONFIG := "SystemConfig!A:I";
     RANGE_CONTACTS := "Contacts!A:Y";
     RANGE_CONTACT_LIST := "ContactList!A:M";
     RANGE_OPPORTUNITY_CONTACT_LINK := "OppContactLink!A:F";
     RANGE_ANNOUNCEMENTS := "Announcements!A:H";
     RANGE_WEEKLY_BUSINESS_SUMMARY := "WeeklyBusiness!B:F";
     IDS_AUTH := None;
     DEFAULT_SETTINGS := None;
     CONTACT_FIELDS :=
       {| CF_TIME := 0; CF_NAME := 1; CF_COMPANY := 2; CF_POSITION := 3;
          CF_DEPARTMENT := 4; CF_PHONE := 5; CF_MOBILE := 6; CF_EMAIL := 7;
          CF_WEBSITE := 8; CF_ADDRESS := 9; CF_CONFIDENCE := 10;
          CF_STATUS := 11; CF_DRIVE_LINK := 12; CF_LINE_USER_ID := 13;
          CF_USER_NICKNAME := 14 |};
     ANNOUNCEMENT_FIELDS :=
       {| AF_ID := 0; AF_TITLE := 1; AF_CONTENT := 2; AF_CREATOR := 3;
          AF_CREATE_TIME := 4; AF_LAST_UPDATE_TIME := 5; AF_STATUS := 6;
          AF_IS_PINNED := 7 |};
     OPP_CONTACT_LINK_FIELDS :=
       {| LF_LINK_ID := 0; LF_OPPORTUNITY_ID := 1; LF_CONTACT_ID := 2;
          LF_CREATE_TIME := 3; LF_STATUS := 4; LF_CREATOR := 5 |} |}.

(** A reader whose sheets client answers its n-th call with the n-th entry
    of [script], and rejects once the script is used up. *)
Definition scriptedReader (script : list Response) (window : Z) : Reader :=
  {| sheets := fun _ n => default Reject (script !! n);
     targetSpreadsheetId := "sheet-1";
     config := sampleConfig;
     CACHE_DURATION := window |}.

Definition emptyWorld : World := {| cache := ∅; calls := 0 |}.

(* ===================================================================== *)
(** * Vocabulary of the proofs *)
(* ===================================================================== *)

(** What one cached read does to the world: it is served from the entry, or
    it reads the table source and stores nothing, or it reads the table
    source and replaces the entry. *)
Inductive ReadOutcome `{Reader} (key : string) (now : Z) (w : World)
    : Data * World -> Prop :=
| read_hit e :
    cache w !! key = Some e ->
    now - timestamp e < CACHE_DURATION ->
    ReadOutcome key now w (data e, w)
| read_not_stored d w' :
    fresh w key now = false ->
    cache w' = cache w ->
    calls w' = S (calls w) ->
    ReadOutcome key now w (d, w')
| read_stored d w' :
    fresh w key now = false ->
    cache w' = <[key := {| data := d; timestamp := now |}]> (cache w) ->
    calls w' = S (calls w) ->
    ReadOutcome key now w (d, w').

(** Every stored time value lies after the epoch. *)
Definition positive (m : gmap Prim Z) : Prop :=
  forall k v, m !! k = Some v -> 0 < v.

(** What one event can add to the entry of [id]. *)
Definition stamp `{Engine} (id : Prim) (ev : Prim * Prim) : Z :=
  if bool_decide (ev.1 = id) && truthy ev.1 && truthy ev.2 then
    match dateValue ev.2 with
    | Num ts => ts
    | NaN => 0
    end
  else 0.

Definition peak `{Engine} (id : Prim) (evs : list (Prim * Prim)) : Z :=
  foldr (fun ev acc => Z.max (stamp id ev) acc) 0 evs.

(** An announcement as the row parser builds it, reduced to the fields the
    sorter reads. *)
Definition announcement (id : jsstring) (lastUpdateTime : jsstring)
    (isPinned : bool) : Obj :=
  [ ("id", PStr id); ("lastUpdateTime", PStr lastUpdateTime);
    ("isPinned", PBool isPinned) ].

(** [a] may stand before [b] in a list sorted newest first on [field]:
    dated records before undated ones, later dates before earlier ones. *)
Definition newestFirst `{Engine} (field : string) (a b : Obj) : Prop :=
  match dateValue (getField a field), dateValue (getField b field) with
  | Num ta, Num tb => tb <= ta
  | Num _, NaN => True
  | NaN, NaN => True
  | NaN, Num _ => False
  end.

(** [a] may stand before [b] when pinned records come first. *)
Definition pinnedFirst (a b : Obj) : Prop :=
  truthy (getField a "isPinned") = true \/ truthy (getField b "isPinned") = false.

(** Pinned records first; inside each group later updates first. *)
Definition pinnedThenNewest `{Engine} (a b : Obj) : Prop :=
  (truthy (getField a "isPinned") = true /\ truthy (getField b "isPinned") = false)
  \/ (truthy (getField a "isPinned") = truthy (getField b "isPinned")
      /\ newestFirst "lastUpdateTime" a b).

(** The record carries a date that parses. *)
Definition dated `{Engine} (field : string) (a : Obj) : Prop :=
  dateValue (getField a field) <> NaN.


(** The field holds a string, as every text field of a parsed row does. *)
Definition textField (field : string) (o : Obj) : Prop :=
  exists s, getField o field = PStr s.

(** The field's text, lower-cased, contains [term]; an empty or missing
    field contains nothing. *)
Definition fieldContains `{Engine} (field : string) (term : jsstring) (o : Obj)
    : bool :=
  match getField o field with
  | PStr (c :: s) => includes (toLowerCase (c :: s)) term
  | _ => false
  end.

(** A status none of the three counters of the dashboard counts. *)
Definition otherStatus (c : Obj) : bool :=
  truthy (getField c "status")
  && negb (strictEq (getField c "status") (PStr (js "Pending")))
  && negb (strictEq (getField c "status") (PStr (js "Processed")))
  && negb (strictEq (getField c "status") (PStr (js "Dropped"))).


(** [a] may stand before [b] in an array sorted by [order]. *)
Definition orderLe (a b : Obj) : Prop :=
  match getField a "order", getField b "order" with
  | PNum x, PNum y => x <= y
  | _, _ => False
  end.

(** The item's [order] is a number. *)
Definition numbered (o : Obj) : Prop := exists n, getField o "order" = PNum n.

(** The [value] of every item of an array of settings. *)
Definition valuesOf (items : list Obj) : list Prim :=
  map (fun i => getField i "value") items.

(** What the loop over the rows keeps true of [settings]: no own key is a
    name of [Object.prototype], every [order] is a number and no array
    lists a value twice. *)
Definition settingsInvariant (settings : Settings) : Prop :=
  forall type items,
    SystemReader.ownItems settings type = Some items ->
    (type ∉ SystemReader.objectPrototypeKeys)
    /\ Forall numbered items
    /\ NoDup (valuesOf items).

(** Every default event type is still listed, with its colour. *)
Definition keepsDefaults (settings : Settings) : Prop :=
  exists eventTypes,
    SystemReader.ownItems settings SystemReader.key_eventTypes = Some eventTypes
    /\ forall d, d ∈ SystemReader.defaultEventTypes ->
         exists i, i ∈ eventTypes
           /\ getField i "value" = getField d "value"
           /\ getField i "color" = getField d "color".


(** The link ties [contactId] to the opportunity and is active. *)
Definition activeLink (opportunityId contactId : Prim) (link : Obj) : Prop :=
  getField link "opportunityId" = opportunityId
  /\ getField link "status" = PStr (js "active")
  /\ getField link "contactId" = contactId.

#[global] Instance activeLink_dec opportunityId contactId link :
  Decision (activeLink opportunityId contactId link).
Proof. unfold activeLink. apply _. Defined.


(** The time a company is ranked by in the company list: its last
    activity, else its creation time, else 0. *)
Definition rankTs `{Engine} (lastActivityMap : gmap Prim Z) (comp : Obj) : Z :=
  default 0 (CompanyService.lastTsOf lastActivityMap comp).


(** [row] still shows the cells of [first] at every index outside
    [touched], is no shorter, and holds the empty string wherever it is
    longer. *)
Definition keepsCells (first : Row) (touched : list nat) (row : list Prim) : Prop :=
  (length first <= length row)%nat
  /\ forall i, i ∉ touched ->
       (forall cell, first !! i = Some cell -> row !! i = Some (PStr cell))
       /\ (forall c, (length first <= i)%nat -> row !! i = Some c -> c = PStr []).

(** The indexes [updatePotentialContact] may write. *)
Definition writtenIndexes `{Reader} (NOTES : option nat) : list nat :=
  let F := CONTACT_FIELDS config in
  [CF_NAME F; CF_COMPANY F; CF_POSITION F; CF_MOBILE F; CF_EMAIL F]
  ++ match NOTES with Some n => [n] | None => [] end.


(** The row is enabled and declares [item] under [type]. *)
Definition declares (type item : jsstring) (row : Row) : Prop :=
  row !! 0%nat = Some type /\ row !! 1%nat = Some item
  /\ row !! 3%nat = Some (js "TRUE").

(** [settings[type]] lists an item with the value [item] that shows the
    given fields. *)
Definition listed (settings : Settings) (type item : jsstring)
    (fields : list (string * Prim)) : Prop :=
  exists items i,
    SystemReader.ownItems settings type = Some items
    /\ i ∈ items
    /\ getField i "value" = PStr item
    /\ Forall (fun kv => getField i (fst kv) = snd kv) fields.

(** [settings[type]] lists no item with the value [item]. *)
Definition unlisted (settings : Settings) (type item : jsstring) : Prop :=
  forall items,
    SystemReader.ownItems settings type = Some items -> PStr item ∉ valuesOf items.

(* ===================================================================== *)
(** * Data of the worked examples *)
(* ===================================================================== *)

Definition usersSheet : list Row :=
  [ [js " alice "; js "h1"; js "Alice"; js "Admin"];
    [js "bob"; js "h2"] ].

Definition contactsSheet : list Row :=
  [ [js "2026-01-01T00:00:00.000Z"; js "Alice"; js "ACME Inc"];
    [js "2026-01-02T00:00:00.000Z"; js "Bob"];
    [js "2026-01-03T00:00:00.000Z"; js "Carol"; js "Initech"] ].

Definition sampleDates : list (jsstring * Z) :=
  [ (js "1969-12-31T23:59:58.000Z", -2000);
    (js "1969-12-31T23:59:59.000Z", -1000);
    (js "1970-01-01T00:00:00.000Z", 0);
    (js "2026-01-01T00:00:00.000Z", 1767225600000);
    (js "2026-01-02T00:00:00.000Z", 1767312000000);
    (js "2026-01-03T00:00:00.000Z", 1767398400000) ].

Definition acmeFirst : Obj :=
  [ ("companyId", PStr (js "C1")); ("companyName", PStr (js "Acme"));
    ("createdTime", PStr (js "2026-01-01T00:00:00.000Z")) ].

Definition acmeSecond : Obj :=
  [ ("companyId", PStr (js "C1")); ("companyName", PStr (js "Acme Taiwan"));
    ("createdTime", PStr (js "2026-01-03T00:00:00.000Z")) ].

Definition annContact : Obj :=
  [ ("contactId", PStr (js "K1")); ("name", PStr (js "Ann"));
    ("companyId", PStr (js "C1")) ].

Definition annLink : Obj :=
  [ ("linkId", PStr (js "L1")); ("opportunityId", PStr (js "O1"));
    ("contactId", PStr (js "K1")); ("status", PStr (js "active")) ].

Definition annInteraction : Obj :=
  [ ("interactionId", PStr (js "I1")); ("companyId", PStr (js "C1"));
    ("interactionTime", PStr (js "2026-01-02T00:00:00.000Z")) ].

Definition initech : Obj :=
  [ ("companyId", PStr (js "C2")); ("companyName", PStr (js "Initech"));
    ("createdTime", PStr (js "2026-01-03T00:00:00.000Z")) ].

Definition epochCompany : Obj :=
  [ ("companyId", PStr (js "C3")); ("companyName", PStr (js "Epoch"));
    ("createdTime", PStr (js "1970-01-01T00:00:00.000Z")) ].

(** A company and an event, both dated before the epoch. *)
Definition oldCompany : Obj :=
  [ ("companyId", PStr (js "C4")); ("companyName", PStr (js "Old"));
    ("createdTime", PStr (js "1969-12-31T23:59:58.000Z")) ].

Definition oldEvent : Obj :=
  [ ("companyId", PStr (js "C4"));
    ("createdTime", PStr (js "1969-12-31T23:59:59.000Z")) ].

Definition announcementsSheet : list Row :=
  [ [js "A1"; js "Undated notice"];
    [js "A2"; js "Dated notice"; js "text"; js "amy";
     js "2026-01-01T00:00:00.000Z"; js "2026-01-02T00:00:00.000Z";
     js "published"; js "FALSE"] ].

(* ===================================================================== *)
(** * Properties *)
(* ===================================================================== *)

(** ** Strings *)






Lemma Forall_of_sublist {A} (P : A -> Prop) (l k : list A) :
  sublist l k -> Forall P k -> Forall P l.
Proof.
  induction 1 as [|x l k _ IH|x l k _ IH]; intros HF; [done| |].
  - inversion HF; subst. constructor; auto.
  - inversion HF; subst. auto.
Qed.






Lemma startsWith_app (p s : jsstring) :
  startsWith p s = true <-> exists rest, s = p ++ rest.
Proof.
  revert s. induction p as [|a p IH]; intros s; simpl.
  - split; [eauto|done].
  - destruct s as [|b s].
    + split; [done|]. intros [rest Hr]. discriminate.
    + rewrite andb_true_iff, IH, N.eqb_eq. split.
      * intros [-> [rest ->]]. eauto.
      * intros [rest [= -> ->]]. eauto.
Qed.

Lemma toLowerCase_idem `{Engine} (s : jsstring) :
  toLowerCase (toLowerCase s) = toLowerCase s.
Proof. apply toLowerCase_twice. Qed.

Lemma toLowerCase_nil `{Engine} : toLowerCase [] = [].
Proof. by apply toLowerCase_empty. Qed.

Lemma toLowerCase_cons `{Engine} (c : N) (s : jsstring) :
  exists c' s', toLowerCase (c :: s) = c' :: s'.
Proof.
  destruct (toLowerCase (c :: s)) as [|c' s'] eqn:E; [|eauto].
  by apply (proj1 (toLowerCase_empty (c :: s))) in E.
Qed.

(** ** The company-name normaliser *)

Module CompanyServiceFacts.
Import CompanyService.

(** A suffix token occurs exactly when 公司 does: the two longer tokens end
    in it. *)
Lemma occurs_suffix_token (s : jsstring) :
  occurs matchSuffixToken s = true
  <-> exists pre post, s = pre ++ [cu_gong; cu_si] ++ post.
Proof.
  split.
  - induction s as [|c t IH]; simpl; [done|].
    destruct (matchSuffixToken (c :: t)) as [[|k]|] eqn:Hm.
    + intros Ho. destruct (IH Ho) as (pre & post & ->). by exists (c :: pre), post.
    + intros _. unfold matchSuffixToken in Hm.
      destruct (List.find _ suffixTokens) as [tok|] eqn:Hf; [|done].
      apply List.find_some in Hf as [Hin Hsw].
      apply startsWith_app in Hsw as [rest Hrest]. rewrite Hrest.
      simpl in Hin. destruct Hin as [<-|[<-|[<-|[]]]].
      * by exists [cu_gu; cu_fen; cu_you; cu_xian], rest.
      * by exists [cu_you; cu_xian], rest.
      * by exists [], rest.
    + intros Ho. destruct (IH Ho) as (pre & post & ->). by exists (c :: pre), post.
  - intros (pre & post & ->). induction pre as [|c pre IH]; [done|].
    simpl. by destruct (matchSuffixToken _) as [[|k]|].
Qed.

Lemma closeLen_Some (t : jsstring) :
  is_Some (closeLen t)
  <-> exists mid post,
        t = mid ++ cu_rparen :: post
        /\ Forall (fun c => isLineTerminator c = false) mid.
Proof.
  split.
  - induction t as [|c r IH]; simpl; [by intros [? ?]|].
    destruct (isLineTerminator c) eqn:Hlt; [by intros [? ?]|].
    destruct (closeLen r) as [k|].
    + intros _. destruct IH as (mid & post & -> & Hmid); [done|].
      exists (c :: mid), post. split; [done|]. by constructor.
    + destruct (c =? cu_rparen)%N eqn:Hc; [|by intros [? ?]].
      intros _. apply N.eqb_eq in Hc as ->. by exists [], r.
  - intros (mid & post & -> & Hmid). induction Hmid as [|c mid Hc _ IH]; simpl.
    + by destruct (closeLen post).
    + rewrite Hc. by destruct IH as [k ->].
Qed.

(** A parenthetical segment: an opening parenthesis, then a closing one
    later on the same line. *)
Lemma occurs_parenthetical (s : jsstring) :
  occurs matchParenthetical s = true
  <-> exists pre mid post,
        s = pre ++ cu_lparen :: mid ++ cu_rparen :: post
        /\ Forall (fun c => isLineTerminator c = false) mid.
Proof.
  split.
  - induction s as [|c t IH]; simpl; [done|].
    destruct (c =? cu_lparen)%N eqn:Hc.
    + destruct (closeLen t) as [k|] eqn:Hk; simpl.
      * intros _. apply N.eqb_eq in Hc as ->.
        destruct (proj1 (closeLen_Some t)) as (mid & post & -> & Hmid);
          [by rewrite Hk|].
        by exists [], mid, post.
      * intros Ho. destruct (IH Ho) as (pre & mid & post & -> & Hmid).
        by exists (c :: pre), mid, post.
    + intros Ho. destruct (IH Ho) as (pre & mid & post & -> & Hmid).
      by exists (c :: pre), mid, post.
  - intros (pre & mid & post & -> & Hmid). induction pre as [|c pre IH]; simpl.
    + destruct (proj2 (closeLen_Some (mid ++ cu_rparen :: post))) as [k ->];
        [by exists mid, post|]. done.
    + destruct (c =? cu_lparen)%N; [|done]. by destruct (closeLen _).
Qed.






(** The third condition cannot be dropped: on an engine that lower-cases
    by code point, removing the token between two surrogate halves leaves
    a Deseret capital, clean of tokens and of parentheses, that the second
    pass lower-cases. *)
Example normalize_joins_surrogates :
  let E := codePointEngine in
  let s := [55297; 20844; 21496; 56320]%N in
  occurs matchSuffixToken (@_normalizeCompanyName E s) = false
  /\ occurs matchParenthetical (@_normalizeCompanyName E s) = false
  /\ @_normalizeCompanyName E s = [55297; 56320]%N
  /\ @_normalizeCompanyName E (@_normalizeCompanyName E s) = [55297; 56360]%N.
Proof. vm_compute. repeat split. Qed.


End CompanyServiceFacts.

(** ** The cache *)

Section CacheFacts.
Context `{Reader}.

Lemma fresh_hit w key now :
  fresh w key now = true ->
  exists e, cache w !! key = Some e /\ freshData w key now = Some (data e)
            /\ now - timestamp e < CACHE_DURATION.
Proof.
  unfold fresh, freshData. destruct (cache w !! key) as [e|]; [|done].
  intros Hf. exists e. rewrite Hf. split; [done|]. split; [done|].
  apply andb_true_iff in Hf as [_ Hf]. by apply Z.ltb_lt in Hf.
Qed.

Lemma freshData_data w key now d :
  freshData w key now = Some d ->
  exists e, cache w !! key = Some e /\ d = data e.
Proof.
  unfold freshData. destruct (cache w !! key) as [e|]; [|done].
  destruct (_ && _); [|done]. intros [= <-]. eauto.
Qed.

Lemma freshData_miss_later w key t1 t2 :
  t1 <= t2 -> freshData w key t1 = None -> fresh w key t2 = false.
Proof.
  unfold fresh, freshData. intros Hle.
  destruct (cache w !! key) as [e|]; [|done].
  destruct (dataTruthy (data e)); simpl; [|done].
  destruct (t1 - timestamp e <? CACHE_DURATION) eqn:E1; [done|]. intros _.
  apply Z.ltb_ge in E1. apply Z.ltb_ge. lia.
Qed.

Lemma fresh_setCache w key e now :
  fresh (setCache w key e) key now
  = dataTruthy (data e) && (now - timestamp e <? CACHE_DURATION).
Proof. unfold fresh, setCache. simpl. by rewrite lookup_insert_eq. Qed.

Lemma freshData_setCache w key e now :
  fresh (setCache w key e) key now = true ->
  freshData (setCache w key e) key now = Some (data e).
Proof.
  intros Hf. destruct (fresh_hit _ _ _ Hf) as (e' & He' & Hd & _).
  unfold setCache in He'. simpl in He'. rewrite lookup_insert_eq in He'.
  by injection He' as <-.
Qed.

Lemma fresh_same_cache w w' key now :
  cache w' = cache w -> fresh w' key now = fresh w key now.
Proof. unfold fresh. by intros ->. Qed.

Lemma freshData_same_cache w w' key now :
  cache w' = cache w -> freshData w' key now = freshData w key now.
Proof. unfold freshData. by intros ->. Qed.

End CacheFacts.

Section ReadFacts.
Context `{Engine} `{Reader}.

Lemma fresh_false_later w key t1 t2 :
  t1 <= t2 -> fresh w key t1 = false -> fresh w key t2 = false.
Proof.
  unfold fresh. intros Hle. destruct (cache w !! key) as [e|]; [|done].
  destruct (dataTruthy (data e)); simpl; [|done].
  intros E1. apply Z.ltb_ge in E1. apply Z.ltb_ge. lia.
Qed.


Lemma outcome_calls key now w r :
  ReadOutcome key now w r -> (calls r.2 <= S (calls w))%nat.
Proof. destruct 1; simpl; lia. Qed.

(** A read that finds no fresh entry goes to the table source. *)
Lemma outcome_miss key now w r :
  ReadOutcome key now w r -> cache w !! key = None -> calls r.2 = S (calls w).
Proof. destruct 1; simpl; congruence. Qed.

Lemma outcome_twice key w t1 t2 first second :
  ReadOutcome key t1 w first ->
  ReadOutcome key t2 first.2 second ->
  t1 <= t2 ->
  fresh first.2 key t2 = true ->
  second.1 = first.1
  /\ (calls second.2 <= S (calls w))%nat
  /\ calls second.2 = calls first.2.
Proof.
  intros H1 H2 Hle Hfresh.
  destruct H1 as [e He Hwin | d w' Hmiss Hc Hn | d w' Hmiss Hc Hn]; simpl in *.
  - destruct H2 as [e' He' _ | d' w'' Hmiss' _ _ | d' w'' Hmiss' _ _]; simpl;
      [|congruence|congruence].
    rewrite He in He'. injection He' as <-. auto.
  - rewrite (fresh_same_cache w w') in Hfresh by done.
    by rewrite (fresh_false_later w key t1 t2) in Hfresh.
  - destruct H2 as [e' He' _ | d' w'' Hmiss' _ _ | d' w'' Hmiss' _ _]; simpl;
      [|congruence|congruence].
    rewrite Hc, lookup_insert_eq in He'. injection He' as <-. simpl.
    split; [done|]. split; lia.
Qed.

(** The two ways a read of the table source ends. *)
Ltac settle_fetch :=
  unfold values_get;
  destruct (sheets _ _);
  [ by apply read_not_stored
  | first [ by apply read_stored
          | destruct (SystemReader.buildSettings _);
            [ by apply read_stored | by apply read_not_stored ] ] ].

Lemma fetchAndCache_outcome key rng parser sorter now w :
  ReadOutcome key now w (BaseReader._fetchAndCache key rng parser sorter now w).
Proof.
  unfold BaseReader._fetchAndCache.
  destruct (cache w !! key) as [e|] eqn:He.
  - destruct (now - timestamp e <? CACHE_DURATION) eqn:E.
    + apply Z.ltb_lt in E. by apply read_hit.
    + assert (fresh w key now = false) as Hm.
      { unfold fresh. rewrite He, E. apply andb_false_r. }
      settle_fetch.
  - assert (fresh w key now = false) as Hm by (unfold fresh; by rewrite He).
    settle_fetch.
Qed.





(** The same for every reader that goes through [_fetchAndCache]. *)
Lemma fetchAndCache_served_without_fetch (w : World) (t1 t2 : Z)
    (key rng : string) (parser : Row -> nat -> Obj)
    (sorter : option (Obj -> Obj -> JsNum)) :
  t1 <= t2 ->
  fresh (BaseReader._fetchAndCache key rng parser sorter t1 w).2 key t2 = true ->
  servedFromCache (BaseReader._fetchAndCache key rng parser sorter) w t1 t2.
Proof.
  intros Hle Hf. unfold servedFromCache.
  eapply (outcome_twice key);
    [apply fetchAndCache_outcome|apply fetchAndCache_outcome|done|done].
Qed.

Lemma fresh_false_freshData w key now :
  fresh w key now = false -> freshData w key now = None.
Proof.
  unfold fresh, freshData. destruct (cache w !! key) as [e|]; [|done].
  by intros ->.
Qed.

Lemma getUsers_miss now w :
  fresh w "users" now = false ->
  calls (SystemReader.getUsers now w).2 = S (calls w).
Proof.
  intros Hm. unfold SystemReader.getUsers.
  rewrite (fresh_false_freshData _ _ _ Hm).
  unfold values_get. by destruct (sheets _ _).
Qed.

Lemma getSystemConfig_miss now w :
  fresh w "systemConfig" now = false ->
  calls (SystemReader.getSystemConfig now w).2 = S (calls w).
Proof.
  intros Hm. unfold SystemReader.getSystemConfig.
  rewrite (fresh_false_freshData _ _ _ Hm).
  unfold values_get. destruct (sheets _ _); [done|].
  by destruct (SystemReader.buildSettings _).
Qed.

Lemma getWeeklySummary_calls w :
  calls (WeeklyBusinessReader.getWeeklySummary w).2 = S (calls w).
Proof.
  unfold WeeklyBusinessReader.getWeeklySummary, values_get.
  destruct (sheets _ _); simpl; [done|]. by destruct (_ <=? _)%nat.
Qed.

Lemma fresh_absent w key now : cache w !! key = None -> fresh w key now = false.
Proof. unfold fresh. by intros ->. Qed.

(** C2. After [invalidate(K)] the next read of [K] goes to the table source
    whatever the time; [invalidate(null)] leaves no entry, so the next read
    of any key goes to the table source. The controller's endpoint is the
    wildcard; the weekly reader's override drops its own key. *)
Theorem invalidation_forces_fetch (w : World) (now : Z)
    (key rng : string) (parser : Row -> nat -> Obj)
    (sorter : option (Obj -> Obj -> JsNum)) :
  calls (SystemReader.getSystemConfig now
           (BaseReader.invalidateCache (Some "systemConfig"%string) w)).2
    = S (calls w)
  /\ calls (SystemReader.getUsers now
              (BaseReader.invalidateCache (Some "users"%string) w)).2
     = S (calls w)
  /\ calls (BaseReader._fetchAndCache key rng parser sorter now
              (BaseReader.invalidateCache (Some key) w)).2
     = S (calls w)
  /\ cache (BaseReader.invalidateCache None w) = ∅
  /\ calls (SystemReader.getSystemConfig now (BaseReader.invalidateCache None w)).2
     = S (calls w)
  /\ calls (SystemReader.getUsers now (BaseReader.invalidateCache None w)).2
     = S (calls w)
  /\ calls (BaseReader._fetchAndCache key rng parser sorter now
              (BaseReader.invalidateCache None w)).2
     = S (calls w)
  /\ SystemController.invalidateCache w = BaseReader.invalidateCache None w
  /\ calls (BaseReader._fetchAndCache "weeklyBusiness" rng parser sorter now
              (WeeklyBusinessReader.invalidateCache w)).2
     = S (calls w).
Proof.
  assert (forall k, cache (BaseReader.invalidateCache (Some k) w) !! k = None) as Hk.
  { intros k. simpl. apply lookup_delete_eq. }
  assert (forall k, cache (BaseReader.invalidateCache None w) !! k = None) as Ha.
  { intros k. simpl. apply lookup_empty. }
  repeat split.
  - rewrite getSystemConfig_miss; [done|]. apply fresh_absent, Hk.
  - rewrite getUsers_miss; [done|]. apply fresh_absent, Hk.
  - by rewrite (outcome_miss key now _ _ (fetchAndCache_outcome _ _ _ _ _ _) (Hk key)).
  - rewrite getSystemConfig_miss; [done|]. apply fresh_absent, Ha.
  - rewrite getUsers_miss; [done|]. apply fresh_absent, Ha.
  - by rewrite (outcome_miss key now _ _ (fetchAndCache_outcome _ _ _ _ _ _) (Ha key)).
  - unfold WeeklyBusinessReader.invalidateCache.
    by rewrite (outcome_miss _ now _ _ (fetchAndCache_outcome _ _ _ _ _ _)
                  (Hk "weeklyBusiness"%string)).
Qed.

(** C6. A rejected read of the table source: the reader returns its
    fallback, leaves the cache as it was, and the next call reads the table
    source again. *)
Theorem failed_read_caches_nothing (w : World) (t1 t2 : Z) :
  t1 <= t2 ->
  (fresh w "users" t1 = false ->
   sheets {| spreadsheetId := default targetSpreadsheetId (IDS_AUTH config);
             range := "使用者名冊!A:D" |} (calls w) = Reject ->
   (SystemReader.getUsers t1 w).1 = DRows []
   /\ cache (SystemReader.getUsers t1 w).2 = cache w
   /\ calls (SystemReader.getUsers t1 w).2 = S (calls w)
   /\ calls (SystemReader.getUsers t2 (SystemReader.getUsers t1 w).2).2
      = S (S (calls w)))
  /\ (fresh w "systemConfig" t1 = false ->
      sheets {| spreadsheetId := targetSpreadsheetId;
                range := RANGE_SYSTEM_CONFIG config |} (calls w) = Reject ->
      (SystemReader.getSystemConfig t1 w).1
        = DSettings (default [] (DEFAULT_SETTINGS config))
      /\ cache (SystemReader.getSystemConfig t1 w).2 = cache w
      /\ calls (SystemReader.getSystemConfig t1 w).2 = S (calls w)
      /\ calls (SystemReader.getSystemConfig t2
                  (SystemReader.getSystemConfig t1 w).2).2
         = S (S (calls w)))
  /\ (sheets {| spreadsheetId := targetSpreadsheetId;
                range := RANGE_WEEKLY_BUSINESS_SUMMARY config |} (calls w) = Reject ->
      (WeeklyBusinessReader.getWeeklySummary w).1 = DRows []
      /\ cache (WeeklyBusinessReader.getWeeklySummary w).2 = cache w
      /\ calls (WeeklyBusinessReader.getWeeklySummary w).2 = S (calls w)
      /\ calls (WeeklyBusinessReader.getWeeklySummary
                  (WeeklyBusinessReader.getWeeklySummary w).2).2
         = S (S (calls w))).
Proof.
  intros Hle. split; [|split].
  - intros Hm Hrej.
    assert (SystemReader.getUsers t1 w
            = (DRows [], {| cache := cache w; calls := S (calls w) |})) as E.
    { unfold SystemReader.getUsers.
      rewrite (fresh_false_freshData _ _ _ Hm). unfold values_get.
      by rewrite Hrej. }
    rewrite E. simpl. repeat split.
    rewrite getUsers_miss; [done|].
    erewrite fresh_same_cache; [by apply (fresh_false_later w _ t1 t2)|done].
  - intros Hm Hrej.
    assert (SystemReader.getSystemConfig t1 w
            = (DSettings (default [] (DEFAULT_SETTINGS config)),
               {| cache := cache w; calls := S (calls w) |})) as E.
    { unfold SystemReader.getSystemConfig.
      rewrite (fresh_false_freshData _ _ _ Hm). unfold values_get.
      by rewrite Hrej. }
    rewrite E. simpl. repeat split.
    rewrite getSystemConfig_miss; [done|].
    erewrite fresh_same_cache; [by apply (fresh_false_later w _ t1 t2)|done].
  - intros Hrej.
    assert (WeeklyBusinessReader.getWeeklySummary w
            = (DRows [], {| cache := cache w; calls := S (calls w) |})) as E.
    { unfold WeeklyBusinessReader.getWeeklySummary, values_get. by rewrite Hrej. }
    rewrite E. simpl. repeat split.
    by rewrite getWeeklySummary_calls.
Qed.

End ReadFacts.

(** ** Row parsers *)

Section ParserFacts.
Context `{Reader}.

Lemma por_cell (row : Row) (i : nat) :
  por (cell row i) (PStr []) = PStr (default [] (row !! i)).
Proof. unfold cell, por. by destruct (row !! i) as [[|c s]|]. Qed.

Lemma strictEq_cell (row : Row) (i : nat) (s : jsstring) :
  strictEq (cell row i) (PStr s) = true <-> row !! i = Some s.
Proof.
  unfold strictEq, cell. rewrite bool_decide_eq_true.
  destruct (row !! i); split; congruence.
Qed.

(** C7. The two row parsers on any row, however short: every string field
    is the cell's text, or the empty string when the cell is missing;
    [isPinned] is [true] exactly for the cell ['TRUE']; the row index is
    the position plus two. Parsing a batch keeps one record per row. *)
Theorem rowParser_defaults (row : Row) (index : nat) (rows : list Row) :
  let A := ANNOUNCEMENT_FIELDS config in
  let C := CONTACT_FIELDS config in
  let a := AnnouncementReader.rowParser row index in
  let c := ContactReader.rowParser row index in
  Forall (fun fi => getField a fi.1 = PStr (default [] (row !! fi.2)))
    [ ("id", AF_ID A); ("title", AF_TITLE A); ("content", AF_CONTENT A);
      ("creator", AF_CREATOR A); ("createTime", AF_CREATE_TIME A);
      ("lastUpdateTime", AF_LAST_UPDATE_TIME A); ("status", AF_STATUS A) ]%string
  /\ (exists b, getField a "isPinned" = PBool b
                /\ (b = true <-> row !! AF_IS_PINNED A = Some (js "TRUE")))
  /\ getField a "rowIndex" = PNum (Z.of_nat index + 2)
  /\ Forall (fun fi => getField c fi.1 = PStr (default [] (row !! fi.2)))
       [ ("createdTime", CF_TIME C); ("name", CF_NAME C);
         ("company", CF_COMPANY C); ("position", CF_POSITION C);
         ("department", CF_DEPARTMENT C); ("phone", CF_PHONE C);
         ("mobile", CF_MOBILE C); ("email", CF_EMAIL C);
         ("website", CF_WEBSITE C); ("address", CF_ADDRESS C);
         ("confidence", CF_CONFIDENCE C); ("status", CF_STATUS C);
         ("driveLink", CF_DRIVE_LINK C); ("cardImage", CF_DRIVE_LINK C);
         ("lineUserId", CF_LINE_USER_ID C);
         ("userNickname", CF_USER_NICKNAME C) ]%string
  /\ getField c "rowIndex" = PNum (Z.of_nat index + 2)
  /\ length (imap (fun i r => AnnouncementReader.rowParser r i) rows) = length rows
  /\ length (imap (fun i r => ContactReader.rowParser r i) rows) = length rows
  /\ (forall i r, rows !! i = Some r ->
        imap (fun i r => AnnouncementReader.rowParser r i) rows !! i
          = Some (AnnouncementReader.rowParser r i)
        /\ imap (fun i r => ContactReader.rowParser r i) rows !! i
           = Some (ContactReader.rowParser r i)).
Proof.
  intros A C a c. subst a c A C.
  unfold AnnouncementReader.rowParser, ContactReader.rowParser.
  rewrite !por_cell. repeat split.
  - repeat constructor.
  - eexists. split; [reflexivity|]. apply strictEq_cell.
  - repeat constructor.
  - apply length_imap.
  - apply length_imap.
  - rewrite list_lookup_imap. by destruct (rows !! _) as [r'|]; simplify_eq.
  - rewrite list_lookup_imap. by destruct (rows !! _) as [r'|]; simplify_eq.
Qed.

End ParserFacts.

(** ** Joins *)

Section JoinFacts.
Context `{Engine}.
Import ContactReader.

Lemma foldl_addCard (l : list Obj) (m : gmap jsstring Prim) (key : jsstring) :
  foldl addCard m l !! key
  = match m !! key with
    | Some v => Some v
    | None =>
        (fun pc => getField pc "driveLink")
          <$> List.find (fun pc =>
                hasCard pc
                && bool_decide (cardKey (getField pc "name") (getField pc "company") = key))
              l
    end.
Proof.
  revert m. induction l as [|pc l IH]; intros m; simpl.
  { by destruct (m !! key). }
  rewrite IH. unfold addCard.
  destruct (hasCard pc) eqn:Hc; simpl; [|done].
  set (k := cardKey (getField pc "name") (getField pc "company")).
  destruct (decide (k = key)) as [->|Hne].
  - rewrite bool_decide_eq_true_2 by done.
    destruct (m !! key) as [v|] eqn:Hm; [by rewrite Hm|].
    by rewrite lookup_insert_eq.
  - rewrite bool_decide_eq_false_2 by done.
    destruct (m !! k) as [v|] eqn:Hm; [done|].
    by rewrite lookup_insert_ne.
Qed.

Lemma newMap_lookup (entries : list (Prim * Prim)) (k : Prim) :
  newMap entries !! k
  = snd <$> List.find (fun kv => bool_decide (fst kv = k)) (rev entries).
Proof.
  unfold newMap. induction entries as [|kv l IH] using rev_ind; [done|].
  rewrite foldl_app, rev_app_distr. simpl.
  destruct (decide (kv.1 = k)) as [->|Hne].
  - rewrite bool_decide_eq_true_2 by done. by rewrite lookup_insert_eq.
  - rewrite bool_decide_eq_false_2 by done. by rewrite lookup_insert_ne.
Qed.

Lemma find_map {A B} (f : A -> B) (p : B -> bool) (l : list A) :
  List.find p (map f l) = f <$> List.find (fun x => p (f x)) l.
Proof. induction l as [|x l IH]; simpl; [done|]. by destruct (p (f x)). Qed.

(** C4, as the code has it: the card map of [getLinkedContacts] keeps the
    first potential contact that carries a name, a company and a drive
    link under a key; the company-name map, built by the [Map] constructor,
    keeps the last company under an identifier. *)
Theorem join_map_collisions (allPotentialContacts allCompanies : list Obj)
    (key : jsstring) (companyId : Prim) :
  potentialCardMap allPotentialContacts !! key
  = (fun pc => getField pc "driveLink")
      <$> List.find (fun pc =>
            hasCard pc
            && bool_decide (cardKey (getField pc "name") (getField pc "company") = key))
          allPotentialContacts
  /\ companyNameMap allCompanies !! companyId
     = (fun c => getField c "companyName")
         <$> List.find (fun c => bool_decide (getField c "companyId" = companyId))
               (rev allCompanies).
Proof.
  split.
  - unfold potentialCardMap. by rewrite foldl_addCard, lookup_empty.
  - unfold companyNameMap. rewrite newMap_lookup, <- map_rev, find_map.
    simpl. by destruct (List.find _ _).
Qed.

Lemma linkedContactIds_none (opportunityId : Prim) (allLinks : list Obj)
    (ids : gset Prim) :
  (forall link, link ∈ allLinks ->
     ~ (getField link "opportunityId" = opportunityId
        /\ getField link "status" = PStr (js "active"))) ->
  foldl (fun ids link =>
           if strictEq (getField link "opportunityId") opportunityId
              && strictEq (getField link "status") (PStr (js "active"))
           then {[ getField link "contactId" ]} ∪ ids
           else ids) ids allLinks = ids.
Proof.
  revert ids. induction allLinks as [|link l IH]; intros ids Hno; simpl; [done|].
  destruct (strictEq _ _ && strictEq _ _) eqn:E.
  - exfalso. apply andb_true_iff in E as [E1 E2].
    unfold strictEq in E1, E2. apply bool_decide_eq_true in E1, E2.
    apply (Hno link); [by left|done].
  - apply IH. intros link' Hin. apply Hno. by right.
Qed.

(** The identifiers collected by the loop over the links. *)
Lemma linkedContactIds_fold (opportunityId : Prim) (allLinks : list Obj)
    (ids : gset Prim) (id : Prim) :
  id ∈ foldl (fun ids link =>
                if strictEq (getField link "opportunityId") opportunityId
                   && strictEq (getField link "status") (PStr (js "active"))
                then {[ getField link "contactId" ]} ∪ ids
                else ids) ids allLinks
  <-> id ∈ ids \/ Exists (activeLink opportunityId id) allLinks.
Proof.
  revert ids. induction allLinks as [|link l IH]; intros ids; simpl.
  - rewrite Exists_nil. tauto.
  - rewrite IH, Exists_cons. unfold activeLink at 2, strictEq.
    destruct (decide (getField link "opportunityId" = opportunityId)) as [Ho|Ho];
      destruct (decide (getField link "status" = PStr (js "active"))) as [Hs|Hs];
      rewrite ?(bool_decide_eq_true_2 _ Ho), ?(bool_decide_eq_false_2 _ Ho),
        ?(bool_decide_eq_true_2 _ Hs), ?(bool_decide_eq_false_2 _ Hs); simpl;
      try tauto.
    rewrite elem_of_union, elem_of_singleton. intuition congruence.
Qed.

Lemma linkedContactIds_spec (opportunityId : Prim) (allLinks : list Obj) (id : Prim) :
  id ∈ ContactReader.linkedContactIds opportunityId allLinks
  <-> Exists (activeLink opportunityId id) allLinks.
Proof.
  unfold ContactReader.linkedContactIds. rewrite linkedContactIds_fold.
  rewrite elem_of_empty. tauto.
Qed.

(** What the callback of the final [map] returns on a miss. *)
Lemma enrich_degrades (companies : gmap Prim Prim) (cards : gmap jsstring Prim)
    (contact : Obj) :
  let r := enrich companies cards contact in
  getField r "contactId" = getField contact "contactId"
  /\ getField r "name" = getField contact "name"
  /\ (companies !! getField contact "companyId" = None ->
      getField r "companyName" = PStr [] /\ getField r "driveLink" = PStr [])
  /\ (cards !! cardKey (getField contact "name") (getField r "companyName") = None ->
      getField r "driveLink" = PStr []).
Proof.
  intros r. subst r. split; [done|]. split; [done|]. split.
  - intros Hmiss. unfold enrich, mapGet. rewrite Hmiss. simpl.
    split; [done|].
    destruct (truthy (pand _ _)) eqn:E; [|done].
    unfold pand in E.
    destruct (truthy (getField contact "name")) eqn:En; [done|congruence].
  - unfold enrich at 1. simpl. intros Hmiss. unfold enrich. simpl.
    unfold mapGet at 2. rewrite Hmiss. simpl.
    by destruct (truthy (pand _ _)).
Qed.

(** The records of the result, one by one. *)
Lemma getLinkedContacts_elem (opportunityId : Prim)
    (allLinks allContacts allCompanies allPotentialContacts : list Obj) (r : Obj) :
  r ∈ getLinkedContacts opportunityId allLinks allContacts allCompanies
        allPotentialContacts
  <-> exists contact,
        r = enrich (companyNameMap allCompanies)
              (potentialCardMap allPotentialContacts) contact
        /\ contact ∈ allContacts
        /\ Exists (activeLink opportunityId (getField contact "contactId")) allLinks.
Proof.
  unfold getLinkedContacts.
  set (ids := linkedContactIds opportunityId allLinks).
  case_bool_decide as Hsize.
  - apply size_empty_inv in Hsize. split.
    + intros Hr. by apply elem_of_nil in Hr.
    + intros (contact & _ & _ & Hlink).
      apply linkedContactIds_spec in Hlink. fold ids in Hlink.
      rewrite Hsize in Hlink. by apply elem_of_empty in Hlink.
  - rewrite list_elem_of_fmap. split.
    + intros (contact & -> & Hc). apply list_elem_of_filter in Hc as [Hid Hc].
      exists contact. split; [done|]. split; [done|].
      by apply linkedContactIds_spec.
    + intros (contact & -> & Hc & Hlink). exists contact. split; [done|].
      apply list_elem_of_filter. split; [|done].
      by apply linkedContactIds_spec.
Qed.

(** C9. The linked-contacts join is a total function. With no active link
    for the opportunity the result is empty. Every enriched contact comes
    from an official contact, and every official contact with an active
    link to the opportunity is returned, with its identifier and its
    name, whatever the two maps hold: its company name is the empty string
    when the company map has no entry for its identifier, and its drive
    link is the empty string when the company is unmatched or the card map
    has no entry for its key. *)
Theorem unmatched_joins_degrade (opportunityId : Prim)
    (allLinks allContacts allCompanies allPotentialContacts : list Obj) :
  let result := getLinkedContacts opportunityId allLinks allContacts
                  allCompanies allPotentialContacts in
  ((forall link, link ∈ allLinks ->
      ~ (getField link "opportunityId" = opportunityId
         /\ getField link "status" = PStr (js "active"))) ->
   result = [])
  /\ (forall r, r ∈ result ->
        exists contact,
          contact ∈ allContacts
          /\ getField r "contactId" = getField contact "contactId"
          /\ (companyNameMap allCompanies !! getField contact "companyId" = None ->
              getField r "companyName" = PStr []
              /\ getField r "driveLink" = PStr [])
          /\ (potentialCardMap allPotentialContacts
                !! cardKey (getField contact "name") (getField r "companyName") = None ->
              getField r "driveLink" = PStr []))
  /\ (forall contact,
        contact ∈ allContacts ->
        Exists (activeLink opportunityId (getField contact "contactId")) allLinks ->
        exists r,
          r ∈ result
          /\ getField r "contactId" = getField contact "contactId"
          /\ getField r "name" = getField contact "name"
          /\ (companyNameMap allCompanies !! getField contact "companyId" = None ->
              getField r "companyName" = PStr []
              /\ getField r "driveLink" = PStr [])
          /\ (potentialCardMap allPotentialContacts
                !! cardKey (getField contact "name") (getField r "companyName") = None ->
              getField r "driveLink" = PStr [])).
Proof.
  intros result. subst result. split; [|split].
  - intros Hno. unfold getLinkedContacts, linkedContactIds.
    rewrite linkedContactIds_none by done. done.
  - intros r Hr. apply getLinkedContacts_elem in Hr as (contact & -> & Hc & _).
    exists contact. split; [done|].
    destruct (enrich_degrades (companyNameMap allCompanies)
                (potentialCardMap allPotentialContacts) contact)
      as (Hid & _ & Hco & Hca).
    done.
  - intros contact Hc Hlink.
    exists (enrich (companyNameMap allCompanies)
              (potentialCardMap allPotentialContacts) contact).
    split; [|apply enrich_degrades].
    apply getLinkedContacts_elem. by exists contact.
Qed.

End JoinFacts.

(** ** Sorting and the contact list *)

Lemma insertSorted_Permutation {A} (f : A -> A -> JsNum) (x : A) (l : list A) :
  insertSorted f x l ≡ₚ x :: l.
Proof.
  induction l as [|y t IH]; simpl; [done|].
  destruct (placedAfter f x y); [|done].
  rewrite IH. apply Permutation_swap.
Qed.

Lemma sortBy_Permutation {A} (f : A -> A -> JsNum) (l : list A) :
  sortBy f l ≡ₚ l.
Proof.
  unfold sortBy. induction l as [|x t IH]; simpl; [done|].
  by rewrite insertSorted_Permutation, IH.
Qed.

Lemma sortBy_length {A} (f : A -> A -> JsNum) (l : list A) :
  length (sortBy f l) = length l.
Proof. apply Permutation_length, sortBy_Permutation. Qed.

Lemma slice0_prefix {A} (l : list A) (e : Z) :
  0 <= e -> slice0 l e = take (Z.to_nat (Z.min e (Z.of_nat (length l)))) l.
Proof.
  intros He. unfold slice0.
  destruct (e <? 0) eqn:E; [apply Z.ltb_lt in E; lia|].
  destruct (decide (e <= Z.of_nat (length l))) as [Hle|Hgt].
  - by rewrite Z.min_l.
  - rewrite Z.min_r, Nat2Z.id by lia.
    rewrite firstn_all. apply take_ge. lia.
Qed.

Section ContactListFacts.
Context `{Engine} `{Reader}.

(** C10. A call of [getContacts(L)] that finds no fresh entry reads the
    sheet once, returns the first min(L, N) records of the parsed and sorted
    sequence, and stores the whole sequence under ['contacts'] whatever [L]
    is; a later call inside the window returns the first min(L2, N) records
    of the same sequence and leaves the world, its call counter included,
    as it was. *)
Theorem getContacts_prefix_of_cached (w : World) (now t2 L L2 : Z)
    (values : option (list Row)) :
  0 <= L -> 0 <= L2 ->
  (forall e, cache w !! "contacts"%string = Some e ->
             CACHE_DURATION <= now - timestamp e) ->
  sheets {| spreadsheetId := targetSpreadsheetId;
            range := RANGE_CONTACTS config |} (calls w) = Resolve values ->
  t2 - now < CACHE_DURATION ->
  let full := sortBy ContactReader.sorter
                (imap (fun i r => ContactReader.rowParser r i)
                      (valuesOrEmpty values)) in
  let first := ContactReader.getContacts L now w in
  length full = length (valuesOrEmpty values)
  /\ first.1 = Some (take (Z.to_nat (Z.min L (Z.of_nat (length full)))) full)
  /\ cache first.2
     = <["contacts"%string := {| data := DRows full; timestamp := now |}]> (cache w)
  /\ calls first.2 = S (calls w)
  /\ ContactReader.getContacts L2 t2 first.2
     = (Some (take (Z.to_nat (Z.min L2 (Z.of_nat (length full)))) full), first.2).
Proof.
  intros HL HL2 Hstale Hres Hwin full first.
  assert (BaseReader._fetchAndCache "contacts" (RANGE_CONTACTS config)
            ContactReader.rowParser (Some ContactReader.sorter) now w
          = (DRows full,
             setCache {| cache := cache w; calls := S (calls w) |} "contacts"
               {| data := DRows full; timestamp := now |})) as E1.
  { unfold BaseReader._fetchAndCache.
    assert (match cache w !! "contacts"%string with
            | Some e => if now - timestamp e <? CACHE_DURATION
                        then Some (data e) else None
            | None => None
            end = None) as ->.
    { destruct (cache w !! "contacts"%string) as [e|] eqn:He; [|done].
      specialize (Hstale e eq_refl).
      destruct (now - timestamp e <? CACHE_DURATION) eqn:E; [|done].
      apply Z.ltb_lt in E. lia. }
    unfold values_get. by rewrite Hres. }
  assert (first = (Some (slice0 full L),
                   setCache {| cache := cache w; calls := S (calls w) |} "contacts"
                     {| data := DRows full; timestamp := now |})) as Ef.
  { subst first. unfold ContactReader.getContacts. by rewrite E1. }
  rewrite Ef. simpl. split.
  { subst full. by rewrite sortBy_length, length_imap. }
  split; [by rewrite slice0_prefix|]. split; [done|]. split; [done|].
  unfold ContactReader.getContacts, BaseReader._fetchAndCache. simpl.
  rewrite lookup_insert_eq. simpl.
  apply Z.ltb_lt in Hwin. rewrite Hwin. by rewrite slice0_prefix.
Qed.

End ContactListFacts.

(** ** Last activity *)

Lemma getField_setField_eq (o : Obj) (k : string) (v : Prim) :
  getField (setField o k v) k = v.
Proof.
  induction o as [|[k' v'] o IH]; simpl.
  - by rewrite String.eqb_refl.
  - destruct (String.eqb k' k) eqn:E; simpl; rewrite E; [done|apply IH].
Qed.

Lemma getField_setField_ne (o : Obj) (k k' : string) (v : Prim) :
  k <> k' -> getField (setField o k v) k' = getField o k'.
Proof.
  intros Hne. induction o as [|[k0 v0] o IH]; simpl.
  - destruct (String.eqb k k') eqn:E; [|done]. by apply String.eqb_eq in E.
  - destruct (String.eqb k0 k) eqn:E; simpl.
    + apply String.eqb_eq in E as ->.
      destruct (String.eqb k k') eqn:E'; [|done]. by apply String.eqb_eq in E'.
    + by rewrite IH.
Qed.

Section ActivityFacts.
Context `{Engine}.
Import CompanyService.

Lemma getField_dropSortTs (o : Obj) (k : string) :
  k <> "_sortTs"%string -> getField (dropSortTs o) k = getField o k.
Proof.
  intros Hne. unfold dropSortTs. induction o as [|[k0 v0] o IH]; [done|].
  rewrite filter_cons. simpl.
  destruct (decide (k0 <> "_sortTs"%string)) as [Hk|Hk]; simpl.
  - by rewrite IH.
  - rewrite IH. destruct (String.eqb k0 k) eqn:E; [|done].
    apply String.eqb_eq in E. subst. by destruct Hk.
Qed.

Lemma shown_lastActivity (m : gmap Prim Z) (comp : Obj) :
  getField (dropSortTs (withActivity m comp)) "lastActivity"
  = lastActivityOf (lastTsOf m comp).
Proof.
  rewrite getField_dropSortTs by done. unfold withActivity.
  rewrite getField_setField_ne by done. apply getField_setField_eq.
Qed.

Lemma positive_floor (m : gmap Prim Z) (k : Prim) :
  positive m -> 0 <= default 0 (m !! k).
Proof.
  intros Hp. destruct (m !! k) as [v|] eqn:E; simpl; [|done].
  specialize (Hp k v E). lia.
Qed.

Lemma updateActivity_spec (m : gmap Prim Z) (ev : Prim * Prim) (id : Prim) :
  positive m ->
  positive (updateActivity m ev.1 ev.2)
  /\ default 0 (updateActivity m ev.1 ev.2 !! id)
     = Z.max (default 0 (m !! id)) (stamp id ev).
Proof.
  intros Hp. destruct ev as [cid ds]. simpl.
  pose proof (positive_floor m id Hp) as Hid.
  pose proof (positive_floor m cid Hp) as Hcur.
  unfold updateActivity, stamp. simpl.
  destruct (truthy cid) eqn:T1; simpl;
    [|split; [done|rewrite andb_false_r; simpl; lia]].
  destruct (truthy ds) eqn:T2; simpl;
    [|split; [done|rewrite andb_false_r; simpl; lia]].
  rewrite andb_true_r.
  destruct (dateValue ds) as [|ts].
  { split; [done|]. destruct (bool_decide (cid = id)); simpl; lia. }
  destruct (default 0 (m !! cid) <? ts) eqn:E.
  - apply Z.ltb_lt in E. split.
    + intros k v. destruct (decide (cid = k)) as [->|Hne].
      * rewrite lookup_insert_eq. intros [= <-]. lia.
      * rewrite lookup_insert_ne by done. apply Hp.
    + destruct (decide (cid = id)) as [->|Hne].
      * rewrite bool_decide_eq_true_2 by done.
        rewrite lookup_insert_eq. simpl. lia.
      * rewrite bool_decide_eq_false_2 by done.
        rewrite lookup_insert_ne by done. simpl. lia.
  - apply Z.ltb_ge in E. split; [done|].
    destruct (decide (cid = id)) as [->|Hne].
    + rewrite bool_decide_eq_true_2 by done. simpl. lia.
    + rewrite bool_decide_eq_false_2 by done. simpl. lia.
Qed.

Lemma foldl_updateActivity (evs : list (Prim * Prim)) (m : gmap Prim Z) (id : Prim) :
  positive m ->
  positive (foldl (fun m ev => updateActivity m ev.1 ev.2) m evs)
  /\ default 0 (foldl (fun m ev => updateActivity m ev.1 ev.2) m evs !! id)
     = Z.max (default 0 (m !! id)) (peak id evs).
Proof.
  revert m. induction evs as [|ev evs IH]; intros m Hp; simpl.
  - split; [done|]. pose proof (positive_floor m id Hp). lia.
  - destruct (updateActivity_spec m ev id Hp) as [Hp' Hv].
    destruct (IH _ Hp') as [Hp'' Hv'']. split; [done|].
    rewrite Hv'', Hv. lia.
Qed.

Lemma activityMap_events (interactions eventLogs : list Obj) :
  activityMap interactions eventLogs
  = foldl (fun m ev => updateActivity m ev.1 ev.2) ∅
      (activityEvents interactions eventLogs).
Proof.
  unfold activityMap, activityEvents. rewrite foldl_app.
  assert (forall (f : Obj -> Prim * Prim) l m,
            foldl (fun m item => updateActivity m (f item).1 (f item).2) m l
            = foldl (fun m ev => updateActivity m ev.1 ev.2) m (map f l)) as Hmap.
  { intros f l. induction l as [|x l IH]; intros m; simpl; [done|apply IH]. }
  by rewrite <- !Hmap.
Qed.

Lemma activityMap_spec (interactions eventLogs : list Obj) (id : Prim) :
  positive (activityMap interactions eventLogs)
  /\ default 0 (activityMap interactions eventLogs !! id)
     = peak id (activityEvents interactions eventLogs).
Proof.
  rewrite activityMap_events.
  destruct (foldl_updateActivity (activityEvents interactions eventLogs) ∅ id)
    as [Hp Hv]; [intros k v; by rewrite lookup_empty|].
  split; [done|]. rewrite Hv, lookup_empty. simpl.
  assert (forall evs, 0 <= peak id evs) as Hnn.
  { induction evs; simpl; lia. }
  specialize (Hnn (activityEvents interactions eventLogs)). lia.
Qed.

Lemma peak_none (id : Prim) (evs : list (Prim * Prim)) :
  (forall ev, ev ∈ evs -> ev.1 <> id) -> peak id evs = 0.
Proof.
  induction evs as [|ev evs IH]; intros Hno; simpl; [done|].
  rewrite IH by (intros ev' Hin; apply Hno; by right).
  unfold stamp. rewrite bool_decide_eq_false_2; [done|].
  apply Hno. by left.
Qed.

Lemma stamp_invalid (id ds : Prim) :
  truthy ds = false \/ dateValue ds = NaN -> stamp id (id, ds) = 0.
Proof.
  unfold stamp. simpl. intros [-> | ->].
  - by rewrite andb_false_r.
  - by destruct (_ && _).
Qed.

Lemma stamp_other (id : Prim) (ev : Prim * Prim) : ev.1 <> id -> stamp id ev = 0.
Proof. intros Hne. unfold stamp. by rewrite bool_decide_eq_false_2. Qed.

Lemma peak_invalid (id : Prim) (evs : list (Prim * Prim)) :
  (forall j ds', evs !! j = Some (id, ds') ->
     truthy ds' = false \/ dateValue ds' = NaN) ->
  peak id evs = 0.
Proof.
  induction evs as [|[cid ds'] evs IH]; intros Hrest; simpl; [done|].
  rewrite IH by (intros j; apply (Hrest (S j))).
  destruct (decide (cid = id)) as [->|Hne].
  - by rewrite stamp_invalid by (apply (Hrest 0%nat); done).
  - by rewrite stamp_other.
Qed.

Lemma peak_single (id : Prim) (evs : list (Prim * Prim)) (i : nat)
    (ds : Prim) (ts : Z) :
  truthy id = true ->
  evs !! i = Some (id, ds) ->
  truthy ds = true ->
  dateValue ds = Num ts ->
  0 < ts ->
  (forall j ds', j <> i -> evs !! j = Some (id, ds') ->
     truthy ds' = false \/ dateValue ds' = NaN) ->
  peak id evs = ts.
Proof.
  intros Hid. revert i.
  induction evs as [|[cid ds0] evs IH]; intros i Hi Hds Hts Hpos Hothers; [done|].
  simpl. destruct i as [|i]; simpl in Hi.
  - injection Hi as -> ->.
    rewrite peak_invalid
      by (intros j ds' Hj; apply (Hothers (S j)); auto with lia).
    unfold stamp. simpl. rewrite bool_decide_eq_true_2 by done.
    rewrite Hid, Hds, Hts. simpl. lia.
  - rewrite (IH i) by
      (try done; intros j ds' Hj Hj'; apply (Hothers (S j)); auto with lia).
    destruct (decide (cid = id)) as [->|Hne].
    + rewrite stamp_invalid by (apply (Hothers 0%nat); auto with lia). lia.
    + rewrite stamp_other by done. lia.
Qed.

(** C8, as the code has it. The result lists every company that passed
    step 1 with its [lastActivity]. With no event for the company it is the
    creation time, when that is a valid time value other than 0, and [null]
    when the creation time is missing or invalid. With exactly one valid
    event for the company, dated after the epoch, it is that event's time.
    An event whose date does not parse leaves the map as it was. *)
Theorem last_activity_fallback (filters : Filters)
    (companiesRaw interactions eventLogs companies : list Obj) :
  memoryFilter filters companiesRaw = Some companies ->
  let m := activityMap interactions eventLogs in
  let events := activityEvents interactions eventLogs in
  getCompanyListWithActivity filters companiesRaw interactions eventLogs
    ≡ₚ map (fun comp => dropSortTs (withActivity m comp)) companies
  /\ (forall comp,
        let id := getField comp "companyId" in
        let shown := getField (dropSortTs (withActivity m comp)) "lastActivity" in
        ((forall ev, ev ∈ events -> ev.1 <> id) ->
         (forall c, dateValue (getField comp "createdTime") = Num c -> c <> 0 ->
                    shown = PStr (toISOString c))
         /\ (dateValue (getField comp "createdTime") = NaN -> shown = PNull))
        /\ (forall i ds ts,
              truthy id = true ->
              events !! i = Some (id, ds) ->
              truthy ds = true ->
              dateValue ds = Num ts ->
              0 < ts ->
              (forall j ds', j <> i -> events !! j = Some (id, ds') ->
                 truthy ds' = false \/ dateValue ds' = NaN) ->
              shown = PStr (toISOString ts)))
  /\ (forall m' companyId dateStr,
        dateValue dateStr = NaN -> updateActivity m' companyId dateStr = m').
Proof.
  intros Hfilter m events. split; [|split].
  - unfold getCompanyListWithActivity. rewrite Hfilter.
    rewrite sortBy_Permutation. by rewrite map_map.
  - intros comp id shown. subst shown. rewrite shown_lastActivity.
    destruct (activityMap_spec interactions eventLogs id) as [Hp Hv].
    fold m in Hp, Hv. fold events in Hv. split.
    + intros Hno. rewrite (peak_none id events Hno) in Hv.
      assert (m !! id = None) as Hnone.
      { destruct (m !! id) as [v|] eqn:E; [|done].
        specialize (Hp id v E). simpl in Hv. lia. }
      unfold lastTsOf. fold id. rewrite Hnone. simpl. split.
      * intros c Hc Hc0.
        assert (truthy (getField comp "createdTime") = true) as ->.
        { destruct (getField comp "createdTime") as [| |[]|n|[|u s]]; simpl in *;
            try done; try congruence.
          - destruct (Z.abs n <=? 8640000000000000); [|done].
            injection Hc as <-. by apply negb_true_iff, Z.eqb_neq.
          - by rewrite Date_parse_empty in Hc. }
        rewrite Hc. simpl. by apply Z.eqb_neq in Hc0 as ->.
      * intros Hnan. rewrite Hnan. by destruct (truthy _).
    + intros i ds ts Hid Hi Hds Hts Hpos Hothers.
      rewrite (peak_single id events i ds ts) in Hv by done.
      assert (m !! id = Some ts) as Hsome.
      { destruct (m !! id) as [v|] eqn:E; simpl in Hv; [by subst|lia]. }
      unfold lastTsOf. fold id. rewrite Hsome.
      assert ((ts =? 0) = false) as E0 by (apply Z.eqb_neq; lia).
      rewrite E0. simpl. by rewrite E0.
  - intros m' companyId dateStr Hnan. unfold updateActivity. rewrite Hnan.
    by destruct (_ || _).
Qed.

End ActivityFacts.

(** ** The announcement sorter *)

Section AnnouncementFacts.
Context `{Engine}.
Import AnnouncementReader.

Lemma sorter_pinned_first (a b : Obj) :
  truthy (getField a "isPinned") = true ->
  truthy (getField b "isPinned") = false ->
  sorter a b = Num (-1) /\ sorter b a = Num 1.
Proof. intros Ha Hb. unfold sorter. by rewrite Ha, Hb. Qed.

Lemma sorter_later_first (a b : Obj) (ta tb : Z) :
  truthy (getField a "isPinned") = truthy (getField b "isPinned") ->
  dateValue (getField a "lastUpdateTime") = Num ta ->
  dateValue (getField b "lastUpdateTime") = Num tb ->
  sorter a b = Num (tb - ta).
Proof.
  intros Hp Ha Hb. unfold sorter. rewrite Hp, Ha, Hb.
  by destruct (truthy (getField b "isPinned")).
Qed.

Lemma sorter_undated (a b : Obj) :
  truthy (getField a "isPinned") = truthy (getField b "isPinned") ->
  getField a "lastUpdateTime" = PStr [] ->
  sorter a b = NaN /\ sorter b a = NaN.
Proof.
  intros Hp Ha. unfold sorter. rewrite Hp, Ha. simpl.
  rewrite Date_parse_empty.
  destruct (truthy (getField b "isPinned")); simpl;
    by destruct (dateValue (getField b "lastUpdateTime")).
Qed.

(** C5 fails on the code. Of two announcements that are both unpinned (or
    both pinned), one with an empty [lastUpdateTime] and one with any other,
    the sort keeps the order they came in: the comparator returns NaN, which
    counts as a tie, so the undated record stays in front when its row comes
    first. The sorter has no [isNaN] guard, unlike the sorter of
    [getContacts]. *)
Theorem undated_announcement_keeps_its_place (idA idB t : jsstring) (pinned : bool) :
  let undated := announcement idA [] pinned in
  let dated := announcement idB t pinned in
  sorter undated dated = NaN
  /\ sortBy sorter [undated; dated] = [undated; dated]
  /\ sortBy sorter [dated; undated] = [dated; undated].
Proof.
  intros undated dated.
  destruct (sorter_undated undated dated) as [E1 E2]; [done|done|].
  split; [done|]. unfold sortBy, placedAfter. simpl.
  unfold placedAfter. by rewrite E1, E2.
Qed.

End AnnouncementFacts.

(** ** Worked instances *)


Example fetchAndCache_served_without_fetch_ex :
  let R := scriptedReader [Resolve (Some usersSheet)] 300000 in
  servedFromCache
    (@BaseReader._fetchAndCache R "contactList" "ContactList!A:M"
       ContactReader.contactListParser None) emptyWorld 1000 2000.
Proof.
  intros R. apply fetchAndCache_served_without_fetch; [lia|].
  vm_compute. reflexivity.
Qed.

Lemma failed_read_caches_nothing_witness :
  let E := tableEngine [] in
  let R := scriptedReader [] 300000 in
  (@SystemReader.getUsers E R 1000 emptyWorld).1 = DRows []
  /\ (@SystemReader.getSystemConfig E R 1000 emptyWorld).1 = DSettings []
  /\ (@WeeklyBusinessReader.getWeeklySummary R emptyWorld).1 = DRows []
  /\ calls (@SystemReader.getUsers E R 2000
              (@SystemReader.getUsers E R 1000 emptyWorld).2).2 = 2%nat.
Proof.
  intros E R.
  destruct (@failed_read_caches_nothing E R emptyWorld 1000 2000)
    as (H1 & H2 & H3); [lia|].
  destruct H1 as (U1 & _ & _ & U4); [vm_compute; reflexivity|reflexivity|].
  destruct H2 as (S1 & _); [vm_compute; reflexivity|reflexivity|].
  destruct H3 as (W1 & _); [reflexivity|].
  repeat split; assumption.
Defined.

Lemma rowParser_defaults_witness :
  let R := scriptedReader [] 300000 in
  imap (fun i r => @AnnouncementReader.rowParser R r i) announcementsSheet !! 0%nat
  = Some [ ("rowIndex", PNum 2); ("id", PStr (js "A1"));
           ("title", PStr (js "Undated notice")); ("content", PStr []);
           ("creator", PStr []); ("createTime", PStr []);
           ("lastUpdateTime", PStr []); ("status", PStr []);
           ("isPinned", PBool false) ].
Proof.
  intros R.
  destruct (@rowParser_defaults R [] 0 announcementsSheet)
    as (_ & _ & _ & _ & _ & _ & _ & Hrows).
  destruct (Hrows 0%nat [js "A1"; js "Undated notice"] eq_refl) as [Ha _].
  exact Ha.
Defined.

Lemma getContacts_prefix_of_cached_witness :
  let E := tableEngine sampleDates in
  let R := scriptedReader [Resolve (Some contactsSheet)] 300000 in
  let first := @ContactReader.getContacts E R 2 1000 emptyWorld in
  let second := @ContactReader.getContacts E R 5 2000 first.2 in
  map (fun o => getField o "name") (default [] first.1)
  = [PStr (js "Carol"); PStr (js "Bob")]
  /\ map (fun o => getField o "name") (default [] second.1)
     = [PStr (js "Carol"); PStr (js "Bob"); PStr (js "Alice")]
  /\ calls second.2 = 1%nat.
Proof.
  intros E R first second.
  destruct (@getContacts_prefix_of_cached E R emptyWorld 1000 2000 2 5
              (Some contactsSheet)) as (_ & H1 & _ & H3 & H2);
    [lia|lia| |reflexivity|vm_compute; reflexivity|].
  { intros e He. vm_compute in He. discriminate. }
  subst second first. rewrite H2. simpl. rewrite H1, H3.
  repeat split; vm_compute; reflexivity.
Defined.

(** C4 as stated fails for the company-name map: of two companies with the
    identifier C1 the join shows the second one's name. *)
Lemma company_map_keeps_last :
  mapGet (ContactReader.companyNameMap [acmeFirst; acmeSecond]) (PStr (js "C1"))
    <> getField acmeFirst "companyName"
  /\ map (fun c => getField c "companyName")
       (ContactReader.searchContactList_joined [annContact] [acmeFirst; acmeSecond])
     = [getField acmeSecond "companyName"].
Proof. split; [vm_compute; discriminate|vm_compute; reflexivity]. Qed.

Lemma unmatched_joins_degrade_witness :
  let E := tableEngine [] in
  @ContactReader.getLinkedContacts E (PStr (js "O2")) [annLink] [annContact]
     [acmeFirst] [] = []
  /\ (exists r,
        @ContactReader.getLinkedContacts E (PStr (js "O1")) [annLink]
          [annContact] [] [] = [r]
        /\ getField r "contactId" = getField annContact "contactId"
        /\ getField r "companyName" = PStr []
        /\ getField r "driveLink" = PStr [])
  /\ (exists r,
        @ContactReader.getLinkedContacts E (PStr (js "O1")) [annLink]
          [annContact] [acmeFirst] [] = [r]
        /\ getField r "contactId" = getField annContact "contactId"
        /\ getField r "companyName" = getField acmeFirst "companyName"
        /\ getField r "driveLink" = PStr []).
Proof.
  intros E.
  assert (Exists (activeLink (PStr (js "O1")) (getField annContact "contactId"))
            [annLink]) as Hlink.
  { apply Exists_cons_hd. split; [reflexivity|]. split; reflexivity. }
  assert (annContact ∈ [annContact]) as Hin by apply list_elem_of_here.
  split; [|split].
  - apply (@unmatched_joins_degrade E (PStr (js "O2")) [annLink] [annContact]
             [acmeFirst] []).
    intros link Hl [Hopp _]. apply list_elem_of_singleton in Hl. subst link.
    vm_compute in Hopp. discriminate.
  - destruct (@unmatched_joins_degrade E (PStr (js "O1")) [annLink] [annContact]
                [] []) as (_ & _ & Hall).
    destruct (Hall annContact Hin Hlink) as (r & Hr & Hid & _ & Hco & _).
    exists r. destruct (Hco (lookup_empty _)) as [Hname Hdrive].
    split; [|done].
    vm_compute in Hr. apply list_elem_of_singleton in Hr. by subst r.
  - destruct (@unmatched_joins_degrade E (PStr (js "O1")) [annLink] [annContact]
                [acmeFirst] []) as (_ & _ & Hall).
    destruct (Hall annContact Hin Hlink) as (r & Hr & Hid & _ & _ & Hca).
    exists r. specialize (Hca (lookup_empty _)).
    assert (@ContactReader.getLinkedContacts E (PStr (js "O1")) [annLink]
              [annContact] [acmeFirst] [] = [r]) as Hres.
    { vm_compute in Hr. apply list_elem_of_singleton in Hr. by subst r. }
    split; [done|]. split; [done|]. split; [|done].
    assert (r ∈ [r]) as Hr' by apply list_elem_of_here.
    rewrite <- Hres in Hr'. vm_compute in Hr'.
    apply list_elem_of_singleton in Hr'. by subst r.
Defined.

Lemma last_activity_fallback_witness :
  let E := tableEngine sampleDates in
  let m := @CompanyService.activityMap E [annInteraction] [] in
  getField (CompanyService.dropSortTs (@CompanyService.withActivity E m acmeFirst))
    "lastActivity" = PStr (js "2026-01-02T00:00:00.000Z")
  /\ getField (CompanyService.dropSortTs (@CompanyService.withActivity E m initech))
       "lastActivity" = PStr (js "2026-01-03T00:00:00.000Z").
Proof.
  intros E m.
  destruct (@last_activity_fallback E CompanyService.noFilters
              [acmeFirst; initech] [annInteraction] [] [acmeFirst; initech] eq_refl)
    as (_ & Hcomp & _).
  split.
  - destruct (Hcomp acmeFirst) as [_ Hone].
    apply (Hone 0%nat (PStr (js "2026-01-02T00:00:00.000Z")) 1767312000000);
      try reflexivity.
    intros [|j] ds' Hj Hlk; [done|]. vm_compute in Hlk. discriminate.
  - destruct (Hcomp initech) as [Hnone _].
    destruct Hnone as [Hcreated _].
    + intros ev Hin. apply list_elem_of_singleton in Hin. subst ev.
      vm_compute. discriminate.
    + apply (Hcreated 1767398400000); [reflexivity|lia].
Defined.

(** C8 as stated fails at the epoch. A company created at the time value
    0, with no event, is listed with [lastActivity: null] and not with its
    creation time; a company created two seconds before the epoch, whose one
    event is dated one second before it, is listed with its creation time
    and not with the event's. *)
Lemma epoch_creation_shows_null :
  let E := tableEngine sampleDates in
  let shown companies eventLogs :=
    map (fun r => getField r "lastActivity")
      (@CompanyService.getCompanyListWithActivity E CompanyService.noFilters
         companies [] eventLogs) in
  (@dateValue E (getField epochCompany "createdTime") = Num 0
   /\ shown [epochCompany] [] = [PNull]
   /\ shown [epochCompany] [] <> [PStr (@toISOString E 0)])
  /\ (@dateValue E (getField oldCompany "createdTime") = Num (-2000)
      /\ @dateValue E (getField oldEvent "createdTime") = Num (-1000)
      /\ shown [oldCompany] [oldEvent] = [PStr (@toISOString E (-2000))]
      /\ shown [oldCompany] [oldEvent] <> [PStr (@toISOString E (-1000))]).
Proof. repeat split; vm_compute; (reflexivity || discriminate). Qed.

(** The same through the reader: the undated row keeps its place in front
    of the dated one, and swapping the two rows swaps the result. *)
Example getAnnouncements_undated_first :
  let E := tableEngine sampleDates in
  let shown (sheet : list Row) :=
    match (@AnnouncementReader.getAnnouncements E
             (scriptedReader [Resolve (Some sheet)] 300000) 1000 emptyWorld).1 with
    | DRows rows => map (fun o => (getField o "id", getField o "lastUpdateTime")) rows
    | _ => []
    end in
  shown announcementsSheet
  = [ (PStr (js "A1"), PStr []);
      (PStr (js "A2"), PStr (js "2026-01-02T00:00:00.000Z")) ]
  /\ shown (rev announcementsSheet)
     = [ (PStr (js "A2"), PStr (js "2026-01-02T00:00:00.000Z"));
         (PStr (js "A1"), PStr []) ].
Proof. split; vm_compute; reflexivity. Qed.

(** The normaliser on a name with a suffix token and a parenthetical, and on
    the two names of section 8 of the spec: the suffix rules know the three
    Chinese tokens only, so "Co., Ltd." stays. *)
Example normalize_examples :
  let E := tableEngine [] in
  @CompanyService._normalizeCompanyName E
    (js " ACME (Taiwan) " ++ [cu_gu; cu_fen; cu_you; cu_xian; cu_gong; cu_si])
  = js "acme"
  /\ @CompanyService._normalizeCompanyName E (js "ACME Co., Ltd.")
     = js "acme co., ltd."
  /\ @CompanyService._normalizeCompanyName E (js "acme") = js "acme".
Proof. repeat split; vm_compute; reflexivity. Qed.

(** The settings builder: an enabled row adds an item to its type; a row
    whose type is a name found on [Object.prototype] throws. *)
Example buildSettings_examples :
  let E := tableEngine [] in
  let header := [js "type"; js "item"; js "order"; js "enabled"] in
  (snd <$> (@SystemReader.buildSettings E
              [header; [js "stage"; js "lead"; js "7"; js "TRUE"; js "Lead"]])
             ≫= last)
  = Some [ [("value", PStr (js "lead")); ("note", PStr (js "Lead"));
            ("order", PNum 7); ("color", PNull); ("value2", PNull);
            ("value3", PNull);
            ("category", PStr SystemReader.category_other)] ]
  /\ @SystemReader.buildSettings E
       [header; [js "constructor"; js "x"; js "1"; js "TRUE"]] = None.
Proof. split; vm_compute; reflexivity. Qed.

(** [getUsers] keeps the rows that carry a name and a hash, trimmed. *)
Example getUsers_example :
  let E := tableEngine [] in
  let R := scriptedReader [Resolve (Some ([js "x"] :: usersSheet))] 300000 in
  (@SystemReader.getUsers E R 1000 emptyWorld).1
  = DRows [ [("rowIndex", PNum 2); ("username", PStr (js "alice"));
             ("passwordHash", PStr (js "h1")); ("displayName", PStr (js "Alice"));
             ("role", PStr (js "admin"))];
            [("rowIndex", PNum 3); ("username", PStr (js "bob"));
             ("passwordHash", PStr (js "h2")); ("displayName", PStr []);
             ("role", PStr (js "sales"))] ].
Proof. vm_compute. reflexivity. Qed.

(* ===================================================================== *)
(** * Further properties of the code *)
(* ===================================================================== *)

(** ** What the sorters guarantee *)

(** The insertion step keeps a list sorted for every relation the
    comparator respects on the records at hand. *)
Lemma insertSorted_StronglySorted {A} (comparefn : A -> A -> JsNum)
    (R : A -> A -> Prop) (P : A -> Prop) (x : A) (l : list A) :
  (forall a b c, P a -> P b -> P c -> R a b -> R b c -> R a c) ->
  (forall a b, P a -> P b -> placedAfter comparefn a b = true -> R b a) ->
  (forall a b, P a -> P b -> placedAfter comparefn a b = false -> R a b) ->
  P x -> Forall P l ->
  StronglySorted R l -> StronglySorted R (insertSorted comparefn x l).
Proof.
  intros Htrans Hafter Hbefore Hx HP Hs.
  induction Hs as [|y t Hst IH Hy]; simpl.
  - repeat constructor.
  - apply Forall_cons in HP as [Py Pt].
    destruct (placedAfter comparefn x y) eqn:E.
    + constructor; [by apply IH|].
      rewrite insertSorted_Permutation. constructor; [by apply Hafter|done].
    + assert (R x y) as Hxy by (by apply Hbefore).
      constructor; [by constructor|]. constructor; [done|].
      rewrite Forall_forall in Hy, Pt. apply Forall_forall. intros z Hz.
      apply (Htrans x y z); auto.
Qed.

Lemma sortBy_StronglySorted {A} (comparefn : A -> A -> JsNum)
    (R : A -> A -> Prop) (P : A -> Prop) (l : list A) :
  (forall a b c, P a -> P b -> P c -> R a b -> R b c -> R a c) ->
  (forall a b, P a -> P b -> placedAfter comparefn a b = true -> R b a) ->
  (forall a b, P a -> P b -> placedAfter comparefn a b = false -> R a b) ->
  Forall P l -> StronglySorted R (sortBy comparefn l).
Proof.
  intros Htrans Hafter Hbefore HP. unfold sortBy.
  induction HP as [|x t Hx Ht IH]; simpl; [constructor|].
  apply (insertSorted_StronglySorted comparefn R P); auto.
  fold (sortBy comparefn t). by rewrite sortBy_Permutation.
Qed.

Section SorterFacts.
Context `{Engine}.

Lemma newestFirst_trans (field : string) (a b c : Obj) :
  newestFirst field a b -> newestFirst field b c -> newestFirst field a c.
Proof.
  unfold newestFirst.
  destruct (dateValue (getField a field)), (dateValue (getField b field)),
    (dateValue (getField c field)); try done. lia.
Qed.

(** The guarded comparator, the same text in [getContacts] and
    [getInteractions], on the field it reads. *)
Lemma guarded_sorter_after (field : string) (a b : Obj) :
  placedAfter (fun a b =>
     let dateA := dateValue (getField a field) in
     let dateB := dateValue (getField b field) in
     if isNaN dateB then Num (-1)
     else if isNaN dateA then Num 1
     else numSub dateB dateA) a b = true ->
  newestFirst field b a.
Proof.
  unfold placedAfter, newestFirst. simpl.
  destruct (dateValue (getField a field)) as [|ta],
    (dateValue (getField b field)) as [|tb]; simpl; try done.
  intros E. apply Z.ltb_lt in E. lia.
Qed.

Lemma guarded_sorter_before (field : string) (a b : Obj) :
  placedAfter (fun a b =>
     let dateA := dateValue (getField a field) in
     let dateB := dateValue (getField b field) in
     if isNaN dateB then Num (-1)
     else if isNaN dateA then Num 1
     else numSub dateB dateA) a b = false ->
  newestFirst field a b.
Proof.
  unfold placedAfter, newestFirst. simpl.
  destruct (dateValue (getField a field)) as [|ta],
    (dateValue (getField b field)) as [|tb]; simpl; try done.
  intros E. apply Z.ltb_ge in E. lia.
Qed.

(** X1. The sorter of [getContacts] and the sorter of [getInteractions]
    put the records whose date parses first, later dates before earlier
    ones, and every record whose date does not parse behind them; the
    sorted array holds the same records. *)
Theorem guarded_sorters_put_undated_last (contacts interactions : list Obj) :
  (StronglySorted (newestFirst "createdTime") (sortBy ContactReader.sorter contacts)
   /\ sortBy ContactReader.sorter contacts ≡ₚ contacts)
  /\ (StronglySorted (newestFirst "interactionTime")
        (sortBy InteractionReader.sorter interactions)
      /\ sortBy InteractionReader.sorter interactions ≡ₚ interactions).
Proof.
  split; (split; [|apply sortBy_Permutation]).
  - apply (sortBy_StronglySorted _ _ (fun _ => True)).
    + intros a b c _ _ _. apply newestFirst_trans.
    + intros a b _ _. apply (guarded_sorter_after "createdTime").
    + intros a b _ _. apply (guarded_sorter_before "createdTime").
    + by apply Forall_true.
  - apply (sortBy_StronglySorted _ _ (fun _ => True)).
    + intros a b c _ _ _. apply newestFirst_trans.
    + intros a b _ _. apply (guarded_sorter_after "interactionTime").
    + intros a b _ _. apply (guarded_sorter_before "interactionTime").
    + by apply Forall_true.
Qed.

Lemma pinnedFirst_trans (a b c : Obj) :
  pinnedFirst a b -> pinnedFirst b c -> pinnedFirst a c.
Proof.
  unfold pinnedFirst. intros [Ha|Hb] [Hb'|Hc]; auto. congruence.
Qed.

Lemma announcement_sorter_after (a b : Obj) :
  placedAfter AnnouncementReader.sorter a b = true -> pinnedFirst b a.
Proof.
  unfold placedAfter, AnnouncementReader.sorter, pinnedFirst.
  destruct (truthy (getField a "isPinned")), (truthy (getField b "isPinned"));
    simpl; try done; auto.
Qed.

Lemma announcement_sorter_before (a b : Obj) :
  placedAfter AnnouncementReader.sorter a b = false -> pinnedFirst a b.
Proof.
  unfold placedAfter, AnnouncementReader.sorter, pinnedFirst.
  destruct (truthy (getField a "isPinned")), (truthy (getField b "isPinned"));
    simpl; try done; auto.
Qed.

Lemma pinnedThenNewest_trans (a b c : Obj) :
  pinnedThenNewest a b -> pinnedThenNewest b c -> pinnedThenNewest a c.
Proof.
  unfold pinnedThenNewest.
  intros [[Ha Hb]|[Hab Nab]] [[Hb' Hc]|[Hbc Nbc]].
  - congruence.
  - left. split; [done|congruence].
  - left. split; [congruence|done].
  - right. split; [congruence|]. by apply (newestFirst_trans _ a b c).
Qed.

Lemma announcement_sorter_after_dated (a b : Obj) :
  dated "lastUpdateTime" a -> dated "lastUpdateTime" b ->
  placedAfter AnnouncementReader.sorter a b = true -> pinnedThenNewest b a.
Proof.
  unfold dated, placedAfter, AnnouncementReader.sorter, pinnedThenNewest, newestFirst.
  intros Da Db.
  destruct (truthy (getField a "isPinned")), (truthy (getField b "isPinned"));
    simpl; try done; try (by left).
  all: destruct (dateValue (getField a "lastUpdateTime")) as [|ta]; [done|].
  all: destruct (dateValue (getField b "lastUpdateTime")) as [|tb]; [done|].
  all: simpl; intros E; apply Z.ltb_lt in E; right; split; [done|lia].
Qed.

Lemma announcement_sorter_before_dated (a b : Obj) :
  dated "lastUpdateTime" a -> dated "lastUpdateTime" b ->
  placedAfter AnnouncementReader.sorter a b = false -> pinnedThenNewest a b.
Proof.
  unfold dated, placedAfter, AnnouncementReader.sorter, pinnedThenNewest, newestFirst.
  intros Da Db.
  destruct (truthy (getField a "isPinned")), (truthy (getField b "isPinned"));
    simpl; try done; try (by left).
  all: destruct (dateValue (getField a "lastUpdateTime")) as [|ta]; [done|].
  all: destruct (dateValue (getField b "lastUpdateTime")) as [|tb]; [done|].
  all: simpl; intros E; apply Z.ltb_ge in E; right; split; [done|lia].
Qed.

(** X2. The announcement sorter puts every pinned record before every
    unpinned one whatever the dates are; when every [lastUpdateTime]
    parses, each group is ordered by later update first. *)
Theorem pinned_announcements_first (records : list Obj) :
  StronglySorted pinnedFirst (sortBy AnnouncementReader.sorter records)
  /\ (Forall (dated "lastUpdateTime") records ->
      StronglySorted pinnedThenNewest (sortBy AnnouncementReader.sorter records)).
Proof.
  split.
  - apply (sortBy_StronglySorted _ _ (fun _ => True)).
    + intros a b c _ _ _. apply pinnedFirst_trans.
    + intros a b _ _. apply announcement_sorter_after.
    + intros a b _ _. apply announcement_sorter_before.
    + by apply Forall_true.
  - intros Hd. apply (sortBy_StronglySorted _ _ (dated "lastUpdateTime")).
    + intros a b c _ _ _. apply pinnedThenNewest_trans.
    + apply announcement_sorter_after_dated.
    + apply announcement_sorter_before_dated.
    + done.
Qed.

End SorterFacts.


(** A worked instance of X2: two dated announcements, the older one pinned. *)
Lemma pinned_announcements_first_witness :
  let E := tableEngine sampleDates in
  let older := [("id", PStr (js "A1")); ("isPinned", PBool true);
                ("lastUpdateTime", PStr (js "2026-01-01T00:00:00.000Z"))] in
  let newer := [("id", PStr (js "A2")); ("isPinned", PBool false);
                ("lastUpdateTime", PStr (js "2026-01-03T00:00:00.000Z"))] in
  StronglySorted (@pinnedThenNewest E)
    (sortBy (@AnnouncementReader.sorter E) [newer; older]).
Proof.
  intros E older newer.
  apply (@pinned_announcements_first E [newer; older]).
  repeat constructor; vm_compute; discriminate.
Defined.

(** ** The published announcements *)

Lemma StronglySorted_filter {A} (R : A -> A -> Prop) (P : A -> Prop)
    `{forall x, Decision (P x)} (l : list A) :
  StronglySorted R l -> StronglySorted R (filter P l).
Proof.
  induction 1 as [|x t Hs IH Hx]; [constructor|].
  rewrite filter_cons. destruct (decide (P x)); [|done].
  constructor; [done|]. apply Forall_forall. intros y Hy.
  apply list_elem_of_filter in Hy as [_ Hy].
  rewrite Forall_forall in Hx. auto.
Qed.

(** X3. The announcement service hands out exactly the records of the
    reader whose status is the published one, in the reader's order: after
    the reader's sort the pinned ones still come first. A record with any
    other status, a draft or an empty one, is never shown. *)
Theorem only_published_announcements_shown `{Engine} (records : list Obj) :
  let shown := AnnouncementService.getAnnouncements
                 (sortBy AnnouncementReader.sorter records) in
  (forall a, a ∈ shown <->
             a ∈ records /\ getField a "status" = PStr AnnouncementService.published)
  /\ shown `sublist_of` sortBy AnnouncementReader.sorter records
  /\ StronglySorted pinnedFirst shown.
Proof.
  intros shown. subst shown. unfold AnnouncementService.getAnnouncements.
  split; [|split].
  - intros a. rewrite list_elem_of_filter, sortBy_Permutation. tauto.
  - apply sublist_filter.
  - apply StronglySorted_filter.
    apply (sortBy_StronglySorted _ _ (fun _ => True)).
    + intros a b c _ _ _. apply pinnedFirst_trans.
    + intros a b _ _. apply announcement_sorter_after.
    + intros a b _ _. apply announcement_sorter_before.
    + by apply Forall_true.
Qed.

(** ** Paging *)

Lemma slice_window {A} (l : list A) (s k : Z) :
  0 <= s -> 0 <= k ->
  slice l s (s + k) = take (Z.to_nat k) (drop (Z.to_nat s) l).
Proof.
  intros Hs Hk. unfold slice, relIndex.
  destruct (Z.ltb_spec s 0); [lia|]. destruct (Z.ltb_spec (s + k) 0); [lia|].
  destruct (Z_le_gt_dec (Z.of_nat (length l)) s) as [Hge|Hlt].
  - rewrite (drop_ge l (Z.to_nat s)) by lia.
    rewrite (drop_ge l (Z.to_nat (Z.min s _))) by lia.
    by rewrite !take_nil.
  - replace (Z.to_nat (Z.min s (Z.of_nat (length l)))) with (Z.to_nat s) by lia.
    destruct (Z_le_gt_dec (s + k) (Z.of_nat (length l))).
    + f_equal. lia.
    + rewrite !take_ge; [done| |]; rewrite length_drop; lia.
Qed.

Lemma paginate_window (items : list Obj) (pageSize page : Z) :
  0 < pageSize -> 1 <= page ->
  Paging.data (Paging.paginate items pageSize page)
  = take (Z.to_nat pageSize) (drop ((Z.to_nat page - 1) * Z.to_nat pageSize) items).
Proof.
  intros Hps Hp. unfold Paging.paginate. simpl.
  rewrite slice_window by nia. do 2 f_equal. nia.
Qed.

Lemma chunks_concat {A} (l : list A) (k t : nat) :
  concat (map (fun p => take k (drop (p * k) l)) (seq 0 t)) = take (t * k) l.
Proof.
  induction t as [|t IH]; [by rewrite take_0|].
  rewrite seq_S, map_app, concat_app, IH. simpl.
  rewrite app_nil_r, take_take_drop. f_equal. lia.
Qed.

(** The number of pages [Math.ceil] computes, as a natural number. *)
Lemma ceilDiv_pages (n : nat) (pageSize : Z) :
  0 < pageSize ->
  exists t : nat, ceilDiv n pageSize = QNum (Z.of_nat t)
    /\ (n <= t * Z.to_nat pageSize)%nat
    /\ forall page, page * pageSize < Z.of_nat n <-> page < Z.of_nat t.
Proof.
  intros Hps. unfold ceilDiv. destruct (Z.eqb_spec pageSize 0); [lia|].
  pose proof (Z.div_mod (- Z.of_nat n) pageSize ltac:(lia)) as Hdm.
  pose proof (Z.mod_pos_bound (- Z.of_nat n) pageSize Hps) as Hb.
  set (q := - Z.of_nat n / pageSize) in *.
  set (r := - Z.of_nat n mod pageSize) in *.
  assert (q <= 0) by nia.
  exists (Z.to_nat (- q)). rewrite Z2Nat.id by lia.
  split; [done|]. split; [nia|]. intros page. split; intros; nia.
Qed.

Lemma pages_concat (items : list Obj) (pageSize : Z) (t : nat) :
  0 < pageSize -> (length items <= t * Z.to_nat pageSize)%nat ->
  concat (map (fun p => Paging.data (Paging.paginate items pageSize (Z.of_nat p)))
              (seq 1 t)) = items.
Proof.
  intros Hps Ht. rewrite <- fmap_S_seq, <- list_fmap_compose.
  transitivity (take (t * Z.to_nat pageSize) items); [|by apply take_ge].
  rewrite <- chunks_concat. f_equal. apply list_fmap_ext. intros _ p _. unfold compose.
  rewrite paginate_window by lia.
  by replace (Z.to_nat (Z.of_nat (S p)) - 1)%nat with p by lia.
Qed.

Section PagingFacts.
Context `{Engine}.

(** X4. With a positive page size, reading the interaction search page by
    page gives what one [fetchAll] call gives: the pages 1 to [total], put
    end to end, are the complete result in the same order, and every page
    reports the same [total] and [totalItems]. *)
Theorem interaction_pages_cover_fetchAll (pageSize : Z)
    (allInteractions allOpportunities allCompanies : list Obj)
    (query : Prim) (all : Paging.Paged) :
  0 < pageSize ->
  InteractionReader.searchAllInteractions pageSize allInteractions
    allOpportunities allCompanies query 1 true = Some all ->
  exists t : nat,
    mapM (fun p => Paging.data <$>
            InteractionReader.searchAllInteractions pageSize allInteractions
              allOpportunities allCompanies query (Z.of_nat p) false)
         (seq 1 t)
    = Some (map (fun p => Paging.data (Paging.paginate (Paging.data all) pageSize
                                         (Z.of_nat p))) (seq 1 t))
    /\ concat (map (fun p => Paging.data (Paging.paginate (Paging.data all) pageSize
                                            (Z.of_nat p))) (seq 1 t))
       = Paging.data all
    /\ forall page, exists r,
         InteractionReader.searchAllInteractions pageSize allInteractions
           allOpportunities allCompanies query page false = Some r
         /\ Paging.total (Paging.pagination r) = QNum (Z.of_nat t)
         /\ Paging.totalItems (Paging.pagination r) = length (Paging.data all).
Proof.
  intros Hps. unfold InteractionReader.searchAllInteractions.
  set (filtered := if truthy query then _ else _).
  destruct filtered as [interactions|]; [|done]. simpl.
  intros [= <-]. simpl.
  destruct (ceilDiv_pages (length interactions) pageSize Hps) as (t & Ht & Hlen & _).
  exists t. split; [|split].
  - apply mapM_Some. apply Forall2_fmap_r, Forall_Forall2_diag, Forall_forall.
    by intros p _.
  - by apply pages_concat.
  - intros page. eexists. split; [done|]. simpl. by split.
Qed.

(** X5. With a positive page size and a page number from 1 on, a page of
    the contact list search holds at most [pageSize] records, [hasNext]
    is set exactly on the pages before the last one, [hasPrev] exactly
    after the first one, every page up to the last one holds a record and
    every page past it is empty. *)
Theorem contact_list_page_bounds (pageSize : Z)
    (allContacts allCompanies : list Obj) (query : Prim) (page : Z)
    (r : Paging.Paged) :
  0 < pageSize -> 1 <= page ->
  ContactSearch.searchContactList pageSize allContacts allCompanies query page
    = Some r ->
  exists t : nat,
    Paging.total (Paging.pagination r) = QNum (Z.of_nat t)
    /\ Z.of_nat (length (Paging.data r)) <= pageSize
    /\ (Paging.hasNext (Paging.pagination r) = true <-> page < Z.of_nat t)
    /\ (Paging.hasPrev (Paging.pagination r) = true <-> 1 < page)
    /\ (Paging.data r = [] <-> Z.of_nat t < page).
Proof.
  intros Hps Hp. unfold ContactSearch.searchContactList.
  set (filtered := if truthy query then _ else _).
  destruct filtered as [contacts|]; [|done]. simpl. intros [= <-].
  destruct (ceilDiv_pages (length contacts) pageSize Hps) as (t & Ht & Hlen & Hlt).
  exists t. rewrite paginate_window by done. simpl.
  split; [done|]. split; [|split; [|split]].
  - rewrite length_take. lia.
  - rewrite Z.ltb_lt, <- Hlt. split; intros; lia.
  - apply Z.ltb_lt.
  - specialize (Hlt (page - 1)).
    rewrite <- length_zero_iff_nil, length_take, length_drop. split; intros; nia.
Qed.

End PagingFacts.

Lemma interaction_pages_cover_fetchAll_witness :
  let E := tableEngine sampleDates in
  let second := [("interactionId", PStr (js "I2")); ("companyId", PStr (js "C2"))] in
  let third := [("interactionId", PStr (js "I3"))] in
  exists t : nat,
    concat (map (fun p =>
                   default []
                     (Paging.data <$>
                        @InteractionReader.searchAllInteractions E 2
                          [annInteraction; second; third] [] [acmeFirst]
                          PUndefined (Z.of_nat p) false))
                (seq 1 t))
    = map (InteractionReader.withContextName ∅
             (ContactReader.companyNameMap [acmeFirst]))
          [annInteraction; second; third].
Proof.
  intros E second third.
  destruct (@interaction_pages_cover_fetchAll E 2 [annInteraction; second; third]
              [] [acmeFirst] PUndefined _ ltac:(lia) eq_refl) as (t & _ & Hcat & _).
  exists t. etransitivity; [|exact Hcat]. f_equal.
Defined.

Lemma contact_list_page_bounds_witness :
  let E := tableEngine sampleDates in
  exists r,
    @ContactSearch.searchContactList E 1 [annContact; annContact] [acmeFirst]
      (PStr (js "ANN")) 2 = Some r
    /\ length (Paging.data r) = 1%nat
    /\ Paging.hasNext (Paging.pagination r) = false
    /\ Paging.hasPrev (Paging.pagination r) = true.
Proof.
  intros E. eexists. split; [vm_compute; reflexivity|].
  destruct (@contact_list_page_bounds E 1 [annContact; annContact] [acmeFirst]
              (PStr (js "ANN")) 2 _ ltac:(lia) ltac:(lia) eq_refl)
    as (t & _ & _ & _ & Hprev & _).
  split; [reflexivity|]. split; [reflexivity|]. apply Hprev. lia.
Defined.


(** ** The searches *)

Lemma includes_nil (s : jsstring) : includes s [] = true.
Proof. by destruct s. Qed.

Lemma lowerIncludes_text `{Engine} (field : string) (term : jsstring) (o : Obj) :
  textField field o ->
  lowerIncludes (getField o field) term = Some (fieldContains field term o).
Proof.
  intros [s Hs]. unfold lowerIncludes, fieldContains. rewrite Hs. by destruct s.
Qed.

Lemma filterThrowing_elem_of {A} (f : A -> option bool) (l r : list A) :
  CompanyService.filterThrowing f l = Some r ->
  r `sublist_of` l /\ forall x, x ∈ r -> f x = Some true.
Proof.
  revert r. induction l as [|x t IH]; simpl; intros r.
  - intros [= <-]. split; [done|]. intros x Hx. by apply elem_of_nil in Hx.
  - destruct (f x) as [keep|] eqn:Ef; [|done].
    destruct (CompanyService.filterThrowing f t) as [t'|]; [|done]. simpl.
    destruct (IH t' eq_refl) as [Hsub Hall]. intros [= <-]. destruct keep.
    + split; [by constructor|]. intros y Hy.
      apply elem_of_cons in Hy as [->|Hy]; auto.
    + split; [by constructor|]. done.
Qed.

Lemma elem_of_slice {A} (l : list A) (s e : Z) (x : A) : x ∈ slice l s e -> x ∈ l.
Proof.
  unfold slice. intros Hx.
  apply (subseteq_take (relIndex (length l) e - relIndex (length l) s)) in Hx.
  by apply (subseteq_drop (relIndex (length l) s)) in Hx.
Qed.

Section SearchFacts.
Context `{Engine}.

(** X6. On contacts whose name and company are strings, as the row parser
    makes them, [searchContacts] does not throw and returns, in order,
    exactly the contacts with a non-empty name or company that contains
    the query, compared in lower case; with an empty query these are the
    contacts that have a name or a company. The letter case of the query
    never matters. *)
Theorem contact_search_matches (contacts : list Obj) (query : jsstring) :
  Forall (fun c => textField "name" c /\ textField "company" c) contacts ->
  ContactSearch.searchContacts contacts (PStr query)
  = Some (filter (fun c => fieldContains "name" (toLowerCase query) c
                           || fieldContains "company" (toLowerCase query) c = true)
                 contacts)
  /\ ContactSearch.searchContacts contacts (PStr (toLowerCase query))
     = ContactSearch.searchContacts contacts (PStr query).
Proof.
  intros Htext. split.
  - unfold ContactSearch.searchContacts.
    destruct query as [|c q].
    + simpl. f_equal. induction Htext as [|x t [[n Hn] [m Hm]] _ IH]; [done|].
      rewrite !filter_cons, IH. unfold fieldContains. rewrite Hn, Hm.
      rewrite toLowerCase_nil.
      destruct n as [|n0 n]; destruct m as [|m0 m]; simpl;
        rewrite ?includes_nil; done.
    + change (truthy (PStr (c :: q))) with true.
      change (lowerOf (PStr (c :: q))) with (Some (toLowerCase (c :: q))). cbv iota.
      set (term := toLowerCase (c :: q)).
      induction Htext as [|x t [Hn Hm] _ IH]; [done|].
      rewrite !filter_cons.
      assert (ContactSearch.matchesContact term x
              = Some (fieldContains "name" term x || fieldContains "company" term x))
        as Hmatch.
      { unfold ContactSearch.matchesContact.
        rewrite (lowerIncludes_text "name"), (lowerIncludes_text "company") by done.
        by destruct (fieldContains "name" term x). }
      destruct (decide (truthy (por (getField x "name") (getField x "company")) = true))
        as [Hnamed|Hunnamed].
      * cbn [CompanyService.filterThrowing]. rewrite Hmatch, IH. simpl.
        by destruct (fieldContains "name" term x || fieldContains "company" term x).
      * rewrite IH. destruct Hn as [n Hn], Hm as [m Hm].
        unfold fieldContains. rewrite Hn, Hm in *.
        destruct n; [|done]. destruct m; [|done]. done.
  - unfold ContactSearch.searchContacts.
    destruct query as [|c q]; [by rewrite toLowerCase_nil|].
    destruct (toLowerCase_cons c q) as (c' & q' & E).
    change (truthy (PStr (c :: q))) with true.
    assert (truthy (PStr (toLowerCase (c :: q))) = true) as -> by (by rewrite E).
    unfold lowerOf. by rewrite toLowerCase_idem.
Qed.

(** X7. [getContactById] looks the contact up through the keyword search
    with the identifier as the keyword: what it returns carries that
    identifier and has the identifier, in lower case, inside its name or
    its company name. A listed contact whose name and company name do not
    contain its identifier is never found. *)
Theorem contact_found_only_through_its_name (pageSize : Z)
    (allContacts allCompanies : list Obj) (contactId : jsstring) :
  contactId <> [] ->
  (forall found,
     ContactService.getContactById pageSize allContacts allCompanies (PStr contactId)
       = Some found ->
     found ∈ ContactReader.searchContactList_joined allContacts allCompanies
     /\ getField found "contactId" = PStr contactId
     /\ ContactSearch.matchesListed (toLowerCase contactId) found = Some true)
  /\ ((forall c, c ∈ ContactReader.searchContactList_joined allContacts allCompanies ->
         ContactSearch.matchesListed (toLowerCase contactId) c <> Some true) ->
      ContactService.getContactById pageSize allContacts allCompanies (PStr contactId)
        = None).
Proof.
  intros Hid.
  assert (forall found,
     ContactService.getContactById pageSize allContacts allCompanies (PStr contactId)
       = Some found ->
     found ∈ ContactReader.searchContactList_joined allContacts allCompanies
     /\ getField found "contactId" = PStr contactId
     /\ ContactSearch.matchesListed (toLowerCase contactId) found = Some true) as Hfound.
  { intros found. unfold ContactService.getContactById, ContactSearch.searchContactList.
    destruct contactId as [|c q]; [done|].
    change (truthy (PStr (c :: q))) with true.
    change (lowerOf (PStr (c :: q))) with (Some (toLowerCase (c :: q))). cbv iota.
    destruct (CompanyService.filterThrowing _ _) as [matches|] eqn:Ef; [|done].
    apply filterThrowing_elem_of in Ef as [Hsub Hall]. simpl.
    intros Hfind. apply find_some in Hfind as [Hin Heq].
    apply list_elem_of_In, elem_of_slice in Hin.
    split; [by apply (sublist_subseteq _ _ Hsub)|]. split; [|by apply Hall].
    unfold strictEq in Heq. by apply bool_decide_eq_true in Heq. }
  split; [done|]. intros Hnone.
  destruct (ContactService.getContactById _ _ _ _) as [found|] eqn:E; [|done].
  destruct (Hfound found eq_refl) as (Hin & _ & Hm). by destruct (Hnone found Hin).
Qed.

(** X8. [getInteractionsByOpportunity] and [getInteractionsByCompany]
    never fail and return, in the reader's order, exactly the interactions
    that carry the identifier; each comes back with all its fields, the
    field [opportunityName] apart, which the search fills in. *)
Theorem interactions_by_owner_exact (pageSize : Z)
    (allInteractions allOpportunities allCompanies : list Obj) (id : Prim) :
  Forall2 (fun i r => forall k, k <> "opportunityName"%string ->
                                getField r k = getField i k)
    (filter (fun i => getField i "opportunityId" = id) allInteractions)
    (InteractionService.getInteractionsByOpportunity pageSize allInteractions
       allOpportunities allCompanies id)
  /\ Forall2 (fun i r => forall k, k <> "opportunityName"%string ->
                                   getField r k = getField i k)
       (filter (fun i => getField i "companyId" = id) allInteractions)
       (InteractionService.getInteractionsByCompany pageSize allInteractions
          allOpportunities allCompanies id).
Proof.
  unfold InteractionService.getInteractionsByOpportunity,
    InteractionService.getInteractionsByCompany,
    InteractionReader.searchAllInteractions. simpl.
  set (f := InteractionReader.withContextName _ _).
  assert (forall i k, k <> "opportunityName"%string -> getField (f i) k = getField i k)
    as Hf.
  { intros i k Hk. unfold f, InteractionReader.withContextName.
    apply getField_setField_ne. congruence. }
  split.
  - induction allInteractions as [|x t IH]; [constructor|].
    rewrite fmap_cons, !filter_cons, (Hf x "opportunityId") by done.
    destruct (decide (getField x "opportunityId" = id)); [|done].
    constructor; [|done]. intros k Hk. by apply Hf.
  - induction allInteractions as [|x t IH]; [constructor|].
    rewrite fmap_cons, !filter_cons, (Hf x "companyId") by done.
    destruct (decide (getField x "companyId" = id)); [|done].
    constructor; [|done]. intros k Hk. by apply Hf.
Qed.

(** X10. [getRecentInteractions] on the sorted list of [getInteractions]
    returns the [limit] newest interactions, fewer when there are fewer:
    nothing it leaves out is dated later than anything it returns, and an
    undated interaction is returned only when every dated one is. *)
Theorem recent_interactions_are_the_newest (parsed : list Obj) (limit : Z) :
  0 <= limit ->
  let all := sortBy InteractionReader.sorter parsed in
  let recent := InteractionReader.getRecentInteractions all (Some limit) in
  length recent = Z.to_nat (Z.min limit (Z.of_nat (length parsed)))
  /\ exists rest,
       all = recent ++ rest
       /\ forall a b, a ∈ recent -> b ∈ rest -> newestFirst "interactionTime" a b.
Proof.
  intros Hl all recent. subst recent. unfold InteractionReader.getRecentInteractions.
  simpl. rewrite slice0_prefix by done. subst all. rewrite sortBy_length.
  set (n := Z.to_nat _). split.
  - rewrite length_take, sortBy_length. lia.
  - exists (drop n (sortBy InteractionReader.sorter parsed)).
    split; [by rewrite take_drop|]. intros a b Ha Hb.
    assert (StronglySorted (newestFirst "interactionTime")
              (sortBy InteractionReader.sorter parsed)) as Hs.
    { apply (sortBy_StronglySorted _ _ (fun _ => True)).
      + intros x y z _ _ _. apply newestFirst_trans.
      + intros x y _ _. apply (guarded_sorter_after "interactionTime").
      + intros x y _ _. apply (guarded_sorter_before "interactionTime").
      + by apply Forall_true. }
    rewrite <- (take_drop n (sortBy InteractionReader.sorter parsed)) in Hs.
    by apply (StronglySorted_app_1_elem_of _ _ _ a b Hs).
Qed.

End SearchFacts.

(** ** The dashboard counters *)

(** X9. The three counters of [getDashboardStats] never count a contact
    twice: [total] is their sum plus the number of contacts whose status
    is some other non-empty text, which no counter counts. *)
Theorem dashboard_counters_partition (contacts : list Obj) :
  let stats := ContactService.getDashboardStats (Some contacts) in
  ContactService.total stats
  = (ContactService.pending stats + ContactService.processed stats
     + ContactService.dropped stats + length (filter (fun c => otherStatus c = true) contacts))%nat.
Proof.
  simpl. induction contacts as [|c t IH]; [done|].
  rewrite !filter_cons. simpl length at 1. rewrite IH. clear IH.
  unfold otherStatus, strictEq. generalize (getField c "status"). intros p.
  destruct (decide (p = PStr (js "Pending"))) as [->|NPending].
  { repeat case_decide; simpl in *; try lia; done. }
  destruct (decide (p = PStr (js "Processed"))) as [->|NProcessed].
  { repeat case_decide; simpl in *; try lia; done. }
  destruct (decide (p = PStr (js "Dropped"))) as [->|NDropped].
  { repeat case_decide; simpl in *; try lia; done. }
  rewrite !(bool_decide_eq_false_2 (p = _)) by done. rewrite orb_false_r. simpl.
  rewrite !andb_true_r.
  destruct (truthy p) eqn:Et; repeat case_decide; simpl in *; try lia; done.
Qed.

Lemma contact_search_matches_witness :
  let E := tableEngine sampleDates in
  let R := scriptedReader [] 0 in
  let contacts :=
    imap (fun index row => @ContactReader.rowParser R row index) contactsSheet in
  map (fun c => getField c "name")
    <$> @ContactSearch.searchContacts E contacts (PStr (js "aCm"))
  = Some [PStr (js "Alice")].
Proof.
  intros E R contacts.
  destruct (@contact_search_matches E contacts (js "aCm")) as [Hres _].
  { repeat constructor; eexists; vm_compute; reflexivity. }
  rewrite Hres. vm_compute. reflexivity.
Defined.

Lemma contact_found_only_through_its_name_witness :
  let E := tableEngine sampleDates in
  getField annContact "contactId" = PStr (js "K1")
  /\ @ContactService.getContactById E 20 [annContact] [acmeFirst] (PStr (js "K1"))
     = None.
Proof.
  intros E. split; [reflexivity|].
  destruct (@contact_found_only_through_its_name E 20 [annContact] [acmeFirst]
              (js "K1")) as [_ Hnone]; [done|].
  apply Hnone. intros c Hc. unfold ContactReader.searchContactList_joined in Hc.
  simpl in Hc. apply list_elem_of_singleton in Hc as ->. vm_compute. discriminate.
Defined.

Lemma recent_interactions_are_the_newest_witness :
  let E := tableEngine sampleDates in
  let undated := [("interactionId", PStr (js "I0"))] in
  let newer := [("interactionId", PStr (js "I3"));
                ("interactionTime", PStr (js "2026-01-03T00:00:00.000Z"))] in
  length (InteractionReader.getRecentInteractions
            (sortBy (@InteractionReader.sorter E) [undated; annInteraction; newer])
            (Some 2)) = 2%nat.
Proof.
  intros E undated newer.
  destruct (@recent_interactions_are_the_newest E [undated; annInteraction; newer] 2)
    as [Hlen _]; [lia|].
  exact Hlen.
Defined.


(** ** The system settings *)

Section SettingsFacts.
Context `{Engine}.

Lemma orderOf_number (order : Prim) : exists n, SystemReader.orderOf order = PNum n.
Proof.
  unfold SystemReader.orderOf. destruct order; eauto.
  destruct (parseInt _) as [n|]; eauto. destruct (n =? 0); eauto.
Qed.

Lemma ownItems_setItems (settings : Settings) (type k : jsstring) (items : list Obj) :
  SystemReader.ownItems (SystemReader.setItems settings type items) k
  = if bool_decide (k = type) then Some items else SystemReader.ownItems settings k.
Proof.
  induction settings as [|[k0 old] rest IH]; simpl.
  - destruct (decide (type = k)) as [->|Hne].
    + by rewrite !bool_decide_eq_true_2.
    + rewrite bool_decide_eq_false_2 by done.
      by rewrite bool_decide_eq_false_2 by congruence.
  - destruct (decide (k0 = type)) as [->|Hne].
    + rewrite bool_decide_eq_true_2 by done. simpl.
      destruct (decide (type = k)) as [->|Hne].
      * by rewrite !bool_decide_eq_true_2.
      * rewrite bool_decide_eq_false_2 by done.
        by rewrite bool_decide_eq_false_2 by congruence.
    + rewrite bool_decide_eq_false_2 by done. simpl. rewrite IH.
      destruct (decide (k0 = k)) as [->|Hne'].
      * rewrite bool_decide_eq_true_2 by done.
        by rewrite bool_decide_eq_false_2 by congruence.
      * by rewrite bool_decide_eq_false_2 by done.
Qed.

Lemma updateExisting_Some (item note' order' : Prim) (items items' : list Obj) :
  SystemReader.updateExisting item note' order' items = Some items' ->
  Forall2 (fun o o' =>
             (forall k, k <> "note"%string -> k <> "order"%string ->
                        getField o' k = getField o k)
             /\ (o' = o \/ (getField o "value" = item
                            /\ getField o' "note" = note'
                            /\ getField o' "order" = order')))
          items items'.
Proof.
  revert items'. induction items as [|o rest IH]; simpl; intros items'; [done|].
  unfold strictEq. destruct (decide (getField o "value" = item)) as [E|NE].
  - rewrite bool_decide_eq_true_2 by done. intros [= <-]. constructor.
    + split.
      * intros k Hn Ho. rewrite !getField_setField_ne; done.
      * right. split; [done|]. split; [|apply getField_setField_eq].
        rewrite getField_setField_ne by done. apply getField_setField_eq.
    + apply Forall_Forall2_diag, Forall_forall. intros x _. split; [done|by left].
  - rewrite bool_decide_eq_false_2 by done.
    destruct (SystemReader.updateExisting _ _ _ rest) as [rest'|]; [|done].
    simpl. intros [= <-]. constructor; [|by apply IH]. split; [done|by left].
Qed.

Lemma updateExisting_None (item note' order' : Prim) (items : list Obj) :
  SystemReader.updateExisting item note' order' items = None ->
  item ∉ valuesOf items.
Proof.
  induction items as [|o rest IH]; simpl; [intros _; apply not_elem_of_nil|].
  unfold strictEq. destruct (decide (getField o "value" = item)) as [E|NE].
  - by rewrite bool_decide_eq_true_2.
  - rewrite bool_decide_eq_false_2 by done.
    destruct (SystemReader.updateExisting _ _ _ rest); [done|].
    intros _. rewrite not_elem_of_cons. auto.
Qed.

Lemma updateExisting_values (item note' order' : Prim) (items items' : list Obj) :
  SystemReader.updateExisting item note' order' items = Some items' ->
  valuesOf items' = valuesOf items.
Proof.
  intros Hu. apply updateExisting_Some in Hu. unfold valuesOf.
  induction Hu as [|o o' t t' [Hk _] _ IH]; [done|]. simpl.
  by rewrite IH, Hk.
Qed.

Lemma updateExisting_numbered (item note' : Prim) (n : Z) (items items' : list Obj) :
  SystemReader.updateExisting item note' (PNum n) items = Some items' ->
  Forall numbered items -> Forall numbered items'.
Proof.
  intros Hu. apply updateExisting_Some in Hu.
  induction Hu as [|o o' t t' [_ Ho] _ IH]; [done|].
  intros Hall. apply Forall_cons in Hall as [Hn Ht].
  constructor; [|auto]. destruct Ho as [->|(_ & _ & Hord)]; [done|]. by exists n.
Qed.

Lemma prototype_key_not_own (settings : Settings) (type : jsstring) :
  settingsInvariant settings ->
  type ∈ SystemReader.objectPrototypeKeys ->
  SystemReader.ownItems settings type = None.
Proof.
  intros Hinv Hin. destruct (SystemReader.ownItems settings type) eqn:E; [|done].
  by destruct (Hinv _ _ E) as [Hno _].
Qed.

Lemma settingsInvariant_setItems (settings : Settings) (type : jsstring)
    (items : list Obj) :
  settingsInvariant settings ->
  type ∉ SystemReader.objectPrototypeKeys ->
  Forall numbered items -> NoDup (valuesOf items) ->
  settingsInvariant (SystemReader.setItems settings type items).
Proof.
  intros Hinv Hty Hn Hd k its. rewrite ownItems_setItems.
  destruct (decide (k = type)) as [->|Hne].
  - rewrite bool_decide_eq_true_2 by done. by intros [= <-].
  - rewrite bool_decide_eq_false_2 by done. apply Hinv.
Qed.

(** What a row finds under its type: the own array, a fresh one, or an
    inherited property. *)
Lemma applyConfigRow_invariant (settings settings' : Settings) (row : Row) :
  settingsInvariant settings ->
  SystemReader.applyConfigRow settings row = Some settings' ->
  settingsInvariant settings'.
Proof.
  intros Hinv. unfold SystemReader.applyConfigRow.
  destruct (cell row 0) as [| | | |ty]; try (by intros [= <-]).
  destruct (strictEq _ _ && _ && _); [|by intros [= <-]].
  destruct (orderOf_number (cell row 2)) as [n Hn]. rewrite Hn.
  destruct (SystemReader.ownItems settings ty) as [items|] eqn:Eown.
  - destruct (Hinv _ _ Eown) as (Hty & Hnum & Hdup).
    destruct (SystemReader.updateExisting _ _ _ items) as [items'|] eqn:Eu;
      intros [= <-]; apply settingsInvariant_setItems; try done.
    + by apply (updateExisting_numbered _ _ _ _ _ Eu).
    + by rewrite (updateExisting_values _ _ _ _ _ Eu).
    + apply Forall_app. split; [done|]. repeat constructor. by exists n.
    + unfold valuesOf. rewrite map_app. simpl. apply NoDup_app.
      split; [done|]. split; [|apply NoDup_singleton].
      intros v Hv Hv'. apply list_elem_of_singleton in Hv' as ->.
      by apply (updateExisting_None _ _ _ _ Eu).
  - destruct (decide (ty ∈ SystemReader.objectPrototypeKeys)) as [Hin|Hnin].
    + by rewrite bool_decide_eq_true_2.
    + rewrite bool_decide_eq_false_2 by done. simpl.
      intros [= <-]. apply settingsInvariant_setItems; try done.
      * repeat constructor. by exists n.
      * apply NoDup_singleton.
Qed.

Lemma forEachRow_invariant (rows : list Row) (settings settings' : Settings) :
  settingsInvariant settings ->
  SystemReader.forEachRow settings rows = Some settings' ->
  settingsInvariant settings'.
Proof.
  revert settings. induction rows as [|row rest IH]; simpl; intros settings Hinv.
  - by intros [= <-].
  - destruct (SystemReader.applyConfigRow settings row) as [st|] eqn:E; [|done].
    apply IH. by apply (applyConfigRow_invariant settings st row).
Qed.

Lemma initial_settingsInvariant :
  settingsInvariant [(SystemReader.key_eventTypes, SystemReader.defaultEventTypes);
                     (SystemReader.key_calendarRules, [])].
Proof.
  intros type items. simpl.
  destruct (decide (SystemReader.key_eventTypes = type)) as [<-|Hne].
  - rewrite bool_decide_eq_true_2 by done. intros [= <-]. split; [|split].
    + apply (bool_decide_eq_false_1 (_ ∈ _)). vm_compute. reflexivity.
    + repeat constructor; eexists; reflexivity.
    + apply (bool_decide_eq_true_1 (NoDup _)). vm_compute. reflexivity.
  - rewrite bool_decide_eq_false_2 by done.
    destruct (decide (SystemReader.key_calendarRules = type)) as [<-|Hne'].
    + rewrite bool_decide_eq_true_2 by done. intros [= <-]. split; [|split].
      * apply (bool_decide_eq_false_1 (_ ∈ _)). vm_compute. reflexivity.
      * constructor.
      * constructor.
    + by rewrite bool_decide_eq_false_2 by done.
Qed.

Lemma filled_invariant (rows : list Row) (settings : Settings) :
  (if (1 <? length rows)%nat
   then SystemReader.forEachRow
          [(SystemReader.key_eventTypes, SystemReader.defaultEventTypes);
           (SystemReader.key_calendarRules, [])] (drop 1 rows)
   else Some [(SystemReader.key_eventTypes, SystemReader.defaultEventTypes);
              (SystemReader.key_calendarRules, [])]) = Some settings ->
  settingsInvariant settings.
Proof.
  destruct (1 <? length rows)%nat.
  - apply forEachRow_invariant, initial_settingsInvariant.
  - intros [= <-]. apply initial_settingsInvariant.
Qed.

Lemma ownItems_sorted (settings : Settings) (type : jsstring) :
  SystemReader.ownItems
    (map (fun kv => (fst kv, sortBy SystemReader.byOrder (snd kv))) settings) type
  = sortBy SystemReader.byOrder <$> SystemReader.ownItems settings type.
Proof.
  induction settings as [|[k items] rest IH]; simpl; [done|].
  by destruct (bool_decide (k = type)).
Qed.

Lemma byOrder_after (a b : Obj) :
  numbered a -> numbered b ->
  placedAfter SystemReader.byOrder a b = true -> orderLe b a.
Proof.
  intros [x Hx] [y Hy]. unfold placedAfter, SystemReader.byOrder, orderLe.
  rewrite Hx, Hy. intros E. apply Z.ltb_lt in E. lia.
Qed.

Lemma byOrder_before (a b : Obj) :
  numbered a -> numbered b ->
  placedAfter SystemReader.byOrder a b = false -> orderLe a b.
Proof.
  intros [x Hx] [y Hy]. unfold placedAfter, SystemReader.byOrder, orderLe.
  rewrite Hx, Hy. intros E. apply Z.ltb_ge in E. lia.
Qed.

Lemma orderLe_trans (a b c : Obj) : orderLe a b -> orderLe b c -> orderLe a c.
Proof.
  unfold orderLe.
  destruct (getField a "order"), (getField b "order"), (getField c "order");
    try done. lia.
Qed.

(** X11. In the settings [getSystemConfig] builds, whatever the sheet
    holds, every array is in ascending [order] and lists no value twice:
    a row that names a value already listed changes that item and adds
    none. *)
Theorem settings_sorted_and_unique (rows : list Row) (settings : Settings)
    (type : jsstring) (items : list Obj) :
  SystemReader.buildSettings rows = Some settings ->
  SystemReader.ownItems settings type = Some items ->
  StronglySorted orderLe items /\ NoDup (valuesOf items).
Proof.
  unfold SystemReader.buildSettings.
  destruct (if (1 <? length rows)%nat then _ else _) as [filled|] eqn:Ef; [|done].
  simpl. intros [= <-]. rewrite ownItems_sorted.
  destruct (SystemReader.ownItems filled type) as [raw|] eqn:Eown; [|done].
  simpl. intros [= <-].
  destruct (filled_invariant rows filled Ef type raw Eown) as (_ & Hnum & Hdup).
  split.
  - apply (sortBy_StronglySorted _ _ numbered); auto using byOrder_after, byOrder_before.
    intros a b c _ _ _. apply orderLe_trans.
  - unfold valuesOf. by rewrite sortBy_Permutation.
Qed.

Lemma applyConfigRow_keepsDefaults (settings settings' : Settings) (row : Row) :
  keepsDefaults settings ->
  SystemReader.applyConfigRow settings row = Some settings' ->
  keepsDefaults settings'.
Proof.
  intros (eventTypes & Hown & Hkeep). unfold SystemReader.applyConfigRow.
  destruct (cell row 0) as [| | | |ty]; try (intros [= <-]; by exists eventTypes).
  destruct (strictEq _ _ && _ && _); [|intros [= <-]; by exists eventTypes].
  destruct (decide (SystemReader.key_eventTypes = ty)) as [<-|Hne].
  - rewrite Hown.
    destruct (SystemReader.updateExisting _ _ _ eventTypes) as [items'|] eqn:Eu;
      intros [= <-]; unfold keepsDefaults; rewrite ownItems_setItems,
        bool_decide_eq_true_2 by done; eexists; (split; [done|]); intros d Hd;
      destruct (Hkeep d Hd) as (i & Hi & Hv & Hc).
    + apply updateExisting_Some in Eu.
      apply list_elem_of_lookup in Hi as [j Hj].
      destruct (Forall2_lookup_l _ _ _ _ _ Eu Hj) as (i' & Hj' & Hsame & _).
      exists i'. split; [by apply list_elem_of_lookup; exists j|].
      by rewrite !Hsame.
    + exists i. split; [|done]. apply elem_of_app. by left.
  - assert (forall items, keepsDefaults (SystemReader.setItems settings ty items))
      as Hset.
    { intros items. exists eventTypes. split; [|done].
      rewrite ownItems_setItems. by rewrite bool_decide_eq_false_2. }
    destruct (match SystemReader.ownItems settings ty with
              | Some items => Some items
              | None => _
              end) as [items|]; [|done].
    destruct (SystemReader.updateExisting _ _ _ items); intros [= <-]; apply Hset.
Qed.

Lemma forEachRow_keepsDefaults (rows : list Row) (settings settings' : Settings) :
  keepsDefaults settings ->
  SystemReader.forEachRow settings rows = Some settings' ->
  keepsDefaults settings'.
Proof.
  revert settings. induction rows as [|row rest IH]; simpl; intros settings Hk.
  - by intros [= <-].
  - destruct (SystemReader.applyConfigRow settings row) as [st|] eqn:E; [|done].
    apply IH. by apply (applyConfigRow_keepsDefaults settings st row).
Qed.

(** X12. The five default event types are in every configuration that is
    built, each with the colour the code gives it: a row of the sheet can
    change the note and the order of a default type, never remove it or
    recolour it. *)
Theorem default_event_types_survive (rows : list Row) (settings : Settings) :
  SystemReader.buildSettings rows = Some settings ->
  exists eventTypes,
    SystemReader.ownItems settings SystemReader.key_eventTypes = Some eventTypes
    /\ forall d, d ∈ SystemReader.defaultEventTypes ->
         exists i, i ∈ eventTypes
           /\ getField i "value" = getField d "value"
           /\ getField i "color" = getField d "color".
Proof.
  unfold SystemReader.buildSettings.
  destruct (if (1 <? length rows)%nat then _ else _) as [filled|] eqn:Ef; [|done].
  simpl. intros [= <-].
  assert (keepsDefaults filled) as (eventTypes & Hown & Hkeep).
  { assert (keepsDefaults
              [(SystemReader.key_eventTypes, SystemReader.defaultEventTypes);
               (SystemReader.key_calendarRules, [])]) as H0.
    { exists SystemReader.defaultEventTypes. split; [done|]. intros d Hd. eauto. }
    destruct (1 <? length rows)%nat.
    - by apply (forEachRow_keepsDefaults _ _ _ H0 Ef).
    - by injection Ef as <-. }
  exists (sortBy SystemReader.byOrder eventTypes). rewrite ownItems_sorted, Hown.
  split; [done|]. intros d Hd. destruct (Hkeep d Hd) as (i & Hi & Hv).
  exists i. split; [|done]. by rewrite sortBy_Permutation.
Qed.

Lemma forEachRow_prototype_key (rows : list Row) (settings : Settings) (bad : Row)
    (type item : jsstring) :
  settingsInvariant settings ->
  bad ∈ rows ->
  bad !! 0%nat = Some type -> type ∈ SystemReader.objectPrototypeKeys ->
  bad !! 1%nat = Some item -> item <> [] ->
  bad !! 3%nat = Some (js "TRUE") ->
  SystemReader.forEachRow settings rows = None.
Proof.
  intros Hinv Hin H0 Hty H1 Hitem H3. revert settings Hinv.
  induction rows as [|row rest IH]; intros settings Hinv;
    [by apply elem_of_nil in Hin|]. simpl.
  destruct (SystemReader.applyConfigRow settings row) as [st|] eqn:E; [|done].
  apply elem_of_cons in Hin as [<-|Hin].
  - exfalso. revert E. unfold SystemReader.applyConfigRow, cell.
    rewrite H0, H1, H3. simpl.
    assert (type <> []) as Hne.
    { intros ->. revert Hty. apply (bool_decide_eq_false_1 (_ ∈ _)).
      vm_compute. reflexivity. }
    destruct type as [|c0 ty]; [done|]. destruct item as [|i0 it]; [done|].
    rewrite (prototype_key_not_own settings _ Hinv Hty).
    by rewrite bool_decide_eq_true_2.
  - apply IH; [done|]. by apply (applyConfigRow_invariant settings st row).
Qed.

End SettingsFacts.

Section SettingsReadFacts.
Context `{Engine} `{Reader}.

(** X13. One enabled row of the settings sheet, below the header, whose
    type is a name every object inherits ([constructor], [toString],
    [__proto__] and the like) makes the whole read fail: [getSystemConfig]
    returns the fallback settings, stores nothing in the cache, and so the
    next call reads the sheet again. *)
Theorem prototype_key_row_breaks_config (rows : list Row) (bad : Row)
    (type item : jsstring) (now : Z) (w : World) :
  bad ∈ drop 1 rows ->
  bad !! 0%nat = Some type -> type ∈ SystemReader.objectPrototypeKeys ->
  bad !! 1%nat = Some item -> item <> [] ->
  bad !! 3%nat = Some (js "TRUE") ->
  fresh w "systemConfig" now = false ->
  sheets {| spreadsheetId := targetSpreadsheetId;
            range := RANGE_SYSTEM_CONFIG config |} (calls w)
    = Resolve (Some rows) ->
  SystemReader.buildSettings rows = None
  /\ SystemReader.getSystemConfig now w
     = (SystemReader.settingsFallback,
        {| cache := cache w; calls := S (calls w) |}).
Proof.
  intros Hin Hc0 Hty Hc1 Hitem Hc3 Hmiss Hread.
  assert (SystemReader.buildSettings rows = None) as Hnone.
  { unfold SystemReader.buildSettings.
    assert (1 < length rows)%nat as Hlen.
    { destruct rows as [|r0 [|r1 rest]]; simpl in *;
        [by apply elem_of_nil in Hin|by apply elem_of_nil in Hin|lia]. }
    apply Nat.ltb_lt in Hlen. rewrite Hlen.
    by rewrite (forEachRow_prototype_key _ _ bad type item
                  initial_settingsInvariant Hin Hc0 Hty Hc1 Hitem Hc3). }
  split; [done|]. unfold SystemReader.getSystemConfig.
  rewrite (fresh_false_freshData _ _ _ Hmiss). unfold values_get.
  rewrite Hread. simpl. by rewrite Hnone.
Qed.

End SettingsReadFacts.

Lemma settings_sorted_and_unique_witness :
  let E := tableEngine [] in
  let rows := [ [js "type"; js "item"; js "order"; js "enabled"];
                [js "Stage"; js "won"; js "2"; js "TRUE"; js "Won"];
                [js "Stage"; js "new"; js "1"; js "TRUE"];
                [js "Stage"; js "won"; js "3"; js "TRUE"; js "Closed"] ] in
  exists settings items,
    @SystemReader.buildSettings E rows = Some settings
    /\ SystemReader.ownItems settings (js "Stage") = Some items
    /\ valuesOf items = [PStr (js "new"); PStr (js "won")]
    /\ StronglySorted orderLe items.
Proof.
  intros E rows. eexists. eexists.
  split; [vm_compute; reflexivity|]. split; [vm_compute; reflexivity|].
  split; [vm_compute; reflexivity|].
  eapply (@settings_sorted_and_unique E rows _ (js "Stage")).
  - vm_compute. reflexivity.
  - vm_compute. reflexivity.
Defined.

Lemma default_event_types_survive_witness :
  let E := tableEngine [] in
  let rows := [ [js "type"; js "item"; js "order"; js "enabled"];
                [SystemReader.key_eventTypes; js "iot"; js "9"; js "TRUE";
                 js "Sensors"; js "#000000"] ] in
  exists settings eventTypes,
    @SystemReader.buildSettings E rows = Some settings
    /\ SystemReader.ownItems settings SystemReader.key_eventTypes = Some eventTypes
    /\ length eventTypes = 5%nat
    /\ forall d, d ∈ SystemReader.defaultEventTypes ->
         exists i, i ∈ eventTypes
           /\ getField i "value" = getField d "value"
           /\ getField i "color" = getField d "color".
Proof.
  intros E rows.
  destruct (@default_event_types_survive E rows _ eq_refl) as (eventTypes & Hown & Hk).
  eexists. exists eventTypes. split; [reflexivity|]. split; [exact Hown|].
  split; [|exact Hk]. vm_compute in Hown. by injection Hown as <-.
Defined.

Lemma prototype_key_row_breaks_config_witness :
  let E := tableEngine [] in
  let rows := [ [js "type"; js "item"; js "order"; js "enabled"];
                [js "Stage"; js "won"; js "2"; js "TRUE"];
                [js "constructor"; js "x"; js "1"; js "TRUE"] ] in
  let R := scriptedReader [Resolve (Some rows)] 300000 in
  @SystemReader.getSystemConfig E R 1000 emptyWorld
  = (@SystemReader.settingsFallback R, {| cache := ∅; calls := 1 |}).
Proof.
  intros E rows R.
  apply (@prototype_key_row_breaks_config E R rows
           [js "constructor"; js "x"; js "1"; js "TRUE"] (js "constructor") (js "x")
           1000 emptyWorld); try reflexivity.
  - simpl. set_solver.
  - apply (bool_decide_eq_true_1 (_ ∈ _)). vm_compute. reflexivity.
  - done.
Defined.


(** ** The user register *)

Section UserFacts.
Context `{Engine} `{Reader}.

Lemma getUsers_read (now : Z) (w : World) (rows : list Row) :
  fresh w "users" now = false ->
  sheets {| spreadsheetId := default targetSpreadsheetId (IDS_AUTH config);
            range := "使用者名冊!A:D" |} (calls w) = Resolve (Some rows) ->
  (SystemReader.getUsers now w).1
  = DRows (filter (fun user => truthy (pand (getField user "username")
                                            (getField user "passwordHash")) = true)
                  (imap (fun index row => SystemReader.userOfRow row index) rows)).
Proof.
  intros Hmiss Hread. unfold SystemReader.getUsers.
  rewrite (fresh_false_freshData _ _ _ Hmiss). unfold values_get.
  by rewrite Hread.
Qed.

Lemma user_kept (row : Row) (index : nat) :
  truthy (pand (getField (SystemReader.userOfRow row index) "username")
               (getField (SystemReader.userOfRow row index) "passwordHash")) = true
  <-> SystemReader.trimmedCell row 0 [] <> [] /\ SystemReader.trimmedCell row 1 [] <> [].
Proof.
  simpl. unfold pand. simpl.
  destruct (SystemReader.trimmedCell row 0 []), (SystemReader.trimmedCell row 1 []);
    simpl; split; try done; intros [? ?]; done.
Qed.

Lemma kept_user_row (rows : list Row) (u : Obj) :
  u ∈ filter (fun user => truthy (pand (getField user "username")
                                       (getField user "passwordHash")) = true)
             (imap (fun index row => SystemReader.userOfRow row index) rows) ->
  exists index row,
    rows !! index = Some row
    /\ getField u "rowIndex" = PNum (Z.of_nat index + 1)
    /\ getField u "username" = PStr (SystemReader.trimmedCell row 0 [])
    /\ getField u "passwordHash" = PStr (SystemReader.trimmedCell row 1 [])
    /\ SystemReader.trimmedCell row 0 [] <> []
    /\ SystemReader.trimmedCell row 1 [] <> [].
Proof.
  intros Hu. apply list_elem_of_filter in Hu as [Hkept Hu].
  apply elem_of_lookup_imap in Hu as (index & row & -> & Hrow).
  apply user_kept in Hkept as [Hn Hp]. by exists index, row.
Qed.

(** X14. On a read of the register from the sheet, [getUsers] returns one
    user for each row whose trimmed name and password hash are both
    non-empty, and no other: the user's [rowIndex] is the 1-based position
    of that row in the sheet, so a blank or incomplete row above a user
    does not shift the index. *)
Theorem users_point_at_their_rows (now : Z) (w : World) (rows : list Row) :
  fresh w "users" now = false ->
  sheets {| spreadsheetId := default targetSpreadsheetId (IDS_AUTH config);
            range := "使用者名冊!A:D" |} (calls w) = Resolve (Some rows) ->
  exists users,
    (SystemReader.getUsers now w).1 = DRows users
    /\ (forall u, u ∈ users ->
          exists index row,
            rows !! index = Some row
            /\ getField u "rowIndex" = PNum (Z.of_nat index + 1)
            /\ getField u "username" = PStr (SystemReader.trimmedCell row 0 [])
            /\ getField u "passwordHash" = PStr (SystemReader.trimmedCell row 1 [])
            /\ SystemReader.trimmedCell row 0 [] <> []
            /\ SystemReader.trimmedCell row 1 [] <> [])
    /\ (forall index row,
          rows !! index = Some row ->
          SystemReader.trimmedCell row 0 [] <> [] ->
          SystemReader.trimmedCell row 1 [] <> [] ->
          SystemReader.userOfRow row index ∈ users).
Proof.
  intros Hmiss Hread. eexists. split; [by apply getUsers_read|]. split.
  - apply kept_user_row.
  - intros index row Hrow Hn Hp. apply list_elem_of_filter. split.
    + by apply user_kept.
    + apply elem_of_lookup_imap. by exists index, row.
Qed.

(** X15. The writer and the reader agree on where a user lives. When
    both are built on the same spreadsheet, and the users are what
    [getUsers] has just read from the sheet, [updateUserPassword] writes
    column B of the sheet row the named user was parsed from, and
    [deleteUser] deletes exactly that row (from its 0-based position to
    the next), both in the spreadsheet [getUsers] read; with no user of
    that name both fail and write nothing. *)
Theorem user_writes_address_the_parsed_row (StringToNumber : jsstring -> JsNum)
    (now : Z) (w : World) (rows : list Row) (users : list Obj)
    (username : jsstring) (newPasswordHash sheetId : Prim) :
  fresh w "users" now = false ->
  sheets {| spreadsheetId := default targetSpreadsheetId (IDS_AUTH config);
            range := "使用者名冊!A:D" |} (calls w) = Resolve (Some rows) ->
  (SystemReader.getUsers now w).1 = DRows users ->
  match SystemWriter.updateUserPassword targetSpreadsheetId users (PStr username)
          newPasswordHash,
        SystemWriter.deleteUser targetSpreadsheetId StringToNumber users sheetId
          (PStr username) with
  | Some update, Some deletion =>
      exists index row,
        rows !! index = Some row
        /\ SystemReader.trimmedCell row 0 [] = username
        /\ SystemWriter.cu_row update = PNum (Z.of_nat index + 1)
        /\ SystemWriter.cu_column update = "B"%string
        /\ SystemWriter.rd_startIndex deletion = Num (Z.of_nat index)
        /\ SystemWriter.rd_endIndex deletion = PNum (Z.of_nat index + 1)
        /\ SystemWriter.cu_spreadsheetId update
           = default targetSpreadsheetId (IDS_AUTH config)
        /\ SystemWriter.rd_spreadsheetId deletion
           = default targetSpreadsheetId (IDS_AUTH config)
  | None, None =>
      forall u, u ∈ users -> getField u "username" <> PStr username
  | _, _ => False
  end.
Proof.
  intros Hmiss Hread Husers.
  assert (forall u, u ∈ users ->
            exists index row,
              rows !! index = Some row
              /\ getField u "rowIndex" = PNum (Z.of_nat index + 1)
              /\ getField u "username" = PStr (SystemReader.trimmedCell row 0 [])
              /\ getField u "passwordHash" = PStr (SystemReader.trimmedCell row 1 [])
              /\ SystemReader.trimmedCell row 0 [] <> []
              /\ SystemReader.trimmedCell row 1 [] <> []) as Hsound.
  { rewrite (getUsers_read now w rows Hmiss Hread) in Husers.
    injection Husers as <-. apply kept_user_row. }
  assert (SystemWriter._getAuthTargetId targetSpreadsheetId
          = default targetSpreadsheetId (IDS_AUTH config)) as Htarget.
  { unfold SystemWriter._getAuthTargetId. destruct (IDS_AUTH config) as [auth|]; [|done].
    simpl. destruct (decide (auth <> targetSpreadsheetId)) as [Hne|Heq].
    - by rewrite bool_decide_eq_true_2.
    - rewrite bool_decide_eq_false_2 by done. by apply dec_stable in Heq. }
  unfold SystemWriter.updateUserPassword, SystemWriter.deleteUser.
  destruct (list_find _ users) as [[userIndex user]|] eqn:Efind.
  - apply list_find_Some in Efind as (Hlook & Hname & Hfirst).
    assert (List.find (fun u => strictEq (getField u "username") (PStr username)) users
            = Some user) as Hfind.
    { clear Hsound Husers. revert userIndex Hlook Hfirst.
      induction users as [|u0 t IH]; intros userIndex Hlook Hfirst; [done|].
      simpl. unfold strictEq at 1. destruct userIndex as [|j].
      - injection Hlook as ->. by rewrite bool_decide_eq_true_2.
      - rewrite bool_decide_eq_false_2 by (apply (Hfirst 0%nat); [done|lia]).
        apply (IH j); [done|]. intros i y Hy Hi.
        apply (Hfirst (S i)); [done|lia]. }
    rewrite Hfind, Hlook. simpl.
    destruct (Hsound user) as (index & row & Hrow & Hidx & Hu & _).
    { apply list_elem_of_lookup. by exists userIndex. }
    exists index, row. rewrite Hidx, Htarget. simpl.
    split; [done|]. split; [congruence|]. split; [done|]. split; [done|].
    split; [f_equal; lia|]. split; [done|]. split; [done|].
    destruct (decide (default targetSpreadsheetId (IDS_AUTH config)
                      <> targetSpreadsheetId)) as [Hne|Heq].
    + by rewrite bool_decide_eq_true_2.
    + rewrite bool_decide_eq_false_2 by done. apply dec_stable in Heq. by rewrite Heq.
  - apply list_find_None in Efind.
    assert (List.find (fun u => strictEq (getField u "username") (PStr username)) users
            = None) as Hfind.
    { clear Hsound Husers. induction users as [|u0 t IH]; [done|].
      apply Forall_cons in Efind as [Hu Ht]. simpl. unfold strictEq at 1.
      rewrite bool_decide_eq_false_2 by done. auto. }
    rewrite Hfind. intros u Hu. rewrite Forall_forall in Efind. auto.
Qed.

End UserFacts.

Lemma users_point_at_their_rows_witness :
  let E := tableEngine [] in
  let R := scriptedReader [Resolve (Some ([js "ghost"] :: usersSheet))] 300000 in
  exists users,
    (@SystemReader.getUsers E R 1000 emptyWorld).1 = DRows users
    /\ map (fun u => (getField u "username", getField u "rowIndex")) users
       = [(PStr (js "alice"), PNum 2); (PStr (js "bob"), PNum 3)].
Proof.
  intros E R.
  destruct (@users_point_at_their_rows E R 1000 emptyWorld
              ([js "ghost"] :: usersSheet) eq_refl eq_refl) as (users & Hu & _).
  exists users. split; [exact Hu|].
  vm_compute in Hu. by injection Hu as <-.
Defined.

Lemma user_writes_address_the_parsed_row_witness :
  let E := tableEngine [] in
  let R := scriptedReader [Resolve (Some ([js "ghost"] :: usersSheet))] 300000 in
  let users := default [] (match (@SystemReader.getUsers E R 1000 emptyWorld).1 with
                           | DRows users => Some users
                           | _ => None
                           end) in
  exists deletion,
    @SystemWriter.deleteUser R (@targetSpreadsheetId R) (fun _ => NaN) users
      (PNum 0) (PStr (js "bob")) = Some deletion
    /\ SystemWriter.rd_startIndex deletion = Num 2
    /\ (usersSheet !! 1%nat = Some [js "bob"; js "h2"]).
Proof.
  intros E R users.
  pose proof (@user_writes_address_the_parsed_row E R (fun _ => NaN) 1000 emptyWorld
                ([js "ghost"] :: usersSheet) users (js "bob") (PStr (js "h9"))
                (PNum 0) eq_refl eq_refl eq_refl) as Hw.
  destruct (SystemWriter.updateUserPassword _ _ _ _) as [update|]; [|
    destruct (SystemWriter.deleteUser _ _ _ _ _); [done|];
    exfalso; apply (Hw (@SystemReader.userOfRow E [js "bob"; js "h2"] 2));
    [|reflexivity]; apply elem_of_cons; right; apply elem_of_cons; left;
    vm_compute; reflexivity ].
  destruct (SystemWriter.deleteUser _ _ _ _ _) as [deletion|]; [|done].
  destruct Hw as (index & row & Hrow & Hname & _ & _ & Hstart & _).
  exists deletion. split; [done|]. split; [|done].
  rewrite Hstart. do 3 (destruct index as [|index]; [vm_compute in Hrow;
    injection Hrow as <-; vm_compute in Hname; try discriminate; try done|]).
  done.
Defined.


(** ** The linked contacts *)

Section LinkedFacts.
Context `{Engine}.

(** X16. [getLinkedContacts] lists exactly the rows of the contact list
    whose identifier has an active link to the opportunity, in the order
    of the contact list and once per row: a second link to the same
    contact adds nothing, and a link that is not active counts for
    nothing. *)
Theorem linked_contacts_exact (opportunityId : Prim)
    (allLinks allContacts allCompanies allPotentialContacts : list Obj) :
  map (fun r => getField r "contactId")
      (ContactReader.getLinkedContacts opportunityId allLinks allContacts
         allCompanies allPotentialContacts)
  = map (fun c => getField c "contactId")
        (filter (fun c => Exists (activeLink opportunityId (getField c "contactId"))
                                 allLinks)
                allContacts).
Proof.
  unfold ContactReader.getLinkedContacts.
  set (ids := ContactReader.linkedContactIds opportunityId allLinks).
  assert (filter (fun contact => getField contact "contactId" ∈ ids) allContacts
          = filter (fun c => Exists (activeLink opportunityId (getField c "contactId"))
                                    allLinks) allContacts) as Hfilter.
  { apply list_filter_iff. intros c. apply linkedContactIds_spec. }
  destruct (decide (size ids = 0%nat)) as [Hempty|Hne].
  - rewrite bool_decide_eq_true_2 by done. rewrite <- Hfilter.
    apply size_empty_inv in Hempty. clear Hfilter.
    induction allContacts as [|c t IH]; [done|].
    rewrite filter_cons. destruct (decide _) as [Hin|_]; [|done].
    apply Hempty in Hin. by apply elem_of_empty in Hin.
  - rewrite bool_decide_eq_false_2 by done. rewrite <- Hfilter.
    rewrite <- list_fmap_compose. apply list_fmap_ext. by intros.
Qed.

Lemma truthy_pand (a b : Prim) : truthy (pand a b) = truthy a && truthy b.
Proof. unfold pand. destruct (truthy a) eqn:E; simpl; [done|apply E]. Qed.

Lemma bar_split (a a' b b' : jsstring) (x : N) :
  x ∉ a -> x ∉ a' -> a ++ [x] ++ b = a' ++ [x] ++ b' -> a = a' /\ b = b'.
Proof.
  revert a'. induction a as [|c a IH]; intros [|c' a'] Ha Ha'; simpl.
  - by intros [= ->].
  - intros [= <- _]. exfalso. apply Ha'. by left.
  - intros [= -> _]. exfalso. apply Ha. by left.
  - intros [= -> Hrest]. apply not_elem_of_cons in Ha as [_ Ha].
    apply not_elem_of_cons in Ha' as [_ Ha'].
    destruct (IH a' Ha Ha' Hrest) as [-> ->]. done.
Qed.

(** X17. A card image is only attached by a matching key. When a linked
    contact comes back with a drive link, some potential contact with a
    name, a company and that drive link has the same key; and when the
    normalised names hold no bar, the separator of the key, that potential
    contact has the same normalised name as the contact and a company
    whose normalised name is the contact's company name, normalised. *)
Theorem card_attached_by_matching_key (opportunityId : Prim)
    (allLinks allContacts allCompanies allPotentialContacts : list Obj) (r : Obj) :
  r ∈ ContactReader.getLinkedContacts opportunityId allLinks allContacts
        allCompanies allPotentialContacts ->
  getField r "driveLink" <> PStr [] ->
  exists pc,
    pc ∈ allPotentialContacts
    /\ ContactReader.hasCard pc = true
    /\ getField pc "driveLink" = getField r "driveLink"
    /\ ContactReader.cardKey (getField pc "name") (getField pc "company")
       = ContactReader.cardKey (getField r "name") (getField r "companyName")
    /\ (cu_bar ∉ ContactReader._normalizeKey (getField pc "name") ->
        cu_bar ∉ ContactReader._normalizeKey (getField r "name") ->
        ContactReader._normalizeKey (getField pc "name")
          = ContactReader._normalizeKey (getField r "name")
        /\ ContactReader._normalizeKey (getField pc "company")
           = ContactReader._normalizeKey (getField r "companyName")).
Proof.
  unfold ContactReader.getLinkedContacts. intros Hr.
  destruct (bool_decide _); [by apply elem_of_nil in Hr|].
  apply list_elem_of_fmap in Hr as (contact & -> & _).
  unfold ContactReader.enrich. simpl.
  set (companyName := por _ (PStr [])).
  destruct (truthy (pand (getField contact "name") companyName)); [|done].
  unfold mapGet, ContactReader.potentialCardMap. rewrite foldl_addCard, lookup_empty.
  destruct (List.find _ allPotentialContacts) as [pc|] eqn:Efind;
    [|by intros Hlink; destruct Hlink].
  simpl. intros Hlink. apply find_some in Efind as [Hin Hpc].
  apply andb_true_iff in Hpc as [Hcard Hkey]. apply bool_decide_eq_true in Hkey.
  exists pc. split; [by apply list_elem_of_In|]. split; [done|].
  assert (por (getField pc "driveLink") (PStr []) = getField pc "driveLink") as Hpor.
  { unfold ContactReader.hasCard in Hcard. rewrite truthy_pand in Hcard.
    apply andb_true_iff in Hcard as [_ Hcard]. unfold por. by rewrite Hcard. }
  split; [by rewrite Hpor|]. split; [done|].
  intros Hb Hb'. unfold ContactReader.cardKey in Hkey.
  by apply (bar_split _ _ _ _ cu_bar).
Qed.

End LinkedFacts.

Lemma card_attached_by_matching_key_witness :
  let E := tableEngine [] in
  let card := [("name", PStr (js " ANN ")); ("company", PStr (js "acme"));
               ("driveLink", PStr (js "https://drive/1"))] in
  exists r pc,
    @ContactReader.getLinkedContacts E (PStr (js "O1")) [annLink] [annContact]
      [acmeFirst] [card] = [r]
    /\ pc ∈ [card]
    /\ getField pc "driveLink" = getField r "driveLink"
    /\ @ContactReader._normalizeKey E (getField pc "name")
       = @ContactReader._normalizeKey E (getField r "name").
Proof.
  intros E card. eexists.
  destruct (@card_attached_by_matching_key E (PStr (js "O1")) [annLink] [annContact]
              [acmeFirst] [card]
              (@ContactReader.enrich E (ContactReader.companyNameMap [acmeFirst])
                 (@ContactReader.potentialCardMap E [card]) annContact))
    as (pc & Hin & _ & Hlink & _ & Hnames).
  { vm_compute. apply list_elem_of_singleton. reflexivity. }
  { vm_compute. discriminate. }
  exists pc. split; [vm_compute; reflexivity|]. split; [done|]. split; [done|].
  apply Hnames.
  - apply list_elem_of_singleton in Hin as ->. vm_compute.
    intros Hbar. repeat (apply elem_of_cons in Hbar as [Hbar|Hbar]; [done|]).
    by apply elem_of_nil in Hbar.
  - vm_compute.
    intros Hbar. repeat (apply elem_of_cons in Hbar as [Hbar|Hbar]; [done|]).
    by apply elem_of_nil in Hbar.
Defined.


(** ** The companies *)

Lemma insertSorted_map {A B} (f : A -> B) (comparefn : B -> B -> JsNum)
    (x : A) (l : list A) :
  insertSorted comparefn (f x) (map f l)
  = map f (insertSorted (fun a b => comparefn (f a) (f b)) x l).
Proof.
  induction l as [|y t IH]; simpl; [done|]. unfold placedAfter.
  destruct (comparefn (f x) (f y)) as [|v]; [done|].
  destruct (0 <? v); [|done]. simpl. by rewrite IH.
Qed.

Lemma sortBy_map {A B} (f : A -> B) (comparefn : B -> B -> JsNum) (l : list A) :
  sortBy comparefn (map f l)
  = map f (sortBy (fun a b => comparefn (f a) (f b)) l).
Proof.
  unfold sortBy. induction l as [|x t IH]; simpl; [done|].
  by rewrite IH, insertSorted_map.
Qed.

Lemma filterThrowing_elem_iff {A} (f : A -> option bool) (l r : list A) (x : A) :
  CompanyService.filterThrowing f l = Some r ->
  x ∈ r <-> x ∈ l /\ f x = Some true.
Proof.
  revert r. induction l as [|y t IH]; simpl; intros r.
  - intros [= <-]. rewrite !elem_of_nil. tauto.
  - destruct (f y) as [keep|] eqn:Ef; [|done].
    destruct (CompanyService.filterThrowing f t) as [t'|]; [|done]. simpl.
    specialize (IH t' eq_refl). intros [= <-].
    destruct keep; rewrite ?elem_of_cons, IH; split.
    + intros [->|[? ?]]; auto.
    + intros [[->|?] ?]; auto.
    + intros [? ?]; auto.
    + intros [[->|?] ?]; [congruence|auto].
Qed.

Section CompanyFacts.
Context `{Engine}.

Lemma findThrowing_ext {A} (f g : A -> option bool) (l : list A) :
  (forall x, f x = g x) ->
  CompanyLookup.findThrowing f l = CompanyLookup.findThrowing g l.
Proof.
  intros Hfg. induction l as [|x t IH]; simpl; [done|]. by rewrite Hfg, IH.
Qed.

Lemma findThrowing_found {A} (f : A -> option bool) (l : list A) (x : A) :
  CompanyLookup.findThrowing f l = Some (Some x) -> x ∈ l /\ f x = Some true.
Proof.
  induction l as [|y t IH]; simpl; [done|].
  destruct (f y) as [[|]|] eqn:Ef; [|intros Hf|done].
  - intros [= <-]. split; [by left|done].
  - destruct (IH Hf). split; [by right|done].
Qed.

Lemma exact_name_is_same_name (normalizedTarget : jsstring) (companyName x : Prim) :
  CompanyLookup.normalizeName companyName = Some normalizedTarget ->
  (if strictEq x companyName then Some true
   else CompanyLookup.sameName normalizedTarget x)
  = CompanyLookup.sameName normalizedTarget x.
Proof.
  intros Ht. unfold strictEq. destruct (decide (x = companyName)) as [->|Hne].
  - rewrite bool_decide_eq_true_2 by done. unfold CompanyLookup.sameName.
    rewrite Ht. simpl. by rewrite bool_decide_eq_true_2.
  - by rewrite bool_decide_eq_false_2.
Qed.

(** X18. [_findCompanyRowIndex] and [getCompanyDetails] resolve a name to
    the same company, the first one of the list with the same normalised
    name; the test for the exact name in [_findCompanyRowIndex] changes
    nothing. So [updateCompany], which checks the details first, writes
    the row of the company it has checked, and after details that found
    no company the row look-up is the "not found" error. *)
Theorem row_lookup_agrees_with_details
    (allCompanies allContacts allOpportunities allInteractions allEventLogs : list Obj)
    (companyName : Prim) (details : CompanyLookup.Details) :
  CompanyLookup.getCompanyDetails allCompanies allContacts allOpportunities
    allInteractions allEventLogs companyName = Some details ->
  CompanyLookup._findCompanyRowIndex allCompanies companyName
  = match CompanyLookup.companyInfo details with
    | Some info =>
        if truthy (getField info "rowIndex")
        then CompanyLookup.RowIndex (getField info "rowIndex")
        else CompanyLookup.RowIndexMissing
    | None => CompanyLookup.NotFound
    end.
Proof.
  unfold CompanyLookup.getCompanyDetails, CompanyLookup._findCompanyRowIndex.
  destruct (CompanyLookup.normalizeName companyName) as [target|] eqn:Et; [|done].
  assert (CompanyLookup.findThrowing
            (fun c =>
               if strictEq (getField c "companyName") companyName then Some true
               else CompanyLookup.sameName target (getField c "companyName"))
            allCompanies
          = CompanyLookup.findThrowing
              (fun c => CompanyLookup.sameName target (getField c "companyName"))
              allCompanies) as ->.
  { apply findThrowing_ext. intros c. by apply exact_name_is_same_name. }
  destruct (CompanyLookup.findThrowing _ allCompanies) as [[info|]|]; [| |done].
  - destruct (CompanyService.filterThrowing _ allOpportunities); [|done].
    by intros [= <-].
  - by intros [= <-].
Qed.

(** X19. What [getCompanyDetails] gathers for the company it finds: the
    company is one of the list whose normalised name is that of the
    request, and an interaction is shown exactly when it carries the
    company's identifier, or carries the identifier of an opportunity
    whose customer company has that normalised name. An interaction with
    no opportunity identifier is never shown through an opportunity. *)
Theorem company_details_gather_by_name
    (allCompanies allContacts allOpportunities allInteractions allEventLogs : list Obj)
    (companyName : Prim) (details : CompanyLookup.Details) (info : Obj) :
  CompanyLookup.getCompanyDetails allCompanies allContacts allOpportunities
    allInteractions allEventLogs companyName = Some details ->
  CompanyLookup.companyInfo details = Some info ->
  info ∈ allCompanies
  /\ CompanyLookup.normalizeName (getField info "companyName")
     = CompanyLookup.normalizeName companyName
  /\ forall i,
       i ∈ CompanyLookup.interactions details
       <-> i ∈ allInteractions
           /\ (getField i "companyId" = getField info "companyId"
               \/ (truthy (getField i "opportunityId") = true
                   /\ exists o,
                        o ∈ allOpportunities
                        /\ getField o "opportunityId" = getField i "opportunityId"
                        /\ CompanyLookup.normalizeName (getField o "customerCompany")
                           = CompanyLookup.normalizeName companyName)).
Proof.
  unfold CompanyLookup.getCompanyDetails.
  destruct (CompanyLookup.normalizeName companyName) as [target|] eqn:Et; [|done].
  assert (forall x, CompanyLookup.sameName target x = Some true
                    <-> CompanyLookup.normalizeName x = Some target) as Hsame.
  { intros x. unfold CompanyLookup.sameName.
    destruct (CompanyLookup.normalizeName x) as [n|]; simpl; [|done].
    destruct (decide (n = target)) as [->|Hne].
    - by rewrite bool_decide_eq_true_2.
    - rewrite bool_decide_eq_false_2 by done. split; [done|congruence]. }
  destruct (CompanyLookup.findThrowing _ allCompanies) as [[found|]|] eqn:Ef;
    [| by intros [= <-] | done].
  destruct (CompanyService.filterThrowing _ allOpportunities) as [opps|] eqn:Eo;
    [|done].
  intros [= <-]. simpl. intros [= <-].
  apply findThrowing_found in Ef as [Hin Hname]. apply Hsame in Hname.
  split; [done|]. split; [done|]. intros i.
  rewrite sortBy_Permutation, list_elem_of_filter. unfold CompanyLookup.belongsTo.
  rewrite elem_of_list_to_set, list_elem_of_fmap.
  split.
  - intros [[Hc|[Ht (o & Ho & Hoin)]] Hi]; (split; [done|]); [by left|right].
    split; [done|]. exists o.
    apply (filterThrowing_elem_iff _ _ _ o Eo) in Hoin as [Hoin Hon].
    apply Hsame in Hon. done.
  - intros [Hi [Hc|[Ht (o & Hoin & Ho & Hon)]]]; (split; [|done]); [by left|right].
    split; [done|]. exists o. split; [done|].
    apply (filterThrowing_elem_iff _ _ _ o Eo). split; [done|]. by apply Hsame.
Qed.

Lemma rank_of_withActivity (m : gmap Prim Z) (c : Obj) :
  getField (CompanyService.withActivity m c) "_sortTs" = PNum (rankTs m c).
Proof. unfold CompanyService.withActivity. apply getField_setField_eq. Qed.

(** X20. The company list comes back with the latest activity first: the
    companies that passed the filters are ranked by their last activity,
    by their creation time when they have none, and by 0 when they have
    neither, and no company is ranked before one with a later time. *)
Theorem company_list_latest_activity_first (filters : CompanyService.Filters)
    (companiesRaw interactions eventLogs companies : list Obj) :
  CompanyService.memoryFilter filters companiesRaw = Some companies ->
  let m := CompanyService.activityMap interactions eventLogs in
  exists ranked,
    ranked ≡ₚ companies
    /\ StronglySorted (fun a b => rankTs m b <= rankTs m a) ranked
    /\ CompanyService.getCompanyListWithActivity filters companiesRaw
         interactions eventLogs
       = map (fun comp => CompanyService.dropSortTs (CompanyService.withActivity m comp))
             ranked.
Proof.
  intros Hfilter m. unfold CompanyService.getCompanyListWithActivity.
  rewrite Hfilter. fold m. rewrite sortBy_map.
  set (cmp := fun a b => CompanyService.bySortTsDesc _ _).
  assert (forall a b, cmp a b = Num (rankTs m b - rankTs m a)) as Hcmp.
  { intros a b. unfold cmp, CompanyService.bySortTsDesc.
    by rewrite !rank_of_withActivity. }
  exists (sortBy cmp companies). split; [apply sortBy_Permutation|].
  split; [|by rewrite map_map].
  apply (sortBy_StronglySorted _ _ (fun _ => True)).
  - intros a b c _ _ _. lia.
  - intros a b _ _. unfold placedAfter. rewrite Hcmp. intros E.
    apply Z.ltb_lt in E. lia.
  - intros a b _ _. unfold placedAfter. rewrite Hcmp. intros E.
    apply Z.ltb_ge in E. lia.
  - by apply Forall_true.
Qed.

End CompanyFacts.

Lemma row_lookup_agrees_with_details_witness :
  let E := tableEngine sampleDates in
  let acme := [("companyId", PStr (js "C1")); ("companyName", PStr (js "Acme (TW)"));
               ("rowIndex", PNum 2)] in
  @CompanyLookup._findCompanyRowIndex E [acme; initech] (PStr (js " ACME "))
  = CompanyLookup.RowIndex (PNum 2).
Proof.
  intros E acme.
  apply (@row_lookup_agrees_with_details E [acme; initech] [] [] [] []
           (PStr (js " ACME ")) _ eq_refl).
Defined.

Lemma company_details_gather_by_name_witness :
  let E := tableEngine sampleDates in
  let deal := [("opportunityId", PStr (js "O1"));
               ("customerCompany", PStr (js "ACME"))] in
  let call := [("interactionId", PStr (js "I7")); ("opportunityId", PStr (js "O1"))] in
  exists details,
    @CompanyLookup.getCompanyDetails E [acmeFirst] [] [deal] [call; annInteraction] []
      (PStr (js "acme")) = Some details
    /\ call ∈ CompanyLookup.interactions details.
Proof.
  intros E deal call. eexists. split; [reflexivity|].
  apply (@company_details_gather_by_name E [acmeFirst] [] [deal]
           [call; annInteraction] [] (PStr (js "acme")) _ acmeFirst eq_refl eq_refl).
  split; [by left|]. right. split; [reflexivity|]. exists deal.
  split; [by left|]. split; reflexivity.
Defined.

Lemma company_list_latest_activity_first_witness :
  let E := tableEngine sampleDates in
  let m := @CompanyService.activityMap E [annInteraction] [] in
  exists ranked,
    ranked ≡ₚ [acmeFirst; initech; epochCompany]
    /\ StronglySorted (fun a b => @rankTs E m b <= @rankTs E m a) ranked
    /\ @CompanyService.getCompanyListWithActivity E CompanyService.noFilters
         [acmeFirst; initech; epochCompany] [annInteraction] []
       = map (fun comp => CompanyService.dropSortTs
                            (@CompanyService.withActivity E m comp)) ranked.
Proof.
  intros E m.
  apply (@company_list_latest_activity_first E CompanyService.noFilters
           [acmeFirst; initech; epochCompany] [annInteraction] []
           [acmeFirst; initech; epochCompany] eq_refl).
Defined.


(** ** The update of a potential contact *)

Lemma keepsCells_padTo (first : Row) (touched : list nat) (n : nat) (row : list Prim) :
  keepsCells first touched row -> keepsCells first touched (ContactWriter.padTo n row).
Proof.
  intros [Hlen Hk]. unfold ContactWriter.padTo. split.
  - rewrite length_app. lia.
  - intros i Hi. destruct (Hk i Hi) as [Hcell Hpad]. split.
    + intros cell Hc. rewrite lookup_app_l; [by apply Hcell|].
      apply lookup_lt_Some in Hc. lia.
    + intros c Hge. destruct (decide (i < length row)%nat) as [Hlt|Hnlt].
      * rewrite lookup_app_l by done. by apply Hpad.
      * rewrite lookup_app_r by lia. intros Hc.
        apply lookup_replicate in Hc as [-> _]. done.
Qed.

Lemma keepsCells_insert (first : Row) (touched : list nat) (j : nat) (v : Prim)
    (row : list Prim) :
  j ∈ touched ->
  keepsCells first touched row -> keepsCells first touched (<[j := v]> row).
Proof.
  intros Hj [Hlen Hk]. split.
  - by rewrite length_insert.
  - intros i Hi. assert (j <> i) as Hne by (intros ->; done).
    rewrite list_lookup_insert_ne by done. by apply Hk.
Qed.

Lemma keepsCells_setCell (first : Row) (touched : list nat) (j : nat) (v : Prim)
    (row : list Prim) :
  j ∈ touched ->
  keepsCells first touched row ->
  keepsCells first touched (ContactWriter.setCell j v row).
Proof.
  intros Hj Hk. unfold ContactWriter.setCell.
  destruct v; auto using keepsCells_insert.
Qed.

Section ContactWriterFacts.
Context `{Reader}.

(** X21. [updatePotentialContact] refuses the header row and every row
    above it, and what it writes keeps the row it has read: outside the
    five configured columns, and the notes column when there is one,
    every cell of the row is written back as it was, the row is never
    shortened, and a cell added to reach a configured column is empty. *)
Theorem potential_contact_update_keeps_other_cells (NOTES : option nat)
    (today : jsstring) (rowIndex : Z) (values : option (list Row))
    (data : ContactWriter.Update) (modifier : Prim) (written : list Prim) :
  ContactWriter.updatePotentialContact NOTES today rowIndex values data modifier
    = ContactWriter.Written written ->
  1 < rowIndex
  /\ exists first rest,
       values = Some (first :: rest)
       /\ first <> []
       /\ keepsCells first (writtenIndexes NOTES) written.
Proof.
  unfold ContactWriter.updatePotentialContact.
  destruct (Z.leb_spec rowIndex 1) as [|Hrow]; [done|].
  destruct values as [[|first rest]|]; [done| |done].
  destruct first as [|c0 first]; [done|].
  intros [= <-]. split; [done|]. exists (c0 :: first), rest.
  split; [done|]. split; [done|].
  set (F := CONTACT_FIELDS config).
  assert (forall j row, j ∈ [CF_NAME F; CF_COMPANY F; CF_POSITION F; CF_MOBILE F;
                              CF_EMAIL F] ->
            forall v, keepsCells (c0 :: first) (writtenIndexes NOTES) row ->
                      keepsCells (c0 :: first) (writtenIndexes NOTES)
                        (ContactWriter.setCell j v row)) as Hset.
  { intros j row Hj v. apply keepsCells_setCell. unfold writtenIndexes.
    apply elem_of_app. by left. }
  assert (keepsCells (c0 :: first) (writtenIndexes NOTES) (map PStr (c0 :: first)))
    as Hstart.
  { split; [by rewrite length_map|]. intros i _. split.
    - intros cell Hc. by rewrite list_lookup_fmap, Hc.
    - intros c Hge Hc. apply lookup_lt_Some in Hc. rewrite length_map in Hc. lia. }
  unfold ContactWriter.appendNote.
  destruct NOTES as [n|].
  - destruct (ContactWriter.notes data);
      repeat first [ apply keepsCells_insert; [unfold writtenIndexes; set_solver|]
                   | apply keepsCells_padTo
                   | apply Hset; [set_solver|] ]; done.
  - repeat first [ apply keepsCells_padTo | apply Hset; [set_solver|] ]; done.
Qed.

End ContactWriterFacts.

Lemma potential_contact_update_keeps_other_cells_witness :
  let R := scriptedReader [] 0 in
  let data := {| ContactWriter.name := PStr (js "Bob B."); ContactWriter.company := PUndefined;
                 ContactWriter.position := PUndefined; ContactWriter.mobile := PUndefined;
                 ContactWriter.email := PUndefined; ContactWriter.notes := PUndefined |} in
  exists written,
    @ContactWriter.updatePotentialContact R None [] 3
      (Some [[js "2026-01-02T00:00:00.000Z"; js "Bob"]]) data (PStr (js "amy"))
    = ContactWriter.Written written
    /\ written !! 0%nat = Some (PStr (js "2026-01-02T00:00:00.000Z"))
    /\ (2 <= length written)%nat.
Proof.
  intros R data. eexists. split; [reflexivity|].
  destruct (@potential_contact_update_keeps_other_cells R None [] 3
              (Some [[js "2026-01-02T00:00:00.000Z"; js "Bob"]]) data
              (PStr (js "amy")) _ eq_refl)
    as (_ & first & rest & Hv & _ & Hlen & Hk).
  injection Hv as <- <-. split; [|exact Hlen].
  apply (Hk 0%nat); [|reflexivity]. vm_compute.
  intros Hin. repeat (apply elem_of_cons in Hin as [Hin|Hin]; [done|]).
  by apply elem_of_nil in Hin.
Defined.

(** ** The calendar keywords *)

Lemma includes_empty_summary (kw : jsstring) : kw <> [] -> includes [] kw = false.
Proof. by destruct kw. Qed.

Lemma filterThrowing_negb_split {A} (f : A -> option bool) (l yes no : list A) :
  CompanyService.filterThrowing f l = Some yes ->
  CompanyService.filterThrowing (fun x => negb <$> f x) l = Some no ->
  yes ++ no ≡ₚ l.
Proof.
  revert yes no. induction l as [|x t IH]; simpl; intros yes no.
  - by intros [= <-] [= <-].
  - destruct (f x) as [keep|]; [|done]. simpl.
    destruct (CompanyService.filterThrowing f t) as [yes'|]; [|done].
    destruct (CompanyService.filterThrowing _ t) as [no'|]; [|done]. simpl.
    intros [= <-] [= <-]. specialize (IH yes' no' eq_refl eq_refl).
    destruct keep; simpl.
    + by rewrite IH.
    + by rewrite <- Permutation_middle, IH.
Qed.

(** X22. The keyword step of [getWeeklyDetails]. A keyword is never
    empty, so a stray comma in a rule's note matches nothing; every event
    of the second calendar lands in exactly one of the two lists; the
    events kept from the first calendar come first in the first list, in
    their order; and an event with no summary is neither blocked nor
    moved. *)
Theorem calendar_keywords_split_events (rules rawDxEvents rawAtEvents : list Obj)
    (finalDxList finalAtList : list Obj) :
  WeeklyBusinessService.classifyEvents rules rawDxEvents rawAtEvents
    = Some (finalDxList, finalAtList) ->
  exists dxBlockKeywords atTransferKeywords kept moved,
    WeeklyBusinessService.keywordsOf rules WeeklyBusinessService.dxBlockKey
      = Some dxBlockKeywords
    /\ WeeklyBusinessService.keywordsOf rules WeeklyBusinessService.atTransferKey
       = Some atTransferKeywords
    /\ ([] ∉ dxBlockKeywords) /\ ([] ∉ atTransferKeywords)
    /\ finalDxList = kept ++ moved
    /\ kept `sublist_of` rawDxEvents
    /\ moved ++ finalAtList ≡ₚ rawAtEvents
    /\ (forall evt, evt ∈ rawDxEvents ->
          truthy (getField evt "summary") = false -> evt ∈ kept)
    /\ (forall evt, evt ∈ rawAtEvents ->
          truthy (getField evt "summary") = false -> evt ∈ finalAtList).
Proof.
  unfold WeeklyBusinessService.classifyEvents.
  destruct (WeeklyBusinessService.keywordsOf rules WeeklyBusinessService.dxBlockKey)
    as [block|] eqn:Eb; [|done].
  destruct (WeeklyBusinessService.keywordsOf rules WeeklyBusinessService.atTransferKey)
    as [transfer|] eqn:Et; [|done].
  destruct (CompanyService.filterThrowing _ rawDxEvents) as [kept|] eqn:Ek; [|done].
  destruct (CompanyService.filterThrowing
              (fun evt => negb <$> WeeklyBusinessService.mentions transfer evt)
              rawAtEvents) as [stay|] eqn:Es;
    [|by destruct (CompanyService.filterThrowing
                     (WeeklyBusinessService.mentions transfer) rawAtEvents)].
  destruct (CompanyService.filterThrowing
              (WeeklyBusinessService.mentions transfer) rawAtEvents)
    as [moved|] eqn:Em; [|done].
  intros Heq. injection Heq as <- <-.
  exists block, transfer, kept, moved.
  assert (forall keywords value,
            WeeklyBusinessService.keywordsOf rules value = Some keywords ->
            [] ∉ keywords) as Hnonempty.
  { intros keywords value. unfold WeeklyBusinessService.keywordsOf.
    destruct (match List.find _ rules with Some _ => _ | None => _ end);
      try done.
    intros [= <-] Hin. by apply list_elem_of_filter in Hin as [Hne _]. }
  assert (forall keywords evt,
            [] ∉ keywords -> truthy (getField evt "summary") = false ->
            WeeklyBusinessService.mentions keywords evt = Some false) as Hsilent.
  { intros keywords evt Hne Hs. unfold WeeklyBusinessService.mentions, por.
    rewrite Hs. destruct keywords as [|kw0 kws]; [done|]. f_equal.
    apply not_true_iff_false. intros Hex. apply existsb_exists in Hex as (kw & Hin & Hinc).
    rewrite includes_empty_summary in Hinc; [done|].
    intros ->. apply Hne. by apply list_elem_of_In. }
  split; [done|]. split; [done|]. split; [by apply (Hnonempty _ _ Eb)|].
  split; [by apply (Hnonempty _ _ Et)|]. split; [done|].
  split; [by apply (filterThrowing_elem_of _ _ _ Ek)|].
  split; [by apply (filterThrowing_negb_split _ _ _ _ Em Es)|]. split.
  - intros evt Hin Hs. apply (filterThrowing_elem_iff _ _ _ evt Ek). split; [done|].
    by rewrite (Hsilent block evt (Hnonempty _ _ Eb) Hs).
  - intros evt Hin Hs. apply (filterThrowing_elem_iff _ _ _ evt Es). split; [done|].
    by rewrite (Hsilent transfer evt (Hnonempty _ _ Et) Hs).
Qed.

Lemma calendar_keywords_split_events_witness :
  let rules := [ [("value", PStr WeeklyBusinessService.dxBlockKey);
                  ("note", PStr (js "lunch, ,"))] ] in
  let lunch := [("summary", PStr (js "team lunch"))] in
  let review := [("summary", PStr (js "design review"))] in
  let untitled := [("htmlLink", PStr (js "https://cal/1"))] in
  WeeklyBusinessService.classifyEvents rules [lunch; review; untitled] [review]
  = Some ([review; untitled], [review]).
Proof.
  intros rules lunch review untitled.
  destruct (calendar_keywords_split_events rules [lunch; review; untitled] [review]
              [review; untitled] [review] eq_refl) as (_ & _ & _ & _ & _).
  reflexivity.
Defined.

(** ** The row of an announcement *)

Section AnnouncementRowFacts.
Context `{Engine} `{Reader}.

(** X23. Sorting does not disturb the row an announcement is written to.
    On the records the reader builds, each row parsed with its index and
    the whole sorted, [updateAnnouncement] and [deleteAnnouncement] hand
    the writer the sheet row (two more than the index, for the header and
    the 1-based count) of a row that carries the identifier; with no such
    row they fail with "not found". *)
Theorem announcement_row_survives_sorting (rows : list Row) (id : Prim) :
  let allAnnouncements :=
    sortBy AnnouncementReader.sorter
      (imap (fun index row => AnnouncementReader.rowParser row index) rows) in
  match AnnouncementService.targetRowIndex allAnnouncements id with
  | Some rowIndex =>
      exists index row,
        rows !! index = Some row
        /\ rowIndex = PNum (Z.of_nat index + 2)
        /\ por (cell row (AF_ID (ANNOUNCEMENT_FIELDS config))) (PStr []) = id
  | None =>
      forall row, row ∈ rows ->
        por (cell row (AF_ID (ANNOUNCEMENT_FIELDS config))) (PStr []) <> id
  end.
Proof.
  intros allAnnouncements. unfold AnnouncementService.targetRowIndex.
  destruct (List.find _ allAnnouncements) as [target|] eqn:Efind; simpl.
  - apply find_some in Efind as [Hin Hid].
    apply list_elem_of_In in Hin. unfold allAnnouncements in Hin.
    rewrite sortBy_Permutation in Hin.
    apply elem_of_lookup_imap in Hin as (index & row & -> & Hrow).
    exists index, row. split; [done|]. split; [done|].
    unfold strictEq in Hid. by apply bool_decide_eq_true in Hid.
  - intros row Hrow Hid. apply list_elem_of_lookup in Hrow as [index Hrow].
    assert (strictEq (getField (AnnouncementReader.rowParser row index) "id") id
            = false) as Hno.
    { apply (find_none _ _ Efind). apply list_elem_of_In. unfold allAnnouncements.
      rewrite sortBy_Permutation. apply elem_of_lookup_imap. by exists index, row. }
    unfold strictEq in Hno. simpl in Hno. by rewrite bool_decide_eq_true_2 in Hno.
Qed.

End AnnouncementRowFacts.


(** ** Rows that declare an item again *)

Section RedeclarationFacts.
Context `{Engine}.

Lemma forEachRow_app (settings : Settings) (l1 l2 : list Row) :
  SystemReader.forEachRow settings (l1 ++ l2)
  = match SystemReader.forEachRow settings l1 with
    | Some settings' => SystemReader.forEachRow settings' l2
    | None => None
    end.
Proof.
  revert settings. induction l1 as [|row l1 IH]; intros settings; simpl; [done|].
  destruct (SystemReader.applyConfigRow settings row); [apply IH|done].
Qed.

Lemma forEachRow_preserves (Q : Settings -> Prop) (P : Row -> Prop) (rows : list Row) :
  (forall settings settings' row,
     P row -> Q settings ->
     SystemReader.applyConfigRow settings row = Some settings' -> Q settings') ->
  Forall P rows ->
  forall settings settings',
    Q settings -> SystemReader.forEachRow settings rows = Some settings' -> Q settings'.
Proof.
  intros Hstep HP. induction HP as [|row rest Hrow _ IH]; simpl; intros st st' HQ.
  - by intros [= <-].
  - destruct (SystemReader.applyConfigRow st row) as [st1|] eqn:E; [|done].
    apply IH. by apply (Hstep st st1 row).
Qed.

Lemma updateExisting_updated (item note' order' : Prim) (items items' : list Obj) :
  SystemReader.updateExisting item note' order' items = Some items' ->
  exists i o, i ∈ items' /\ o ∈ items
    /\ getField i "value" = item
    /\ getField i "note" = note' /\ getField i "order" = order'
    /\ forall k, k <> "note"%string -> k <> "order"%string ->
                 getField i k = getField o k.
Proof.
  revert items'. induction items as [|o rest IH]; simpl; intros items'; [done|].
  unfold strictEq. destruct (decide (getField o "value" = item)) as [E|NE].
  - rewrite bool_decide_eq_true_2 by done. intros [= <-].
    exists (setField (setField o "note" note') "order" order'), o.
    split; [by left|]. split; [by left|].
    split; [by rewrite !getField_setField_ne|].
    split; [by rewrite getField_setField_ne, getField_setField_eq|].
    split; [apply getField_setField_eq|].
    intros k Hn Ho. by rewrite !getField_setField_ne.
  - rewrite bool_decide_eq_false_2 by done.
    destruct (SystemReader.updateExisting _ _ _ rest) as [rest'|]; [|done].
    simpl. intros [= <-]. destruct (IH rest' eq_refl) as (i & o' & Hi & Ho' & Hrest).
    exists i, o'. split; [by right|]. split; [by right|]. done.
Qed.

Lemma updateExisting_absent (item note' order' : Prim) (items : list Obj) :
  item ∉ valuesOf items ->
  SystemReader.updateExisting item note' order' items = None.
Proof.
  induction items as [|o rest IH]; simpl; [done|]. intros Hno.
  apply not_elem_of_cons in Hno as [Hne Hno]. unfold strictEq.
  rewrite bool_decide_eq_false_2 by congruence. by rewrite IH.
Qed.

(** What a row that passes the test of the loop does, told by cases. *)
Lemma applyConfigRow_cases (settings settings' : Settings) (row : Row) :
  SystemReader.applyConfigRow settings row = Some settings' ->
  (settings' = settings
   /\ forall type item, declares type item row -> type = [] \/ item = [])
  \/ exists type item items,
       row !! 0%nat = Some type /\ row !! 1%nat = Some item
       /\ row !! 3%nat = Some (js "TRUE")
       /\ type <> [] /\ item <> []
       /\ (SystemReader.ownItems settings type = Some items
           \/ (SystemReader.ownItems settings type = None /\ items = []))
       /\ match SystemReader.updateExisting (PStr item)
                  (por (cell row 4) (PStr item))
                  (SystemReader.orderOf (cell row 2)) items with
          | Some items' => settings' = SystemReader.setItems settings type items'
          | None =>
              settings'
              = SystemReader.setItems settings type
                  (items ++
                   [ [("value", PStr item); ("note", por (cell row 4) (PStr item));
                      ("order", SystemReader.orderOf (cell row 2));
                      ("color", por (cell row 5) PNull);
                      ("value2", por (cell row 6) PNull);
                      ("value3", por (cell row 7) PNull);
                      ("category", por (cell row 8)
                                     (PStr SystemReader.category_other))] ])
          end.
Proof.
  unfold SystemReader.applyConfigRow.
  destruct (cell row 0) as [| | | |type] eqn:E0;
    try (intros [= <-]; left; split; [done|]; intros ty it (D0 & _);
         unfold cell in E0; by rewrite D0 in E0).
  destruct (strictEq (cell row 3) (PStr (js "TRUE"))) eqn:E3.
  2:{ intros [= <-]. left. split; [done|]. intros ty it (_ & _ & D3).
      unfold cell in E3. rewrite D3 in E3. unfold strictEq in E3.
      by rewrite bool_decide_eq_true_2 in E3. }
  destruct (truthy (PStr type)) eqn:Et.
  2:{ intros [= <-]. left. split; [done|]. intros ty it (D0 & _).
      unfold cell in E0. rewrite D0 in E0. injection E0 as ->.
      left. by destruct type. }
  destruct (truthy (cell row 1)) eqn:E1.
  2:{ intros [= <-]. left. split; [done|]. intros ty it (_ & D1 & _).
      unfold cell in E1. rewrite D1 in E1. right. by destruct it. }
  simpl. intros Hrow. right.
  unfold cell in E0, E1, E3. unfold cell at 1 2 3.
  destruct (row !! 0%nat) as [type'|] eqn:R0; [|done]. injection E0 as ->.
  destruct (row !! 1%nat) as [item|] eqn:R1; [|done].
  destruct (row !! 3%nat) as [enabled|] eqn:R3; [|done].
  unfold strictEq in E3. apply bool_decide_eq_true in E3. injection E3 as ->.
  exists type, item.
  destruct (SystemReader.ownItems settings type) as [items|] eqn:Eown.
  - exists items. repeat (split; [by first [done|intros ->]|]).
    split; [by left|]. revert Hrow. unfold cell. rewrite R1.
    destruct (SystemReader.updateExisting _ _ _ items); by intros [= <-].
  - destruct (bool_decide (type ∈ SystemReader.objectPrototypeKeys)); [done|].
    exists []. repeat (split; [by first [done|intros ->]|]).
    split; [by right|]. revert Hrow. unfold cell. rewrite R1. simpl.
    by intros [= <-].
Qed.

Lemma listed_kept (settings settings' : Settings) (row : Row)
    (type item : jsstring) (fields : list (string * Prim)) :
  Forall (fun kv => fst kv <> "note"%string /\ fst kv <> "order"%string) fields
  \/ ~ declares type item row ->
  listed settings type item fields ->
  SystemReader.applyConfigRow settings row = Some settings' ->
  listed settings' type item fields.
Proof.
  intros Hwhy (items & i & Hown & Hi & Hv & Hf) Hrow.
  apply applyConfigRow_cases in Hrow
    as [[-> _]|(ty & it & items0 & R0 & R1 & R3 & Hty & Hit & Hitems & Hres)].
  { by exists items, i. }
  destruct (decide (ty = type)) as [->|Hne].
  - assert (items0 = items) as -> by (destruct Hitems as [?|[? _]]; congruence).
    destruct (SystemReader.updateExisting _ _ _ items) as [items'|] eqn:Eu; subst settings'.
    + apply updateExisting_Some in Eu.
      apply list_elem_of_lookup in Hi as [j Hj].
      destruct (Forall2_lookup_l _ _ _ _ _ Eu Hj) as (i' & Hj' & Hsame & Hupd).
      exists items', i'. rewrite ownItems_setItems, bool_decide_eq_true_2 by done.
      split; [done|]. split; [by apply list_elem_of_lookup; exists j|].
      split; [by rewrite Hsame|].
      destruct Hupd as [->|(Hval & _)]; [done|].
      destruct Hwhy as [Hfields|Hnot].
      * rewrite Forall_forall in Hf, Hfields. apply Forall_forall. intros kv Hkv.
        destruct (Hfields kv Hkv). rewrite Hsame by done. auto.
      * exfalso. apply Hnot. split; [done|]. split; [|done]. congruence.
    + exists (items ++ [ [("value", PStr it); ("note", por (cell row 4) (PStr it));
                          ("order", SystemReader.orderOf (cell row 2));
                          ("color", por (cell row 5) PNull);
                          ("value2", por (cell row 6) PNull);
                          ("value3", por (cell row 7) PNull);
                          ("category", por (cell row 8)
                                         (PStr SystemReader.category_other))] ]), i.
      rewrite ownItems_setItems, bool_decide_eq_true_2 by done.
      split; [done|]. split; [apply elem_of_app; by left|done].
  - exists items, i. split; [|done].
    destruct (SystemReader.updateExisting _ _ _ items0); subst settings';
      rewrite ownItems_setItems; by rewrite bool_decide_eq_false_2.
Qed.

Lemma declaring_row_lists (settings settings' : Settings) (row : Row)
    (type item : jsstring) :
  declares type item row -> type <> [] -> item <> [] ->
  SystemReader.applyConfigRow settings row = Some settings' ->
  listed settings' type item
    [("note", por (cell row 4) (PStr item));
     ("order", SystemReader.orderOf (cell row 2))]
  /\ (unlisted settings type item ->
      listed settings' type item
        [("color", por (cell row 5) PNull); ("value2", por (cell row 6) PNull);
         ("value3", por (cell row 7) PNull);
         ("category", por (cell row 8) (PStr SystemReader.category_other))]).
Proof.
  intros Hd Htype Hitem Hrow. pose proof Hd as (D0 & D1 & D3).
  apply applyConfigRow_cases in Hrow
    as [[_ Hno]|(ty & it & items0 & R0 & R1 & R3 & Hty & Hit & Hitems & Hres)].
  { by destruct (Hno type item Hd). }
  rewrite D0 in R0. rewrite D1 in R1. injection R0 as <-. injection R1 as <-.
  destruct (SystemReader.updateExisting _ _ _ items0) as [items'|] eqn:Eu; subst settings'.
  - split.
    + destruct (updateExisting_updated _ _ _ _ _ Eu) as (i & o & Hi & _ & Hv & Hn & Ho & _).
      exists items', i. rewrite ownItems_setItems, bool_decide_eq_true_2 by done.
      split; [done|]. split; [done|]. split; [done|]. by repeat constructor.
    + intros Hun. exfalso.
      destruct (updateExisting_updated _ _ _ _ _ Eu) as (i & o & _ & Ho & Hv & _ & _ & Hk).
      destruct Hitems as [Hown|[_ ->]]; [|by apply elem_of_nil in Ho].
      apply (Hun items0 Hown). unfold valuesOf. apply list_elem_of_fmap.
      exists o. split; [|done]. by rewrite <- Hk.
  - set (new := [ ("value", PStr item); _; _; _; _; _; _ ]).
    assert (listed (SystemReader.setItems settings type (items0 ++ [new])) type item
              [("note", por (cell row 4) (PStr item));
               ("order", SystemReader.orderOf (cell row 2));
               ("color", por (cell row 5) PNull); ("value2", por (cell row 6) PNull);
               ("value3", por (cell row 7) PNull);
               ("category", por (cell row 8) (PStr SystemReader.category_other))])
      as (items & i & Hown & Hi & Hv & Hf).
    { exists (items0 ++ [new]), new.
      rewrite ownItems_setItems, bool_decide_eq_true_2 by done.
      split; [done|]. split; [apply elem_of_app; right; by left|].
      split; [done|]. by repeat constructor. }
    split; [|intros _]; exists items, i; (split; [done|]); (split; [done|]);
      (split; [done|]).
    + apply Forall_cons in Hf as [H1 Hf]. apply Forall_cons in Hf as [H2 _].
      by repeat constructor.
    + by do 2 apply Forall_cons in Hf as [_ Hf].
Qed.

Lemma unlisted_kept (settings settings' : Settings) (row : Row)
    (type item : jsstring) :
  ~ declares type item row ->
  unlisted settings type item ->
  SystemReader.applyConfigRow settings row = Some settings' ->
  unlisted settings' type item.
Proof.
  intros Hnot Hun Hrow.
  apply applyConfigRow_cases in Hrow
    as [[-> _]|(ty & it & items0 & R0 & R1 & R3 & Hty & Hit & Hitems & Hres)];
    [done|].
  destruct (decide (ty = type)) as [->|Hne].
  - assert (PStr item ∉ valuesOf items0) as Hno.
    { destruct Hitems as [Hown|[_ ->]]; [by apply Hun|apply not_elem_of_nil]. }
    assert (it <> item) as Hother.
    { intros ->. by apply Hnot. }
    intros items. destruct (SystemReader.updateExisting _ _ _ items0) as [items'|] eqn:Eu;
      subst settings'; rewrite ownItems_setItems, bool_decide_eq_true_2 by done;
      intros [= <-].
    + by rewrite (updateExisting_values _ _ _ _ _ Eu).
    + unfold valuesOf. rewrite map_app. simpl. rewrite not_elem_of_app.
      split; [done|]. rewrite not_elem_of_cons. split; [congruence|apply not_elem_of_nil].
  - intros items. destruct (SystemReader.updateExisting _ _ _ items0); subst settings';
      rewrite ownItems_setItems, bool_decide_eq_false_2 by done; apply Hun.
Qed.

Lemma listed_sorted (settings : Settings) (type item : jsstring)
    (fields : list (string * Prim)) :
  listed settings type item fields ->
  listed (map (fun kv => (fst kv, sortBy SystemReader.byOrder (snd kv))) settings)
         type item fields.
Proof.
  intros (items & i & Hown & Hi & Hrest).
  exists (sortBy SystemReader.byOrder items), i. rewrite ownItems_sorted, Hown.
  split; [done|]. split; [by rewrite sortBy_Permutation|done].
Qed.

(** X24. The last row wins for the note and the order. When the rows
    below the header hold an enabled row for an item of a type, and no
    row after it declares that item again, the settings list the item
    with the note of that row (the item's own name when the note is empty)
    and with its order (99 when the order is no number or 0), whatever the
    rows before it said. *)
Theorem settings_last_row_wins (header : Row) (before after : list Row) (row : Row)
    (type item : jsstring) (settings : Settings) :
  declares type item row -> type <> [] -> item <> [] ->
  Forall (fun later => ~ declares type item later) after ->
  SystemReader.buildSettings (header :: before ++ row :: after) = Some settings ->
  listed settings type item
    [("note", por (cell row 4) (PStr item));
     ("order", SystemReader.orderOf (cell row 2))].
Proof.
  intros Hd Htype Hitem Hafter. unfold SystemReader.buildSettings.
  assert ((1 <? length (header :: before ++ row :: after))%nat = true) as ->.
  { apply Nat.ltb_lt. simpl. rewrite length_app. simpl. lia. }
  change (drop 1 (header :: before ++ row :: after)) with (before ++ row :: after).
  rewrite forEachRow_app.
  destruct (SystemReader.forEachRow _ before) as [st1|]; [|done]. simpl.
  destruct (SystemReader.applyConfigRow st1 row) as [st2|] eqn:Erow; [|done].
  destruct (SystemReader.forEachRow st2 after) as [st3|] eqn:Eafter; [|done].
  simpl. intros [= <-]. apply listed_sorted.
  refine (forEachRow_preserves
            (fun st => listed st type item
                         [("note", por (cell row 4) (PStr item));
                          ("order", SystemReader.orderOf (cell row 2))])
            (fun later => ~ declares type item later) after _ Hafter st2 st3 _ Eafter).
  - intros st st' later Hl Hq Hstep. apply (listed_kept st st' later); auto.
  - by apply (declaring_row_lists st1 st2 row).
Qed.

(** X25. The first row fixes the rest. The colour, the two extra values
    and the category of an item are those of the first enabled row that
    declares it (with [null] for an empty colour or value and the category
    "other" for an empty category): no later row changes them, not even a
    row that declares the item again with another colour. A default event
    type keeps the colour of the code in the same way. *)
Theorem settings_first_row_fixes_colour (header : Row) (before after : list Row)
    (row : Row) (type item : jsstring) (settings : Settings) :
  declares type item row -> type <> [] -> item <> [] ->
  Forall (fun earlier => ~ declares type item earlier) before ->
  ~ (type = SystemReader.key_eventTypes
     /\ PStr item ∈ valuesOf SystemReader.defaultEventTypes) ->
  SystemReader.buildSettings (header :: before ++ row :: after) = Some settings ->
  listed settings type item
    [("color", por (cell row 5) PNull); ("value2", por (cell row 6) PNull);
     ("value3", por (cell row 7) PNull);
     ("category", por (cell row 8) (PStr SystemReader.category_other))].
Proof.
  intros Hd Htype Hitem Hbefore Hdefault. unfold SystemReader.buildSettings.
  assert ((1 <? length (header :: before ++ row :: after))%nat = true) as ->.
  { apply Nat.ltb_lt. simpl. rewrite length_app. simpl. lia. }
  change (drop 1 (header :: before ++ row :: after)) with (before ++ row :: after).
  rewrite forEachRow_app.
  destruct (SystemReader.forEachRow _ before) as [st1|] eqn:Ebefore; [|done]. simpl.
  destruct (SystemReader.applyConfigRow st1 row) as [st2|] eqn:Erow; [|done].
  destruct (SystemReader.forEachRow st2 after) as [st3|] eqn:Eafter; [|done].
  simpl. intros [= <-]. apply listed_sorted.
  assert (unlisted st1 type item) as Hun.
  { refine (forEachRow_preserves (fun st => unlisted st type item)
              (fun earlier => ~ declares type item earlier) before
              _ Hbefore _ st1 _ Ebefore).
    { intros st st' r Hr Hq Hs. by apply (unlisted_kept st st' r). }
    intros items. simpl.
    destruct (decide (SystemReader.key_eventTypes = type)) as [<-|Hne].
    - rewrite bool_decide_eq_true_2 by done. intros [= <-]. intros Hin.
      by apply Hdefault.
    - rewrite bool_decide_eq_false_2 by done.
      destruct (bool_decide (SystemReader.key_calendarRules = type)); [|done].
      intros [= <-]. apply not_elem_of_nil. }
  refine (forEachRow_preserves
            (fun st => listed st type item
                         [("color", por (cell row 5) PNull);
                          ("value2", por (cell row 6) PNull);
                          ("value3", por (cell row 7) PNull);
                          ("category", por (cell row 8)
                                         (PStr SystemReader.category_other))])
            (fun _ => True) after _ _ st2 st3 _ Eafter).
  - intros st st' later _ Hq Hstep. apply (listed_kept st st' later); [|done|done].
    left. repeat constructor; done.
  - by apply Forall_true.
  - by apply (declaring_row_lists st1 st2 row).
Qed.

End RedeclarationFacts.

Lemma settings_last_row_wins_witness :
  let E := tableEngine [] in
  let header := [js "type"; js "item"; js "order"; js "enabled"] in
  let first := [js "Stage"; js "won"; js "2"; js "TRUE"; js "Won"; js "#00ff00"] in
  let second := [js "Stage"; js "won"; js "7"; js "TRUE"; js "Closed"; js "#ff0000"] in
  exists settings,
    @SystemReader.buildSettings E [header; first; second] = Some settings
    /\ listed settings (js "Stage") (js "won")
         [("note", PStr (js "Closed")); ("order", PNum 7)].
Proof.
  intros E header first second. eexists. split; [vm_compute; reflexivity|].
  by apply (@settings_last_row_wins E header [first] [] second (js "Stage") (js "won")).
Defined.

Lemma settings_first_row_fixes_colour_witness :
  let E := tableEngine [] in
  let header := [js "type"; js "item"; js "order"; js "enabled"] in
  let first := [js "Stage"; js "won"; js "2"; js "TRUE"; js "Won"; js "#00ff00"] in
  let second := [js "Stage"; js "won"; js "7"; js "TRUE"; js "Closed"; js "#ff0000"] in
  exists settings,
    @SystemReader.buildSettings E [header; first; second] = Some settings
    /\ listed settings (js "Stage") (js "won")
         [("color", PStr (js "#00ff00")); ("value2", PNull); ("value3", PNull);
          ("category", PStr SystemReader.category_other)].
Proof.
  intros E header first second. eexists. split; [vm_compute; reflexivity|].
  apply (@settings_first_row_fixes_colour E header [] [second] first
           (js "Stage") (js "won")); try done.
  intros [Hk _]. vm_compute in Hk. discriminate.
Defined.


(** ** The weekly entries *)

Lemma isDigit_range (c : N) : isDigit c = true -> (48 <= c <= 57)%N.
Proof.
  unfold isDigit. intros Hd. apply andb_true_iff in Hd as [H1 H2].
  apply N.leb_le in H1, H2. lia.
Qed.

Lemma digit_not_dash (c : N) : isDigit c = true -> (c =? 45)%N = false.
Proof. intros Hd. apply isDigit_range in Hd. apply N.eqb_neq. lia. Qed.

Lemma digit_value (c : N) : isDigit c = true -> 0 <= Z.of_N (c - 48) <= 9.
Proof. intros Hd. apply isDigit_range in Hd. lia. Qed.

Lemma month_start_bounds (n : nat) :
  0 <= nth n [0; 31; 59; 90; 120; 151; 181; 212; 243; 273; 304; 334] 0 <= 334.
Proof. do 12 (destruct n as [|n]; [simpl; lia|]). simpl. destruct n; lia. Qed.

Lemma daysBeforeMonth_bounds (leap : bool) (mn : Z) :
  0 <= daysBeforeMonth leap mn <= 335.
Proof.
  unfold daysBeforeMonth. pose proof (month_start_bounds (Z.to_nat mn)).
  destruct (leap && (2 <=? mn)); lia.
Qed.

Lemma Date_UTC_of_date_text (year month day : Z) :
  0 <= year <= 9999 -> 0 <= month <= 99 -> 0 <= day <= 99 ->
  exists t, Date_UTC year (month - 1) day = Num t.
Proof.
  intros Hy Hm Hd. unfold Date_UTC.
  set (yr := if (0 <=? year) && (year <=? 99) then 1900 + year else year).
  assert (0 <= yr <= 9999) as Hyr.
  { unfold yr. destruct ((0 <=? year) && (year <=? 99)) eqn:E; cbv iota; [|lia].
    apply andb_true_iff in E as [E1 E2]. lia. }
  unfold MakeDay.
  pose proof (daysBeforeMonth_bounds (InLeapYear (yr + (month - 1) / 12))
                ((month - 1) mod 12)) as Hb.
  set (dbm := daysBeforeMonth _ _) in *.
  assert (-1 <= (month - 1) / 12 <= 9) as Hq.
  { split; [apply Z.div_le_lower_bound; lia|apply Z.div_le_upper_bound; lia]. }
  set (ym := yr + (month - 1) / 12) in *.
  assert (-1 <= ym <= 10008) as Hym by (unfold ym; lia).
  assert (-800000 <= DayFromYear ym <= 3000000) as Hdy.
  { unfold DayFromYear.
    assert (-493 <= (ym - 1969) / 4 <= 2010)
      by (split; [apply Z.div_le_lower_bound; lia|apply Z.div_le_upper_bound; lia]).
    assert (-20 <= (ym - 1901) / 100 <= 82)
      by (split; [apply Z.div_le_lower_bound; lia|apply Z.div_le_upper_bound; lia]).
    assert (-5 <= (ym - 1601) / 400 <= 22)
      by (split; [apply Z.div_le_lower_bound; lia|apply Z.div_le_upper_bound; lia]).
    lia. }
  destruct (Z.leb_spec (Z.abs ((DayFromYear ym + dbm + day - 1) * 86400000))
              8640000000000000); [eauto|lia].
Qed.

Lemma getUTCDay_range (t : Z) : 0 <= getUTCDay t <= 6.
Proof. unfold getUTCDay. pose proof (Z.mod_pos_bound (t / 86400000 + 4) 7). lia. Qed.

Lemma dayOf_range (dateString : jsstring) :
  (WeeklyEntries.isDateText dateString = true /\ 0 <= WeeklyEntries.dayOf dateString <= 6)
  \/ (WeeklyEntries.isDateText dateString = false
      /\ WeeklyEntries.dayOf dateString = -1).
Proof.
  unfold WeeklyEntries.dayOf.
  destruct (WeeklyEntries.isDateText dateString) eqn:E; [left|by right].
  split; [done|].
  do 10 (destruct dateString as [|? dateString]; [done|]).
  destruct dateString; [|done]. simpl in E.
  repeat match goal with
         | H : _ && _ = true |- _ => apply andb_true_iff in H as [? ?]
         end.
  repeat match goal with
         | H : (_ =? 45)%N = true |- _ => apply N.eqb_eq in H; subst
         end.
  simpl. rewrite !digit_not_dash by done. simpl.
  repeat match goal with
         | H : isDigit ?c = true |- _ => apply digit_value in H
         end.
  unfold digits. simpl.
  match goal with
  | |- context [Date_UTC ?y (?m - 1) ?d] =>
      destruct (Date_UTC_of_date_text y m d) as [t ->]; [lia|lia|lia|]
  end.
  apply getUTCDay_range.
Qed.

Lemma weekly_entry_fields (row : Row) (index : nat) :
  let entry := WeeklyEntries.rowParser row index in
  getField entry "rowIndex" = PNum (Z.of_nat index + 2)
  /\ getField entry WeeklyEntries.key_date = por (cell row 0) (PStr [])
  /\ getField entry "weekId" = por (cell row 1) (PStr [])
  /\ getField entry "category" = por (cell row 2) (PStr [])
  /\ getField entry WeeklyEntries.key_theme = por (cell row 3) (PStr [])
  /\ getField entry WeeklyEntries.key_participants = por (cell row 4) (PStr [])
  /\ getField entry WeeklyEntries.key_summary = por (cell row 5) (PStr [])
  /\ getField entry WeeklyEntries.key_todo = por (cell row 6) (PStr [])
  /\ getField entry "createdTime" = por (cell row 7) (PStr [])
  /\ getField entry "lastUpdateTime" = por (cell row 8) (PStr [])
  /\ getField entry WeeklyEntries.key_creator = por (cell row 9) (PStr [])
  /\ getField entry "recordId" = por (cell row 10) (PStr [])
  /\ getField entry "day"
     = PNum (WeeklyEntries.dayOf (default [] (row !! 0%nat))).
Proof.
  simpl. unfold WeeklyEntries.rowParser. simpl.
  repeat split; try reflexivity.
  rewrite por_cell. reflexivity.
Qed.

(** X26. The [day] the weekly row parser gives an entry is -1 exactly
    when the date cell is not of the form dddd-dd-dd, a missing cell
    included; for every text of that form it is a weekday from 0 to 6,
    also when the text names no day of the calendar: the branch for an
    invalid date is never taken. *)
Theorem weekly_day_is_weekday_or_minus_one (row : Row) (index : nat) :
  exists day,
    getField (WeeklyEntries.rowParser row index) "day" = PNum day
    /\ (WeeklyEntries.isDateText (default [] (row !! 0%nat)) = true /\ 0 <= day <= 6
        \/ WeeklyEntries.isDateText (default [] (row !! 0%nat)) = false /\ day = -1).
Proof.
  eexists. split; [apply weekly_entry_fields|]. apply dayOf_range.
Qed.

Lemma find_present {A} (p : A -> bool) (l : list A) (x : A) :
  x ∈ l -> p x = true -> exists y, List.find p l = Some y /\ y ∈ l /\ p y = true.
Proof.
  intros Hin Hp. destruct (List.find p l) as [y|] eqn:E.
  - apply find_some in E as [Hy Hpy]. exists y. by rewrite list_elem_of_In.
  - apply list_elem_of_In in Hin. rewrite (find_none _ _ E x Hin) in Hp. done.
Qed.

Section WeeklyRoundTrip.
Context `{Engine}.

(** X27. What [createEntry] writes, the reader reads back under the keys
    of the same meaning. When the sheet holds the appended row as text at
    some position, the row parser gives the entry the date, week, category,
    theme, participants, summary, to-do, times, creator and record
    identifier that were written, with the sheet row of that position;
    and [findEntryByRecordId] with the identifier [createEntry] returned
    finds an entry that carries it and that was parsed from a row holding
    it, so the writer's update and delete address such a row. *)
Theorem created_weekly_entry_reads_back (nowIso : jsstring) (nowMs : Z)
    (data : WeeklyEntries.EntryData) (creator : Prim)
    (rows : list Row) (row : Row) (index : nat) :
  let recordId := fst (WeeklyEntries.createEntry nowIso nowMs data creator) in
  let newRow := snd (WeeklyEntries.createEntry nowIso nowMs data creator) in
  map PStr row = newRow ->
  rows !! index = Some row ->
  let entry := WeeklyEntries.rowParser row index in
  (getField entry "rowIndex" = PNum (Z.of_nat index + 2)
   /\ getField entry WeeklyEntries.key_date
      = por (WeeklyEntries.date data) (PStr (default [] (head (splitOn 84 nowIso))))
   /\ getField entry "weekId" = por (WeeklyEntries.weekId data) (PStr [])
   /\ getField entry "category"
      = por (WeeklyEntries.category data) (PStr WeeklyEntries.general)
   /\ getField entry WeeklyEntries.key_theme = por (WeeklyEntries.theme data) (PStr [])
   /\ getField entry WeeklyEntries.key_participants
      = por (WeeklyEntries.participants data) (PStr [])
   /\ getField entry WeeklyEntries.key_summary
      = por (WeeklyEntries.summary data) (PStr [])
   /\ getField entry WeeklyEntries.key_todo = por (WeeklyEntries.todo data) (PStr [])
   /\ getField entry "createdTime" = PStr nowIso
   /\ getField entry "lastUpdateTime" = PStr nowIso
   /\ getField entry WeeklyEntries.key_creator = creator
   /\ getField entry "recordId" = PStr recordId)
  /\ exists found index' row',
       WeeklyEntries.findEntryByRecordId
         (sortBy WeeklyEntries.sorter
            (imap (fun i r => WeeklyEntries.rowParser r i) rows))
         (PStr recordId) = Some found
       /\ rows !! index' = Some row'
       /\ found = WeeklyEntries.rowParser row' index'
       /\ row' !! 10%nat = Some recordId.
Proof.
  intros recordId newRow Hstored Hrow entry.
  assert (forall i cellv, newRow !! i = Some cellv ->
            por (cell row i) (PStr []) = cellv) as Hcell.
  { intros i cellv Hi. rewrite <- Hstored, list_lookup_fmap in Hi.
    rewrite por_cell. destruct (row !! i); simpl in Hi; [by injection Hi as <-|done]. }
  destruct (weekly_entry_fields row index)
    as (F0 & F1 & F2 & F3 & F4 & F5 & F6 & F7 & F8 & F9 & F10 & F11 & _).
  fold entry in F0, F1, F2, F3, F4, F5, F6, F7, F8, F9, F10, F11.
  assert (getField entry "recordId" = PStr recordId) as Hid.
  { rewrite F11. by apply (Hcell 10%nat). }
  split.
  - split; [done|].
    split; [rewrite F1; by apply (Hcell 0%nat)|].
    split; [rewrite F2; by apply (Hcell 1%nat)|].
    split; [rewrite F3; by apply (Hcell 2%nat)|].
    split; [rewrite F4; by apply (Hcell 3%nat)|].
    split; [rewrite F5; by apply (Hcell 4%nat)|].
    split; [rewrite F6; by apply (Hcell 5%nat)|].
    split; [rewrite F7; by apply (Hcell 6%nat)|].
    split; [rewrite F8; by apply (Hcell 7%nat)|].
    split; [rewrite F9; by apply (Hcell 8%nat)|].
    split; [rewrite F10; by apply (Hcell 9%nat)|done].
  - unfold WeeklyEntries.findEntryByRecordId.
    change (truthy (PStr recordId)) with true. simpl negb. cbv iota.
    destruct (find_present
                (fun e => strictEq (getField e "recordId") (PStr recordId))
                (sortBy WeeklyEntries.sorter
                   (imap (fun i r => WeeklyEntries.rowParser r i) rows))
                entry) as (found & Hfind & Hin & Hp).
    { rewrite sortBy_Permutation. apply elem_of_lookup_imap. by exists index, row. }
    { unfold strictEq. by rewrite bool_decide_eq_true_2. }
    rewrite sortBy_Permutation in Hin.
    apply elem_of_lookup_imap in Hin as (index' & row' & -> & Hrow').
    exists (WeeklyEntries.rowParser row' index'), index', row'.
    split; [done|]. split; [done|]. split; [done|].
    unfold strictEq in Hp. apply bool_decide_eq_true in Hp.
    destruct (weekly_entry_fields row' index') as (_ & _ & _ & _ & _ & _ & _ & _ & _ & _
                                                   & _ & G11 & _).
    rewrite G11, por_cell in Hp. injection Hp as Hp.
    destruct (row' !! 10%nat) as [c|] eqn:E10; simpl in Hp; [by subst|].
    exfalso. revert Hp. unfold recordId. simpl. discriminate.
Qed.

End WeeklyRoundTrip.

Lemma created_weekly_entry_reads_back_witness :
  let E := tableEngine sampleDates in
  let data := {| WeeklyEntries.date := PStr (js "2026-01-02");
                 WeeklyEntries.weekId := PStr (js "2026-W01");
                 WeeklyEntries.category := PUndefined;
                 WeeklyEntries.theme := PStr (js "Visit");
                 WeeklyEntries.participants := PUndefined;
                 WeeklyEntries.summary := PUndefined;
                 WeeklyEntries.todo := PUndefined |} in
  let row := [js "2026-01-02"; js "2026-W01"; WeeklyEntries.general; js "Visit";
              []; []; []; js "2026-01-03T00:00:00.000Z";
              js "2026-01-03T00:00:00.000Z"; js "amy"; js "WK1767398400000"] in
  let entry := WeeklyEntries.rowParser row 1 in
  getField entry "recordId" = PStr (js "WK1767398400000")
  /\ getField entry "category" = PStr WeeklyEntries.general
  /\ getField entry "rowIndex" = PNum 3
  /\ getField entry "day" = PNum 5.
Proof.
  intros E data row entry.
  destruct (@created_weekly_entry_reads_back E (js "2026-01-03T00:00:00.000Z")
              1767398400000 data (PStr (js "amy")) [[js "header"]; row] row 1
              eq_refl eq_refl)
    as ((Hrow & _ & _ & Hcat & _ & _ & _ & _ & _ & _ & _ & Hid) & _).
  split; [exact Hid|]. split; [exact Hcat|]. split; [exact Hrow|].
  vm_compute. reflexivity.
Defined.

(** ** The file identifier of a drive link *)

Lemma idRun_spec (s : jsstring) :
  exists rest,
    s = ExternalController.idRun s ++ rest
    /\ Forall (fun c => ExternalController.isIdChar c = true) (ExternalController.idRun s)
    /\ ExternalController.idRun rest = [].
Proof.
  induction s as [|c t (rest & Ht & Hall & Hrest)]; simpl.
  - by exists [].
  - destruct (ExternalController.isIdChar c) eqn:Ec.
    + exists rest. split; [simpl; by f_equal|]. split; [by constructor|done].
    + exists (c :: t). split; [done|]. split; [constructor|]. simpl. by rewrite Ec.
Qed.

Lemma matchId_spec (marker link id : jsstring) :
  ExternalController.matchId marker link = Some id ->
  (25 <= length id)%nat
  /\ Forall (fun c => ExternalController.isIdChar c = true) id
  /\ exists before rest,
       link = before ++ marker ++ id ++ rest
       /\ ExternalController.idRun rest = [].
Proof.
  induction link as [|c t IH]; cbn [ExternalController.matchId]; [done|].
  destruct (startsWith marker (c :: t)
            && (25 <=? length (ExternalController.idRun
                                 (drop (length marker) (c :: t))))%nat) eqn:E.
  - intros [= <-]. apply andb_true_iff in E as [Hs Hlen].
    apply Nat.leb_le in Hlen. apply startsWith_app in Hs as [tail Htail].
    rewrite Htail, drop_app_length in *.
    destruct (idRun_spec tail) as (rest & Hr & Hall & Hrest).
    split; [done|]. split; [done|]. exists [], rest. simpl.
    split; [by rewrite <- Hr|done].
  - intros Hm. destruct (IH Hm) as (Hlen & Hall & before & rest & -> & Hrest).
    split; [done|]. split; [done|]. by exists (c :: before), rest.
Qed.

(** X28. The file identifier [getDriveThumbnail] uses. A [fileId] given in
    the query is used as it is, and the link is not looked at. Without
    one, an identifier taken from a link is made of letters, digits,
    underscores and hyphens only, is at least 25 characters long, and
    stands in the link right behind [/d/] or [id=], up to the first
    character that is none of these; and a link with no such run gives
    the answer 400. *)
Theorem drive_file_id_from_link (fileId : Prim) (link : jsstring) :
  (truthy fileId = true ->
   ExternalController.targetFileId fileId (PStr link) = Some fileId)
  /\ (truthy fileId = false ->
      match ExternalController.targetFileId fileId (PStr link) with
      | Some target =>
          exists id before marker rest,
            target = PStr id
            /\ (25 <= length id)%nat
            /\ Forall (fun c => ExternalController.isIdChar c = true) id
            /\ (marker = js "/d/" \/ marker = js "id=")
            /\ link = before ++ marker ++ id ++ rest
            /\ ExternalController.idRun rest = []
      | None =>
          ExternalController.matchId (js "/d/") link = None
          /\ ExternalController.matchId (js "id=") link = None
      end).
Proof.
  unfold ExternalController.targetFileId. split.
  - intros Ht. rewrite Ht. simpl. by rewrite Ht.
  - intros Hf. rewrite Hf. simpl.
    destruct link as [|c l]; [simpl; by rewrite Hf|].
    change (truthy (PStr (c :: l))) with true. cbv iota.
    destruct (ExternalController.matchId (js "/d/") (c :: l)) as [id|] eqn:E1.
    + destruct (matchId_spec _ _ _ E1) as (Hlen & Hall & before & rest & Hl & Hr).
      destruct id as [|i0 id]; [simpl in Hlen; lia|]. simpl truthy. cbv iota.
      exists (i0 :: id), before, (js "/d/"), rest. auto 10.
    + destruct (ExternalController.matchId (js "id=") (c :: l)) as [id|] eqn:E2.
      * destruct (matchId_spec _ _ _ E2) as (Hlen & Hall & before & rest & Hl & Hr).
        destruct id as [|i0 id]; [simpl in Hlen; lia|]. simpl truthy. cbv iota.
        exists (i0 :: id), before, (js "id="), rest. auto 10.
      * by rewrite Hf.
Qed.

Lemma drive_file_id_from_link_witness :
  ExternalController.targetFileId PUndefined
    (PStr (js "https://drive.google.com/file/d/1AbC_dEf-GhIjKlMnOpQrStUvWxYz012/view"))
  = Some (PStr (js "1AbC_dEf-GhIjKlMnOpQrStUvWxYz012"))
  /\ ExternalController.targetFileId (PStr (js "../x")) (PStr (js "ignored"))
     = Some (PStr (js "../x")).
Proof.
  split; [vm_compute; reflexivity|].
  by apply (drive_file_id_from_link (PStr (js "../x")) (js "ignored")).
Defined.


(** ** The update of a weekly entry *)

Lemma length_assign (i : nat) (v : Prim) (row : list Prim) :
  (length row <= length (WeeklyBusinessWriter.assign i v row))%nat.
Proof.
  unfold WeeklyBusinessWriter.assign. destruct (decide _).
  - by rewrite length_insert.
  - rewrite length_app. lia.
Qed.

Lemma lookup_assign_ne (i j : nat) (v : Prim) (row : list Prim) (c : Prim) :
  i <> j -> row !! j = Some c -> WeeklyBusinessWriter.assign i v row !! j = Some c.
Proof.
  intros Hne Hj. unfold WeeklyBusinessWriter.assign. destruct (decide _).
  - by rewrite list_lookup_insert_ne.
  - rewrite lookup_app_l; [done|]. by apply lookup_lt_Some in Hj.
Qed.

Lemma lookup_assign_eq (i : nat) (v : Prim) (row : list Prim) :
  WeeklyBusinessWriter.assign i v row !! i = Some v.
Proof.
  unfold WeeklyBusinessWriter.assign. destruct (decide _) as [Hlt|Hge].
  - by apply list_lookup_insert_eq.
  - rewrite lookup_app_r by lia. rewrite lookup_app_r; rewrite length_replicate; [|lia].
    by replace (i - length row - (i - length row))%nat with 0%nat by lia.
Qed.

Lemma lookup_assignGiven_ne (i j : nat) (v : Prim) (row : list Prim) (c : Prim) :
  i <> j -> row !! j = Some c ->
  WeeklyBusinessWriter.assignGiven i v row !! j = Some c.
Proof.
  intros Hne Hj. unfold WeeklyBusinessWriter.assignGiven.
  destruct v; auto using lookup_assign_ne.
Qed.

(** X29. [updateEntry] changes what it is given and nothing that names
    the record. Of the row it has read it writes back the creation time,
    the creator and the record identifier as they were, whatever [data]
    holds; it stamps the update time in the ninth column, growing a short
    row to reach it; and a field that [data] does not give keeps its
    cell. The row number is the one the reader gave the entry found
    under the identifier. *)
Theorem weekly_update_keeps_the_record (allEntries : list Obj)
    (values : option (list Row)) (nowIso : jsstring) (recordId : Prim)
    (data : WeeklyEntries.EntryData) (rowIndex : Prim) (written : list Prim) :
  WeeklyBusinessWriter.updateEntry allEntries values nowIso recordId data
    = WeeklyBusinessWriter.Updated rowIndex written ->
  exists entry first rest,
    WeeklyEntries.findEntryByRecordId allEntries recordId = Some entry
    /\ rowIndex = getField entry "rowIndex"
    /\ values = Some (first :: rest)
    /\ written !! 8%nat = Some (PStr nowIso)
    /\ (forall i cell, (i = 7 \/ i = 9 \/ i = 10)%nat ->
          first !! i = Some cell -> written !! i = Some (PStr cell))
    /\ (forall cell, WeeklyEntries.date data = PUndefined ->
          first !! 0%nat = Some cell -> written !! 0%nat = Some (PStr cell))
    /\ (WeeklyEntries.date data <> PUndefined ->
          written !! 0%nat = Some (WeeklyEntries.date data)).
Proof.
  unfold WeeklyBusinessWriter.updateEntry.
  destruct (WeeklyEntries.findEntryByRecordId allEntries recordId) as [entry|]; [|done].
  destruct values as [[|first rest]|]; [done| |done].
  destruct first as [|c0 first]; [done|]. intros [= <- <-].
  exists entry, (c0 :: first), rest.
  split; [done|]. split; [done|]. split; [done|].
  split; [apply lookup_assign_eq|]. split; [|split].
  - intros i cell Hi Hcell.
    assert (map PStr (c0 :: first) !! i = Some (PStr cell)) as Hstart
      by (by rewrite list_lookup_fmap, Hcell).
    apply lookup_assign_ne; [lia|].
    repeat (apply lookup_assignGiven_ne; [lia|]). done.
  - intros cell Hd Hcell. rewrite Hd.
    apply lookup_assign_ne; [lia|].
    repeat (apply lookup_assignGiven_ne; [lia|]).
    simpl in *. by injection Hcell as <-.
  - intros Hd. apply lookup_assign_ne; [lia|].
    repeat (apply lookup_assignGiven_ne; [lia|]).
    unfold WeeklyBusinessWriter.assignGiven.
    destruct (WeeklyEntries.date data) eqn:Ed; try done;
      unfold WeeklyBusinessWriter.assign; simpl; done.
Qed.

Lemma weekly_update_keeps_the_record_witness :
  let data := {| WeeklyEntries.date := PUndefined;
                 WeeklyEntries.weekId := PUndefined;
                 WeeklyEntries.category := PUndefined;
                 WeeklyEntries.theme := PStr (js "Second visit");
                 WeeklyEntries.participants := PUndefined;
                 WeeklyEntries.summary := PUndefined;
                 WeeklyEntries.todo := PUndefined |} in
  let row := [js "2026-01-02"; js "2026-W01"; WeeklyEntries.general; js "Visit"] in
  let entry := WeeklyEntries.rowParser
                 (row ++ [[]; []; []; js "t0"; js "t0"; js "amy"; js "WK1"]) 5 in
  exists written,
    WeeklyBusinessWriter.updateEntry [entry] (Some [row])
      (js "2026-01-03T00:00:00.000Z") (PStr (js "WK1")) data
    = WeeklyBusinessWriter.Updated (PNum 7) written
    /\ written !! 0%nat = Some (PStr (js "2026-01-02"))
    /\ written !! 8%nat = Some (PStr (js "2026-01-03T00:00:00.000Z"))
    /\ length written = 9%nat.
Proof.
  intros data row entry. eexists. split; [vm_compute; reflexivity|].
  destruct (weekly_update_keeps_the_record [entry] (Some [row])
              (js "2026-01-03T00:00:00.000Z") (PStr (js "WK1")) data _ _ eq_refl)
    as (e & first & rest & _ & _ & Hv & H8 & _ & Hkeep & _).
  injection Hv as <- <-. split; [by apply Hkeep|]. split; [exact H8|reflexivity].
Defined.
